(** * LDP staging and merge core: a shallow embedding and its properties

    The development follows the two translation units of the repository:
    - [merge.cpp]: [mergeTable], the two SQL statements that bring the
      history table up to date from the loading table;
    - [stage_json.cpp]: [NameComparator], [processJSONRecord],
      [writeTuple] and the [JSONHandler] callbacks that stage one page.

    SQL statements are embedded by their meaning on tables (lists of rows,
    three-valued conditions); the JSON document is an inductive value that
    is addressed by position, because the C++ code mutates it in place
    through pointers and through JSON Pointer paths. *)

From Stdlib Require Import ZArith List Bool Lia Permutation Sorted.
From Stdlib Require Import Ascii String DecimalString.
From Stdlib Require Decimal DecimalFacts DecimalPos DecimalZ.
From stdpp Require Import gmap strings list sorting.

Import ListNotations.
Local Open Scope Z_scope.

(** ** Three-valued SQL conditions *)

Module Sql.

(** A condition is true, false or unknown ([None]); a column value is
    [None] when it is NULL. *)
Definition cond := option bool.

Definition and3 (a b : cond) : cond :=
  match a, b with
  | Some false, _ | _, Some false => Some false
  | Some true, Some true => Some true
  | _, _ => None
  end.

Definition or3 (a b : cond) : cond :=
  match a, b with
  | Some true, _ | _, Some true => Some true
  | Some false, Some false => Some false
  | _, _ => None
  end.

Definition eq3 {A} `{EqDecision A} (x y : option A) : cond :=
  match x, y with
  | Some a, Some b => Some (bool_decide (a = b))
  | _, _ => None
  end.

Definition neq3 {A} `{EqDecision A} (x y : option A) : cond :=
  match x, y with
  | Some a, Some b => Some (negb (bool_decide (a = b)))
  | _, _ => None
  end.

Definition lt3 (x y : option Z) : cond :=
  match x, y with
  | Some a, Some b => Some (a <? b)
  | _, _ => None
  end.

Definition is_null {A} (x : option A) : cond :=
  Some (match x with None => true | Some _ => false end).

Definition is_not_null {A} (x : option A) : cond :=
  Some (match x with None => false | Some _ => true end).

(** WHERE, ON and EXISTS keep a row only when the condition is true. *)
Definition holds (c : cond) : bool :=
  match c with Some true => true | _ => false end.

End Sql.

(** ** merge.cpp *)

Module Merge.

Import Sql.

(** A row of the history table, columns [(id, data, updated, tenant_id)].
    Every row the engine writes takes [id] and [tenant_id] from the loading
    table, where they are declared NOT NULL, takes [data] from a loading
    row that passed [s.data IS NOT NULL], and takes [updated] from the
    database clock; the four columns are therefore never NULL. [data] is
    kept as its text, which is what the [::VARCHAR] casts compare. *)
Record HistoryRow := mkHistoryRow {
  h_id : string;
  h_data : string;
  h_updated : Z;
  h_tenant_id : Z
}.

(** A row of the temporary latest-history table: [SELECT id, data,
    tenant_id]. *)
Record LatestRow := mkLatestRow {
  l_id : string;
  l_data : string;
  l_tenant_id : Z
}.

(** The columns of the loading table that the merge reads. [createLoadingTable]
    declares [id VARCHAR(65535) NOT NULL], [data] nullable and
    [tenant_id SMALLINT NOT NULL]. *)
Record StagedRow := mkStagedRow {
  s_id : string;
  s_data : option string;
  s_tenant_id : Z
}.

#[global] Instance HistoryRow_eq_dec : EqDecision HistoryRow.
Proof. solve_decision. Defined.
#[global] Instance LatestRow_eq_dec : EqDecision LatestRow.
Proof. solve_decision. Defined.
#[global] Instance StagedRow_eq_dec : EqDecision StagedRow.
Proof. solve_decision. Defined.

(** The three tables [mergeTable] names: [historyTable],
    [loadingTable] and the temporary [latestHistoryTable]. *)
Record Database := mkDatabase {
  history : list HistoryRow;
  loading : list StagedRow;
  latest_history : list LatestRow
}.

(** The [(tenant_id, id)] key of a row. *)
Definition key_h (h : HistoryRow) : Z * string := (h_tenant_id h, h_id h).
Definition key_l (l : LatestRow) : Z * string := (l_tenant_id l, l_id l).
Definition key_s (s : StagedRow) : Z * string := (s_tenant_id s, s_id s).

(** [h1.tenant_id = h2.tenant_id AND h1.id = h2.id AND
     h1.updated < h2.updated] *)
Definition newer_version (h1 h2 : HistoryRow) : cond :=
  and3 (and3 (eq3 (Some (h_tenant_id h1)) (Some (h_tenant_id h2)))
             (eq3 (Some (h_id h1)) (Some (h_id h2))))
       (lt3 (Some (h_updated h1)) (Some (h_updated h2))).

(** [WHERE NOT EXISTS (SELECT 1 FROM history AS h2 WHERE ...)] *)
Definition is_latest (hist : list HistoryRow) (h1 : HistoryRow) : bool :=
  negb (existsb (fun h2 => holds (newer_version h1 h2)) hist).

Definition select_latest (h : HistoryRow) : LatestRow :=
  mkLatestRow (h_id h) (h_data h) (h_tenant_id h).

(** First statement: [CREATE TEMPORARY TABLE latestHistoryTable AS
    SELECT id, data, tenant_id FROM historyTable AS h1 WHERE NOT EXISTS ...]. *)
Definition createLatestHistory (db : Database) : Database :=
  mkDatabase (history db) (loading db)
    (map select_latest (List.filter (is_latest (history db)) (history db))).

(** [ON s.tenant_id = h.tenant_id AND s.id = h.id] *)
Definition join_on (s : StagedRow) (h : LatestRow) : cond :=
  and3 (eq3 (Some (s_tenant_id s)) (Some (l_tenant_id h)))
       (eq3 (Some (s_id s)) (Some (l_id h))).

(** [loadingTable AS s LEFT JOIN latestHistoryTable AS h ON ...]: every
    staged row is paired with each snapshot row that satisfies the ON
    condition, or with an all-NULL row when there is none. *)
Definition left_join (stage : list StagedRow) (latest : list LatestRow)
  : list (StagedRow * option LatestRow) :=
  flat_map (fun s =>
    match List.filter (fun h => holds (join_on s h)) latest with
    | [] => [(s, None)]
    | hs => map (fun h => (s, Some h)) hs
    end) stage.

(** [WHERE s.data IS NOT NULL AND
          ( h.id IS NULL OR (s.data)::VARCHAR <> (h.data)::VARCHAR )] *)
Definition changed (r : StagedRow * option LatestRow) : cond :=
  let '(s, h) := r in
  and3 (is_not_null (s_data s))
       (or3 (is_null (l_id <$> h))
            (neq3 (s_data s) (l_data <$> h))).

(** The SELECT list [s.id, s.data, current_timestamp, s.tenant_id] of the
    rows that passed the WHERE clause (their [s.data] is not NULL). *)
Definition select_changed (now : Z) (r : StagedRow * option LatestRow)
  : list HistoryRow :=
  match s_data (fst r) with
  | Some d => [mkHistoryRow (s_id (fst r)) d now (s_tenant_id (fst r))]
  | None => []
  end.

Definition appended (now : Z) (db : Database) : list HistoryRow :=
  flat_map (select_changed now)
    (List.filter (fun r => holds (changed r))
       (left_join (loading db) (latest_history db))).

(** Second statement: [INSERT INTO historyTable (id, data, updated,
    tenant_id) SELECT ... FROM loadingTable AS s LEFT JOIN ... WHERE ...]. *)
Definition insertChanged (now : Z) (db : Database) : Database :=
  mkDatabase (history db ++ appended now db) (loading db) (latest_history db).

(** [mergeTable]: the two statements in order; [now] is the value of the
    database's [current_timestamp] in the second one. *)
Definition mergeTable (now : Z) (db : Database) : Database :=
  insertChanged now (createLatestHistory db).

End Merge.

(** ** C strings and [std::to_string] *)

Module CStr.

Local Open Scope string_scope.
Local Open Scope Z_scope.

Definition code (c : ascii) : Z := Z.of_nat (nat_of_ascii c).

(** The bytes a [const char*] denotes: everything before the first NUL. *)
Fixpoint c_str (s : string) : string :=
  match s with
  | EmptyString => EmptyString
  | String c r => if code c =? 0 then EmptyString else String c (c_str r)
  end.

(** [strcmp]: the difference of the first two bytes that differ (as
    [unsigned char]), zero when both strings end together. *)
Fixpoint strcmp (s1 s2 : string) : Z :=
  match s1, s2 with
  | EmptyString, EmptyString => 0
  | EmptyString, String c2 _ => 0 - code c2
  | String c1 _, EmptyString => code c1
  | String c1 r1, String c2 r2 =>
      if code c1 =? code c2
      then (if code c1 =? 0 then 0 else strcmp r1 r2)
      else code c1 - code c2
  end.

(** [std::string::length] *)
Definition strlen (s : string) : Z := Z.of_nat (String.length s).

(** [std::to_string] of an integer: decimal digits, a leading minus sign
    for negative values. *)
Definition to_string (z : Z) : string :=
  DecimalString.NilZero.string_of_int (Z.to_int z).

(** The number that the digits [d] spell when they follow digits of value
    [acc]; it relates [to_string] to the index of a pointer token. *)
Section Digits.
Import Decimal.
Fixpoint uint_value (d : uint) (acc : Z) : Z :=
  match d with
  | Nil => acc
  | D0 l => uint_value l (10 * acc)
  | D1 l => uint_value l (10 * acc + 1)
  | D2 l => uint_value l (10 * acc + 2)
  | D3 l => uint_value l (10 * acc + 3)
  | D4 l => uint_value l (10 * acc + 4)
  | D5 l => uint_value l (10 * acc + 5)
  | D6 l => uint_value l (10 * acc + 6)
  | D7 l => uint_value l (10 * acc + 7)
  | D8 l => uint_value l (10 * acc + 8)
  | D9 l => uint_value l (10 * acc + 9)
  end.

End Digits.

End CStr.

(** ** The JSON document ([rapidjson::Value]) *)

Module Json.

Import CStr.
Local Open Scope string_scope.
Local Open Scope Z_scope.

(** A number is either an integer literal in the range of the 64-bit
    integer types, or a double (kept as mantissa and binary exponent). *)
Inductive Number :=
| Integer (z : Z)
| Floating (m e : Z).

#[warnings="-register-all"]
Inductive Value :=
| kNull
| kBool (b : bool)
| kNumber (n : Number)
| kString (s : string)
| kArray (elements : list Value)
| kObject (members : list (string * Value)).

Abbreviation Member := (string * Value)%type.

Definition IsObject (v : Value) : bool :=
  match v with kObject _ => true | _ => false end.
Definition IsArray (v : Value) : bool :=
  match v with kArray _ => true | _ => false end.
Definition IsNull (v : Value) : bool :=
  match v with kNull => true | _ => false end.

(** [IsInt() || IsUint() || IsInt64() || IsUint64()] *)
Definition IsInteger (n : Number) : bool :=
  match n with Integer _ => true | Floating _ _ => false end.

(** *** Positions inside a document

    A [Value*] into the document is a position: the list of child indexes
    that leads from the root to the value. Reading through the pointer
    reads what the document holds there now. *)
Definition Loc := list nat.

Definition child (v : Value) (i : nat) : option Value :=
  match v with
  | kArray l => l !! i
  | kObject ms => snd <$> ms !! i
  | _ => None
  end.

Definition child_name (v : Value) (i : nat) : option string :=
  match v with
  | kObject ms => fst <$> ms !! i
  | _ => None
  end.

Fixpoint at_loc (v : Value) (loc : Loc) : option Value :=
  match loc with
  | [] => Some v
  | i :: loc' =>
      match child v i with
      | Some c => at_loc c loc'
      | None => None
      end
  end.

(** In-place change of the value at a position. *)
Fixpoint modify (f : Value -> Value) (loc : Loc) (v : Value) : Value :=
  match loc with
  | [] => f v
  | i :: loc' =>
      match v with
      | kArray l => kArray (alter (modify f loc') i l)
      | kObject ms => kObject (alter (prod_map id (modify f loc')) i ms)
      | _ => v
      end
  end.

(** *** JSON Pointer ([rapidjson::Pointer]) *)

Definition kPointerInvalidIndex : Z := 2 ^ 32 - 1.

Definition add_char (c : ascii) (ts : list string) : list string :=
  match ts with
  | [] => [String c EmptyString]
  | t :: ts' => String c t :: ts'
  end.

(** The text after a ['/']: names are separated by ['/'], ["~0"] stands
    for ['~'] and ["~1"] for ['/']; any other use of ['~'] is a parse
    error. *)
Fixpoint parse_names (s : string) : option (list string) :=
  match s with
  | EmptyString => Some [EmptyString]
  | String c r =>
      if code c =? 47 (* '/' *) then cons EmptyString <$> parse_names r
      else if code c =? 126 (* '~' *) then
        match r with
        | String e r' =>
            if code e =? 48 (* '0' *) then add_char "~"%char <$> parse_names r'
            else if code e =? 49 (* '1' *) then add_char "/"%char <$> parse_names r'
            else None
        | EmptyString => None
        end
      else add_char c <$> parse_names r
  end.

(** [Pointer] built from a C string: the empty string is the pointer to the root;
    otherwise every token begins with ['/']. [None] is an invalid pointer. *)
Definition Parse (source : string) : option (list string) :=
  match c_str source with
  | EmptyString => Some []
  | String c r => if code c =? 47 then parse_names r else None
  end.

Definition is_digit (c : ascii) : bool := (48 <=? code c) && (code c <=? 57).

Fixpoint all_digits (s : string) : bool :=
  match s with
  | EmptyString => true
  | String c r => is_digit c && all_digits r
  end.

(** The [SizeType] (32-bit unsigned) conversion loop with its overflow
    test [m < n]. *)
Fixpoint digits_value (n : Z) (s : string) : option Z :=
  match s with
  | EmptyString => Some n
  | String c r =>
      let m := (n * 10 + (code c - 48)) mod 2 ^ 32 in
      if m <? n then None else digits_value m r
  end.

(** The [index] field of a token: the number the name spells, or
    [kPointerInvalidIndex] when the name is not an array index. *)
Definition token_index (name : string) : Z :=
  let isNumber :=
    all_digits name && negb (String.length name =? 0)%nat
    && negb ((1 <? String.length name)%nat
             && match name with String c _ => code c =? 48 | _ => false end) in
  if isNumber then
    match digits_value 0 name with
    | Some n => n
    | None => kPointerInvalidIndex
    end
  else kPointerInvalidIndex.

(** [FindMember]: the position of the first member with that name. *)
Fixpoint find_member (name : string) (ms : list Member) : option nat :=
  match ms with
  | [] => None
  | m :: ms' =>
      if String.eqb (fst m) name then Some O
      else S <$> find_member name ms'
  end.

(** [Pointer::Create] followed by the assignment of [new]: walks the
    tokens from [v], turning a value of the wrong kind into an empty
    object or array and adding the members and elements that are missing. *)
Fixpoint Create (tokens : list string) (new : Value) (v : Value) : Value :=
  match tokens with
  | [] => new
  | t :: ts =>
      match v with
      | kArray l =>
          if String.eqb t "-" then kArray (l ++ [Create ts new kNull])%list
          else if token_index t =? kPointerInvalidIndex
          then kObject [(t, Create ts new kNull)]
          else
            let i := Z.to_nat (token_index t) in
            let l' := (l ++ replicate (S i - length l) kNull)%list in
            kArray (alter (Create ts new) i l')
      | _ =>
          let ms :=
            match v with
            | kObject ms => Some ms
            | _ => if token_index t =? kPointerInvalidIndex then Some [] else None
            end in
          match ms with
          | Some ms =>
              match find_member t ms with
              | Some i => kObject (alter (prod_map id (Create ts new)) i ms)
              | None => kObject (ms ++ [(t, Create ts new kNull)])%list
              end
          | None =>
              let i := Z.to_nat (token_index t) in
              kArray (alter (Create ts new) i (replicate (S i) kNull))
          end
      end
  end.

(** A name that a path can carry unchanged: no NUL, no ['/'], no ['~']. *)
Fixpoint plain_name (s : string) : bool :=
  match s with
  | EmptyString => true
  | String c r =>
      negb (code c =? 0) && negb (code c =? 47) && negb (code c =? 126)
      && plain_name r
  end.

(** The tokens lead to the position: at an array a token is the index of
    the element, at an object it is the name of the member, the first so
    named. *)
Fixpoint resolves (tokens : list string) (loc : Loc) (v : Value) : Prop :=
  match tokens, loc with
  | [], [] => True
  | t :: ts, i :: loc' =>
      match v with
      | kArray l =>
          String.eqb t "-" = false /\ token_index t = Z.of_nat i /\
          Z.of_nat i <> kPointerInvalidIndex /\
          exists c, l !! i = Some c /\ resolves ts loc' c
      | kObject ms =>
          find_member t ms = Some i /\
          exists m, ms !! i = Some m /\ resolves ts loc' (snd m)
      | _ => False
      end
  | _, _ => False
  end.

End Json.

(** ** Outcomes of the C++ code *)

Module Outcome.

(** A call either returns, or stops in a failed [RAPIDJSON_ASSERT] or in
    undefined behaviour ([Fault]); [Timeout] is the model running out of
    fuel and has no counterpart in the program. *)
Inductive Result (A : Type) : Type :=
| Ok (a : A)
| Fault
| Timeout.

Arguments Ok {A} a.
Arguments Fault {A}.
Arguments Timeout {A}.

#[global] Instance Result_ret : MRet Result := fun _ a => Ok a.
#[global] Instance Result_bind : MBind Result := fun _ _ f m =>
  match m with
  | Ok a => f a
  | Fault => Fault
  | Timeout => Timeout
  end.

(** A [for] loop whose condition is evaluated again before every round:
    [continue x st] is the loop test at round [x], [visit x st] the body. *)
Fixpoint iterate {St : Type} (continue : nat -> St -> Result bool)
    (visit : nat -> St -> Result St) (fuel : nat) (x : nat) (st : St)
  : Result St :=
  match fuel with
  | O => Timeout
  | S fuel' =>
      c ← continue x st;
      if c : bool then st' ← visit x st; iterate continue visit fuel' (S x) st'
      else Ok st
  end.

End Outcome.

(** ** stage_json.cpp: statistics, anonymization and canonical order *)

(** The counters of [struct Counts] that [processJSONRecord] increments. *)
Module Counts.
Record t := mk {
  null : nat;
  boolean : nat;
  number : nat;
  integer : nat;
  floating : nat;
  string : nat;
  uuid : nat;
  dateTime : nat
}.
Definition zero : t := mk 0 0 0 0 0 0 0 0.
End Counts.

(** The helpers of other translation units that the staging code calls. *)
Class Anonymize := {
  (** [possiblePersonalData], of [anonymize.h] *)
  possiblePersonalData : string -> bool
}.

Class Util := {
  (** [isUUID], of [util.h] *)
  isUUID : string -> bool
}.

Module Stage.

Import CStr Json Outcome.
Local Open Scope string_scope.
Local Open Scope Z_scope.

(** *** [NameComparator] and [std::sort] *)

Definition NameComparator (lhs rhs : Member) : bool :=
  let s1 := fst lhs in
  let s2 := fst rhs in
  if strcmp s1 "id" =? 0 then true
  else if strcmp s2 "id" =? 0 then false
  else strcmp s1 s2 <? 0.

(** [std::sort] with [NameComparator]. The standard fixes the result of
    [std::sort] up to the order of equivalent elements only, and leaves the
    call undefined when the comparator is no strict weak order, as it is
    here among members named [id]. For members whose names, read as C
    strings, are different there is one sorted arrangement, which every
    sorting algorithm returns. The embedding is insertion sort,
    [insert_member] putting a member in front of the first one it compares
    less than; it stands for the program on members with different names,
    and the properties that depend on the order returned assume them. *)
Fixpoint insert_member (m : Member) (ms : list Member) : list Member :=
  match ms with
  | [] => [m]
  | m' :: ms' =>
      if NameComparator m m' then m :: ms else m' :: insert_member m ms'
  end.

Definition sort_members (ms : list Member) : list Member :=
  foldr insert_member [] ms.

(** [sort(node->MemberBegin(), node->MemberEnd(), NameComparator())] *)
Definition sort_node (v : Value) : Value :=
  match v with
  | kObject ms => kObject (sort_members ms)
  | _ => v
  end.

(** *** [looksLikeDateTime] *)

Inductive Atom := Digit | Char (c : ascii).

Fixpoint match_atoms (p : list Atom) (s : string) : option string :=
  match p with
  | [] => Some s
  | a :: p' =>
      match s with
      | EmptyString => None
      | String c r =>
          let ok := match a with
                    | Digit => is_digit c
                    | Char c' => code c =? code c'
                    end in
          if ok then match_atoms p' r else None
      end
  end.

Definition two_digits : list Atom := [Digit; Digit].

(** The regular expression
    [\d{4}-\d{2}-\d{2}T\d{2}:\d{2}:\d{2}((\.\d{3}\+\d{4})|(Z))],
    matched against the whole string. *)
Definition looksLikeDateTime (str : string) : bool :=
  let head := (two_digits ++ two_digits ++ [Char "-"] ++ two_digits ++ [Char "-"] ++ two_digits ++ [Char "T"]
               ++ two_digits ++ [Char ":"] ++ two_digits ++ [Char ":"] ++ two_digits)%list in
  let zone := ([Char "."; Digit; Digit; Digit; Char "+"] ++ two_digits ++ two_digits)%list in
  match match_atoms head (c_str str) with
  | Some rest =>
      match match_atoms zone rest, match_atoms [Char "Z"] rest with
      | Some EmptyString, _ | _, Some EmptyString => true
      | _, _ => false
      end
  | None => false
  end.

(** *** [processJSONRecord] *)

Abbreviation Stats := (gmap string Counts.t).

(** The entry [stats[path.c_str() + 1]]: the key is the path without its first
    character; a missing entry starts from zero counters. *)
Definition stats_key (path : string) : string :=
  match c_str path with
  | EmptyString => EmptyString
  | String _ r => r
  end.

Definition bump (f : Counts.t -> Counts.t) (path : string) (stats : Stats)
  : Stats :=
  let k := stats_key path in
  <[k := f (default Counts.zero (stats !! k))]> stats.

Definition incr_null (c : Counts.t) : Counts.t :=
  Counts.mk (S (Counts.null c)) (Counts.boolean c) (Counts.number c)
    (Counts.integer c) (Counts.floating c) (Counts.string c) (Counts.uuid c)
    (Counts.dateTime c).
Definition incr_boolean (c : Counts.t) : Counts.t :=
  Counts.mk (Counts.null c) (S (Counts.boolean c)) (Counts.number c)
    (Counts.integer c) (Counts.floating c) (Counts.string c) (Counts.uuid c)
    (Counts.dateTime c).
Definition incr_number (c : Counts.t) : Counts.t :=
  Counts.mk (Counts.null c) (Counts.boolean c) (S (Counts.number c))
    (Counts.integer c) (Counts.floating c) (Counts.string c) (Counts.uuid c)
    (Counts.dateTime c).
Definition incr_integer (c : Counts.t) : Counts.t :=
  Counts.mk (Counts.null c) (Counts.boolean c) (Counts.number c)
    (S (Counts.integer c)) (Counts.floating c) (Counts.string c)
    (Counts.uuid c) (Counts.dateTime c).
Definition incr_floating (c : Counts.t) : Counts.t :=
  Counts.mk (Counts.null c) (Counts.boolean c) (Counts.number c)
    (Counts.integer c) (S (Counts.floating c)) (Counts.string c)
    (Counts.uuid c) (Counts.dateTime c).
Definition incr_string (c : Counts.t) : Counts.t :=
  Counts.mk (Counts.null c) (Counts.boolean c) (Counts.number c)
    (Counts.integer c) (Counts.floating c) (S (Counts.string c))
    (Counts.uuid c) (Counts.dateTime c).
Definition incr_uuid (c : Counts.t) : Counts.t :=
  Counts.mk (Counts.null c) (Counts.boolean c) (Counts.number c)
    (Counts.integer c) (Counts.floating c) (Counts.string c)
    (S (Counts.uuid c)) (Counts.dateTime c).
Definition incr_dateTime (c : Counts.t) : Counts.t :=
  Counts.mk (Counts.null c) (Counts.boolean c) (Counts.number c)
    (Counts.integer c) (Counts.floating c) (Counts.string c) (Counts.uuid c)
    (S (Counts.dateTime c)).

(** [json::Pointer(path.c_str()).Set( *root, value)]; an invalid pointer
    fails the assertion in [Create]. *)
Definition PointerSet (path : string) (new : Value) (root : Value)
  : Result Value :=
  match Parse path with
  | Some tokens => Ok (Create tokens new root)
  | None => Fault
  end.

Section Process.

Context {policy : Anonymize} {util : Util}.

(** [if (anonymizeTable && possiblePersonalData(path.c_str())) Set(...)] *)
Definition anonymize (anonymizeTable : bool) (path : string)
    (neutral : Value) (root : Value) : Result Value :=
  if anonymizeTable && possiblePersonalData (c_str path)
  then PointerSet path neutral root
  else Ok root.

Definition number_stats (path : string) (n : Number) (stats : Stats) : Stats :=
  let stats := bump incr_number path stats in
  if IsInteger n then bump incr_integer path stats
  else bump incr_floating path stats.

Definition string_stats (path : string) (s : string) (stats : Stats) : Stats :=
  let stats := bump incr_string path stats in
  let stats := if isUUID (c_str s) then bump incr_uuid path stats else stats in
  if looksLikeDateTime s then bump incr_dateTime path stats else stats.

(** [processJSONRecord(root, node, collectStats, anonymizeTable, path,
    depth, stats)]. [node] points into [root]; the document and the
    statistics are the state that the call changes. The node is read at
    its position whenever the C++ dereferences the pointer, so a value that
    [Set] replaced is seen as replaced. *)
Fixpoint processJSONRecord (fuel : nat) (node : Loc)
    (collectStats anonymizeTable : bool) (path : string) (depth : nat)
    (st : Value * Stats) : Result (Value * Stats) :=
  match fuel with
  | O => Timeout
  | S fuel' =>
      let '(root, stats) := st in
      let counted := collectStats && (depth =? 1)%nat in
      match at_loc root node with
      | None => Fault
      | Some kNull =>
          Ok (root, if counted then bump incr_null path stats else stats)
      | Some (kBool _) =>
          root ← anonymize anonymizeTable path (kBool false) root;
          Ok (root, if counted then bump incr_boolean path stats else stats)
      | Some (kNumber _) =>
          root ← anonymize anonymizeTable path (kNumber (Integer 0)) root;
          if counted then
            match at_loc root node with
            | Some (kNumber n) => Ok (root, number_stats path n stats)
            | _ => Fault
            end
          else Ok (root, stats)
      | Some (kString _) =>
          root ← anonymize anonymizeTable path (kString "") root;
          if counted then
            match at_loc root node with
            | Some (kString s) => Ok (root, string_stats path s stats)
            | _ => Fault
            end
          else Ok (root, stats)
      | Some (kArray _) =>
          iterate
            (fun x st =>
               match at_loc (fst st) node with
               | Some (kArray l) => Ok (x <? length l)%nat
               | _ => Fault
               end)
            (fun x st =>
               processJSONRecord fuel' (node ++ [x])%list collectStats
                 anonymizeTable (path ++ "/" ++ to_string (Z.of_nat x))
                 (S depth) st)
            fuel' O (root, stats)
      | Some (kObject _) =>
          iterate
            (fun x st =>
               match at_loc (fst st) node with
               | Some (kObject ms) => Ok (x <? length ms)%nat
               | _ => Fault
               end)
            (fun x st =>
               match at_loc (fst st) node ≫= fun v => child_name v x with
               | Some name =>
                   processJSONRecord fuel' (node ++ [x])%list collectStats
                     anonymizeTable (path ++ "/" ++ c_str name) (S depth) st
               | None => Fault
               end)
            fuel' O (modify sort_node node root, stats)
      end
  end.

End Process.

(** *** Table schema (the declarations of [schema.h] that are used) *)

Inductive ColumnType := bigint | boolean | numeric | id | timestamptz | varchar.

Record ColumnSchema := mkColumnSchema {
  columnType : ColumnType;
  columnName : string;
  sourceColumnName : string
}.

Record TableSchema := mkTableSchema {
  tableName : string;
  moduleName : string;
  sourcePath : string;
  columns : list ColumnSchema
}.

Inductive Level := error | warning | detail.

(** *** The services the row encoder and the handler call *)

(** [DBType]: [encodeStringConst(str, &newstr)] stores the SQL string
    constant for [str] in [newstr]. *)
Class DBType := {
  encodeStringConst : string -> string
}.

(** [IDMap]: [makeSK(table, id, &sk)] stores the surrogate key for [id] in
    [sk]; [M] is the state of the mapping. *)
Class IDMap (M : Type) := {
  makeSK : string -> string -> M -> string * M
}.

(** [loadingTableName], of [names.h]. *)
Class Names := {
  loadingTableName : string -> string
}.

(** The rapidjson reader and writers, and [to_string] on a double. *)
Class RapidJSON := {
  ParseInsitu : string -> Value;
  PrettyWriter : Value -> string;
  Writer : Value -> string;
  double_to_string : Number -> string
}.

(** *** Characters that cannot be written inside a literal *)

Definition quote : string := String (ascii_of_nat 34) EmptyString.
Definition newline : string := String (ascii_of_nat 10) EmptyString.

(** *** Reading a [Value] *)

Definition GetString (v : Value) : Result string :=
  match v with kString s => Ok s | _ => Fault end.

Definition GetBool (v : Value) : Result bool :=
  match v with kBool b => Ok b | _ => Fault end.

(** [GetInt] requires a number that fits a 32-bit [int]. *)
Definition GetInt (v : Value) : Result Z :=
  match v with
  | kNumber (Integer z) =>
      if (- 2 ^ 31 <=? z) && (z <? 2 ^ 31) then Ok z else Fault
  | _ => Fault
  end.

Definition GetDouble (v : Value) : Result Number :=
  match v with kNumber n => Ok n | _ => Fault end.

(** [doc.FindMember(name)] on an object. *)
Definition FindMember (name : string) (doc : Value) : Result (option Value) :=
  match doc with
  | kObject ms =>
      Ok (match find_member name ms with
          | Some i => snd <$> ms !! i
          | None => None
          end)
  | _ => Fault
  end.

(** [doc.HasMember(name)] *)
Definition HasMember (name : string) (doc : Value) : Result bool :=
  m ← FindMember name doc; Ok (match m with Some _ => true | None => false end).

(** [doc[name]]: the member must exist. *)
Definition member (name : string) (doc : Value) : Result Value :=
  m ← FindMember name doc;
  match m with Some v => Ok v | None => Fault end.

(** *** [writeTuple] *)

Section Encoder.

Context {M : Type} {dbt : DBType} {ids : IDMap M} {names : Names}
  {json : RapidJSON}.

(** What [writeTuple] writes to: the insert buffer, the record count
    ([size_t]), the log and the identifier map. *)
Record Output := mkOutput {
  insertBuffer : string;
  recordCount : Z;
  log : list (Level * string);
  idmap : M
}.

Definition append (text : string) (o : Output) : Output :=
  mkOutput (insertBuffer o ++ text) (recordCount o) (log o) (idmap o).

Definition write_log (l : Level) (message : string) (o : Output) : Output :=
  mkOutput (insertBuffer o) (recordCount o) (log o ++ [(l, message)])%list
    (idmap o).

(** [idmap->makeSK(table, id, &sk)] *)
Definition lookup_sk (table id : string) (o : Output) : string * Output :=
  let '(sk, m) := makeSK table id (idmap o) in
  (sk, mkOutput (insertBuffer o) (recordCount o) (log o) m).

Definition string_warning (table : TableSchema) (column : ColumnSchema)
    (sk id : string) : string :=
  "String length exceeds database limit:" ++ newline ++
  "    Table: " ++ tableName table ++ newline ++
  "    Column: " ++ columnName column ++ newline ++
  "    SK: " ++ sk ++ newline ++
  "    ID: " ++ id ++ newline ++
  "    Action: Value stored as NULL".

(** The [timestamptz] and [varchar] cases of the switch, which the [id]
    case falls into: the string constant, or NULL and a warning when its
    length reaches 65535. *)
Definition write_string (table : TableSchema) (column : ColumnSchema)
    (sk id : string) (value : string) (o : Output) : Output :=
  let s := encodeStringConst (c_str value) in
  if 65535 <=? strlen s
  then append "NULL" (write_log warning (string_warning table column sk id) o)
  else append s o.

(** One round of the loop over [table.columns]. *)
Definition write_column (table : TableSchema) (doc : Value) (sk id : string)
    (column : ColumnSchema) (o : Output) : Result Output :=
  if String.eqb (columnName column) "id" then Ok o
  else
    let nulls :=
      match columnType column with
      | Stage.id => append "NULL," (append "NULL," o)
      | _ => append "NULL," o
      end in
    let source := c_str (sourceColumnName column) in
    has ← HasMember source doc;
    if negb has then Ok nulls
    else
      jsonValue ← member source doc;
      if IsNull jsonValue then Ok nulls
      else
        o ← match columnType column with
            | bigint =>
                i ← GetInt jsonValue; Ok (append (to_string i) o)
            | boolean =>
                b ← GetBool jsonValue;
                Ok (append (if b : bool then "TRUE" else "FALSE") o)
            | numeric =>
                d ← GetDouble jsonValue; Ok (append (double_to_string d) o)
            | Stage.id =>
                v ← GetString jsonValue;
                let '(s, o) := lookup_sk "" (c_str v) o in
                Ok (write_string table column sk id v (append "," (append s o)))
            | timestamptz | varchar =>
                v ← GetString jsonValue;
                Ok (write_string table column sk id v o)
            end;
        Ok (append "," o).

Fixpoint write_columns (table : TableSchema) (doc : Value) (sk id : string)
    (cols : list ColumnSchema) (o : Output) : Result Output :=
  match cols with
  | [] => Ok o
  | column :: cols' =>
      o ← write_column table doc sk id column o;
      write_columns table doc sk id cols' o
  end.

Definition data_warning (table : TableSchema) (sk id : string) : string :=
  "JSON object size exceeds database limit:" ++ newline ++
  "    Table: " ++ tableName table ++ newline ++
  "    SK: " ++ sk ++ newline ++
  "    ID: " ++ id ++ newline ++
  "    Action: Value of column " ++ quote ++ "data" ++ quote ++ " stored as NULL".

(** The [data] column: the pretty-printed document, then the compact one
    if the first is longer than 65535, then NULL and a warning. *)
Definition write_data (table : TableSchema) (doc : Value) (sk id : string)
    (o : Output) : Output :=
  let data := encodeStringConst (c_str (PrettyWriter doc)) in
  if 65535 <? strlen data then
    let data := encodeStringConst (c_str (Writer doc)) in
    if 65535 <? strlen data
    then append "NULL" (write_log warning (data_warning table sk id) o)
    else append data o
  else append data o.

Definition count_record (o : Output) : Output :=
  mkOutput (insertBuffer o) ((recordCount o + 1) mod 2 ^ 64) (log o) (idmap o).

(** The part of [writeTuple] before the [data] column: the opening of
    the tuple, the surrogate key and the id of the record, and the loop
    over the columns. It yields [sk] and [id] with the output. *)
Definition write_fields (table : TableSchema) (doc : Value) (o : Output)
  : Result (string * string * Output) :=
  let o := if recordCount o >? 0 then append "," o else o in
  let o := append "(" o in
  idv ← member "id" doc;
  id ← GetString idv;
  let id := c_str id in
  let '(sk, o) := lookup_sk (tableName table) id o in
  let o := append "," (append sk o) in
  let o := append "," (append (encodeStringConst id) o) in
  o ← write_columns table doc sk id (columns table) o;
  Ok (sk, id, o).

Definition writeTuple (table : TableSchema) (doc : Value) (o : Output)
  : Result Output :=
  r ← write_fields table doc o;
  let '(sk, ident, o) := r in
  let o := write_data table doc sk ident o in
  Ok (count_record (append ",1)" o)).

End Encoder.

Arguments Output : clear implicits.

(** *** [encodeJSON] *)

Definition hex_digit (n : Z) : ascii :=
  ascii_of_nat (Z.to_nat (if n <? 10 then 48 + n else 55 + n)).

(** [isprint] in the C locale. *)
Definition isprint (c : ascii) : bool := (32 <=? code c) && (code c <=? 126).

Definition backslash : string := "\".

Definition encode_char (c : ascii) : string :=
  if code c =? 34 then backslash ++ quote
  else if code c =? 92 then backslash ++ backslash
  else if code c =? 8 then backslash ++ "b"
  else if code c =? 12 then backslash ++ "f"
  else if code c =? 10 then backslash ++ "n"
  else if code c =? 13 then backslash ++ "r"
  else if code c =? 9 then backslash ++ "t"
  else if isprint c then String c EmptyString
  else backslash ++ "u00" ++
       String (hex_digit (code c / 16))
         (String (hex_digit (code c mod 16)) EmptyString).

Fixpoint encodeJSON (str : string) : string :=
  match str with
  | EmptyString => EmptyString
  | String c r =>
      if code c =? 0 then EmptyString else encode_char c ++ encodeJSON r
  end.

(** *** [JSONHandler] *)

(** The events of the streaming reader. *)
Inductive Event :=
| EvNull
| EvBool (b : bool)
| EvInt (i : Z)
| EvUint (u : Z)
| EvInt64 (i : Z)
| EvUint64 (u : Z)
| EvDouble (d : Number)
| EvString (str : string)
| EvKey (str : string)
| EvStartObject
| EvEndObject
| EvStartArray
| EvEndArray.

Section Handler.

Context {M : Type} {policy : Anonymize} {util : Util} {dbt : DBType}
  {ids : IDMap M} {names : Names} {json : RapidJSON}.

(** The members of [JSONHandler]. [out] groups the insert buffer, the
    record count, the log and the identifier map; [executed] is the list
    of statements handed to [dbc->execDirect], oldest first. *)
Record JSONHandler := mkJSONHandler {
  pass : Z;
  level : Z;
  active : bool;
  record : string;
  tableSchema : TableSchema;
  stats : Stats;
  executed : list string;
  out : Output M
}.

Definition set_level (n : Z) (h : JSONHandler) : JSONHandler :=
  mkJSONHandler (pass h) n (active h) (record h) (tableSchema h) (stats h)
    (executed h) (out h).

Definition set_active (b : bool) (h : JSONHandler) : JSONHandler :=
  mkJSONHandler (pass h) (level h) b (record h) (tableSchema h) (stats h)
    (executed h) (out h).

Definition set_record (r : string) (h : JSONHandler) : JSONHandler :=
  mkJSONHandler (pass h) (level h) (active h) r (tableSchema h) (stats h)
    (executed h) (out h).

Definition set_stats (st : Stats) (h : JSONHandler) : JSONHandler :=
  mkJSONHandler (pass h) (level h) (active h) (record h) (tableSchema h) st
    (executed h) (out h).

Definition set_out (o : Output M) (h : JSONHandler) : JSONHandler :=
  mkJSONHandler (pass h) (level h) (active h) (record h) (tableSchema h)
    (stats h) (executed h) o.

Definition set_insertBuffer (b : string) (h : JSONHandler) : JSONHandler :=
  set_out (mkOutput b (recordCount (out h)) (log (out h)) (idmap (out h))) h.

Definition set_recordCount (n : Z) (h : JSONHandler) : JSONHandler :=
  set_out (mkOutput (insertBuffer (out h)) n (log (out h)) (idmap (out h))) h.

Definition execDirect (sql : string) (h : JSONHandler) : JSONHandler :=
  mkJSONHandler (pass h) (level h) (active h) (record h) (tableSchema h)
    (stats h) (executed h ++ [sql])%list (out h).

(** The constructor: [level = 0], [active = false], [recordCount = 0],
    empty [record] and [insertBuffer]. *)
Definition new_handler (pass : Z) (table : TableSchema) (statistics : Stats)
    (lg : list (Level * string)) (ids : M) : JSONHandler :=
  mkJSONHandler pass 0 false "" table statistics []
    (mkOutput "" 0 lg ids).

Definition insert_header (table : string) : string :=
  "INSERT INTO " ++ loadingTableName table ++ " VALUES ".

Definition beginInserts (h : JSONHandler) : JSONHandler :=
  set_insertBuffer (insert_header (tableName (tableSchema h))) h.

Definition endInserts (h : JSONHandler) : JSONHandler :=
  let h := set_insertBuffer (insertBuffer (out h) ++ ";" ++ newline) h in
  let h := set_out (write_log detail
             ("Loading data for table: " ++ tableName (tableSchema h)) (out h)) h in
  let h := execDirect (insertBuffer (out h)) h in
  set_insertBuffer "" h.

Definition StartObject (h : JSONHandler) : JSONHandler :=
  let h := if level h =? 2 then set_record "{" h
           else if level h >? 2 then set_record (record h ++ "{") h
           else h in
  set_level (level h + 1) h.

(** [bool collectStats = (pass == 1)] *)
Definition collectStats_of (pass : Z) : bool := pass =? 1.

(** [anonymizeTable]: false in pass 1, otherwise whether the table is
    named [user_users]. *)
Definition anonymizeTable_of (pass : Z) (table : TableSchema) : bool :=
  if pass =? 1 then false
  else strcmp (c_str (tableName table)) "user_users" =? 0.

(** The test on the size of the insert buffer that precedes [writeTuple]. *)
Definition flush_if_full (h : JSONHandler) : JSONHandler :=
  if strlen (insertBuffer (out h)) >? 10000000
  then set_recordCount 0 (beginInserts (endInserts h))
  else h.

Definition EndObject (fuel : nat) (h : JSONHandler) : Result JSONHandler :=
  h ← (if level h =? 3 then
         let h := set_record (record h ++ "}") h in
         let doc := ParseInsitu (c_str (record h)) in
         r ← processJSONRecord fuel [] (collectStats_of (pass h))
               (anonymizeTable_of (pass h) (tableSchema h)) "" 0
               (doc, stats h);
         let h := set_stats (snd r) h in
         if pass h =? 2 then
           let h := flush_if_full h in
           o ← writeTuple (tableSchema h) (fst r) (out h);
           Ok (set_out o h)
         else Ok h
       else if level h >? 3 then Ok (set_record (record h ++ "},") h)
       else Ok h);
  Ok (set_level (level h - 1) h).

Definition StartArray (h : JSONHandler) : JSONHandler :=
  let h := if level h =? 1 then
             let h := set_active true h in
             if pass h =? 2 then beginInserts h else h
           else if level h >? 1 then set_record (record h ++ "[") h
           else h in
  set_level (level h + 1) h.

Definition EndArray (h : JSONHandler) : JSONHandler :=
  let h := if level h =? 2 then
             let h := set_active false h in
             if recordCount (out h) >? 0 then
               if pass h =? 2 then endInserts h else h
             else h
           else if level h >? 2 then set_record (record h ++ "],") h
           else h in
  set_level (level h - 1) h.

Definition Key (str : string) (h : JSONHandler) : JSONHandler :=
  set_record (record h ++ quote ++ c_str str ++ quote ++ ":") h.

(** The scalar callbacks append [text] and a comma while a record is being
    collected. *)
Definition scalar (text : string) (h : JSONHandler) : JSONHandler :=
  if active h && (level h >? 2) then set_record (record h ++ text ++ ",") h
  else h.

Definition handle (fuel : nat) (e : Event) (h : JSONHandler)
  : Result JSONHandler :=
  match e with
  | EvNull => Ok (scalar "null" h)
  | EvBool b => Ok (scalar (if b then "true" else "false") h)
  | EvInt i | EvUint i | EvInt64 i | EvUint64 i => Ok (scalar (to_string i) h)
  | EvDouble d => Ok (scalar (double_to_string d) h)
  | EvString str => Ok (scalar (quote ++ encodeJSON str ++ quote) h)
  | EvKey str => Ok (Key str h)
  | EvStartObject => Ok (StartObject h)
  | EvEndObject => EndObject fuel h
  | EvStartArray => Ok (StartArray h)
  | EvEndArray => Ok (EndArray h)
  end.

(** [reader.Parse(is, handler)]: the reader calls the handler once for
    every event of the page. *)
Fixpoint run (fuel : nat) (events : list Event) (h : JSONHandler)
  : Result JSONHandler :=
  match events with
  | [] => Ok h
  | e :: events' => h ← handle fuel e h; run fuel events' h
  end.

End Handler.

Arguments JSONHandler : clear implicits.

End Stage.

(** ** The passes of [stageTable] and a recording identifier map *)

Module Driver.

Import CStr Json Outcome Stage.

(** [for (int pass = 1; pass <= 2; pass++)] *)
Definition passes : list Z := [1; 2].

(** An identifier map that also keeps the (table, id) pairs it was asked
    for, oldest first. *)
Definition recording {M : Type} (I : IDMap M)
  : IDMap (list (string * string) * M) :=
  {| makeSK table id st :=
       let '(sk, m) := @makeSK M I table id (snd st) in
       (sk, ((fst st ++ [(table, id)])%list, m)) |}.

(** The lookup [write_column] makes for a column: none for the column
    named [id], for a column of another type, or when the source member is
    absent, null or not a string. *)
Definition reference_lookup (doc : Value) (column : ColumnSchema)
  : list (string * string) :=
  if String.eqb (columnName column) "id" then []
  else
    match columnType column,
          FindMember (c_str (sourceColumnName column)) doc with
    | Stage.id, Ok (Some (kString v)) => [(EmptyString, c_str v)]
    | _, _ => []
    end.

Local Open Scope string_scope.
Local Open Scope Z_scope.

(** *** The canonical order of members *)

(** A member named [id], the name read as a C string. *)
Definition is_id (m : Member) : Prop := strcmp (fst m) "id" = 0.

(** Byte-wise lexicographic order of the names. *)
Definition name_le (m1 m2 : Member) : Prop := strcmp (fst m1) (fst m2) <= 0.

(** Members named [id] first, the others after them in lexicographic
    order. *)
Definition canonical (ms : list Member) : Prop :=
  exists ids others,
    ms = (ids ++ others)%list /\ Forall is_id ids /\
    Forall (fun m => ~ is_id m) others /\ StronglySorted name_le others.

(** *** The document after [processJSONRecord] without anonymization *)

(** Every object sorted, at every depth. *)
Fixpoint canon (v : Value) : Value :=
  match v with
  | kArray l => kArray (canon <$> l)
  | kObject ms =>
      kObject (sort_members ((fun m => let '(n, x) := m in (n, canon x)) <$> ms))
  | _ => v
  end.

(** Fuel that suffices to process a value. *)
Fixpoint weight (v : Value) : nat :=
  match v with
  | kArray l => S (S (length l + list_sum (weight <$> l)))
  | kObject ms =>
      S (S (length ms + list_sum ((fun m => let '(_, x) := m in weight x) <$> ms)))
  | _ => 1
  end.


Definition canon_member (m : Member) : Member := (fst m, canon (snd m)).


(** The same document up to the order of the members of its objects. *)
#[warnings="-register-all"]
Inductive reordered : Value -> Value -> Prop :=
| reordered_null : reordered kNull kNull
| reordered_bool b : reordered (kBool b) (kBool b)
| reordered_number n : reordered (kNumber n) (kNumber n)
| reordered_string s : reordered (kString s) (kString s)
| reordered_array l l' :
    Forall2 reordered l l' -> reordered (kArray l) (kArray l')
| reordered_object ms ms' ms'' :
    Permutation ms ms' ->
    Forall2 (fun m m' => fst m = fst m' /\ reordered (snd m) (snd m')) ms' ms'' ->
    reordered (kObject ms) (kObject ms'').

(** *** The document after [processJSONRecord] with anonymization *)

(** The neutral value of the kind of [v]. *)
Definition neutral (v : Value) : Value :=
  match v with
  | kBool _ => kBool false
  | kNumber _ => kNumber (Integer 0)
  | kString _ => kString ""
  | _ => v
  end.


(** The record with the scalars at flagged paths replaced, nothing else
    changed: the paths are those [processJSONRecord] builds. *)
Section Mask.
Context {policy : Anonymize}.

Fixpoint mask (path : string) (v : Value) : Value :=
  match v with
  | kNull => kNull
  | kArray l =>
      kArray ((fix elements (x : nat) (l : list Value) : list Value :=
                 match l with
                 | [] => []
                 | e :: l' =>
                     mask (path ++ "/" ++ to_string (Z.of_nat x)) e
                     :: elements (S x) l'
                 end) O l)
  | kObject ms =>
      kObject ((fun m => let '(n, e) := m in
                         (n, mask (path ++ "/" ++ c_str n) e)) <$> ms)
  | _ => if possiblePersonalData (c_str path) then neutral v else v
  end.
Definition mask_element (path : string) (x : nat) (e : Value) : Value :=
  mask (path ++ "/" ++ to_string (Z.of_nat x)) e.

Definition mask_member (path : string) (m : Member) : Member :=
  (fst m, mask (path ++ "/" ++ c_str (fst m)) (snd m)).

End Mask.


(** Records on which a path addresses the value it was built for: member
    names are plain and distinct within an object, and an array is short
    enough for its indexes to be pointer indexes. *)
Fixpoint pointer_safe (v : Value) : Prop :=
  match v with
  | kArray l =>
      Z.of_nat (length l) <= kPointerInvalidIndex /\
      foldr (fun e acc => pointer_safe e /\ acc) True l
  | kObject ms =>
      NoDup (fst <$> ms) /\
      foldr (fun m acc =>
               (let '(n, e) := m in plain_name n = true /\ pointer_safe e) /\ acc)
        True ms
  | _ => True
  end.

(** The list in which the elements before position [x] have been replaced. *)
Definition upto {A} (x : nat) (g : nat -> A -> A) (l : list A) : list A :=
  imap (fun i e => if decide (i < x)%nat then g i e else e) l.


(** The same document up to the contents of its scalars, kind for kind. *)
#[warnings="-register-all"]
Inductive same_shape : Value -> Value -> Prop :=
| shape_null : same_shape kNull kNull
| shape_bool b b' : same_shape (kBool b) (kBool b')
| shape_number n n' : same_shape (kNumber n) (kNumber n')
| shape_string s s' : same_shape (kString s) (kString s')
| shape_array l l' :
    Forall2 same_shape l l' -> same_shape (kArray l) (kArray l')
| shape_object ms ms' :
    Forall2 (fun m m' => fst m = fst m' /\ same_shape (snd m) (snd m')) ms ms' ->
    same_shape (kObject ms) (kObject ms').


(** *** The tuples of the insert buffer *)

Section Pending.
Context {M : Type} {policy : Anonymize} {util : Util} {dbt : DBType}
  {ids : IDMap M} {names : Names} {json : RapidJSON}.




Fixpoint concat_texts (ts : list string) : string :=
  match ts with
  | [] => EmptyString
  | t :: ts' => t ++ concat_texts ts'
  end.


End Pending.

End Driver.

(** ** Notions for the properties of the merge *)

Module MergeNotions.

Import Merge.

(** No row of the table is a later version of the row, that is, has the
    same (tenant_id, id) and a greater [updated]. *)
Definition latest_in (hist : list HistoryRow) (h : HistoryRow) : Prop :=
  Forall (fun h2 => ~ (key_h h2 = key_h h /\ h_updated h < h_updated h2)) hist.

#[global] Instance latest_in_dec hist h : Decision (latest_in hist h).
Proof. unfold latest_in. apply _. Defined.

(** The snapshot row holds the id, the data and the tenant of the history
    row. *)
Definition snapshot_of (l : LatestRow) (h : HistoryRow) : Prop :=
  l_id l = h_id h /\ l_data l = h_data h /\ l_tenant_id l = h_tenant_id h.

(** The staged row has data, and its key has no snapshot row or has a
    snapshot row with other data. *)
Definition to_append (snapshot : list LatestRow) (s : StagedRow) : Prop :=
  is_Some (s_data s) /\
  (Forall (fun l => key_l l <> key_s s) snapshot \/
   Exists (fun l => key_l l = key_s s /\ Some (l_data l) <> s_data s) snapshot).

#[global] Instance to_append_dec snapshot s : Decision (to_append snapshot s).
Proof. unfold to_append. apply _. Defined.

(** The history row holds the id, the data and the tenant of the staged
    row, and the timestamp. *)
Definition appended_from (now : Z) (r : HistoryRow) (s : StagedRow) : Prop :=
  h_id r = s_id s /\ Some (h_data r) = s_data s /\ h_updated r = now /\
  h_tenant_id r = s_tenant_id s.

(** No two rows of the history table have the same (tenant_id, id) and the
    same [updated]. *)
Definition versioned (hist : list HistoryRow) : Prop :=
  List.NoDup (map (fun h => (key_h h, h_updated h)) hist).

End MergeNotions.

(** ** Notions for the properties of the traversal, the texts and the handler *)

Module Notions.

Import CStr Json Outcome Stage Driver.
Local Open Scope string_scope.
Local Open Scope Z_scope.

(** *** Texts *)

(** [n] decimal digits. *)
Definition digits (n : nat) (s : string) : Prop :=
  String.length s = n /\ all_digits s = true.

Definition is_hex (c : ascii) : bool :=
  is_digit c || ((65 <=? code c) && (code c <=? 70))
  || ((97 <=? code c) && (code c <=? 102)).

(** The characters between the quotes of a JSON string (RFC 8259, section
    7), byte by byte: a byte from 0x20 on other than the quote and the
    backslash stands for itself; a backslash is followed by a quote, a
    backslash, a slash, one of the letters b, f, n, r, t, or the letter u
    and four hexadecimal digits. *)
Fixpoint json_chars (s : string) : bool :=
  match s with
  | EmptyString => true
  | String c r =>
      if code c =? 92 then
        match r with
        | String e r' =>
            if (code e =? 34) || (code e =? 92) || (code e =? 47)
               || (code e =? 98) || (code e =? 102) || (code e =? 110)
               || (code e =? 114) || (code e =? 116)
            then json_chars r'
            else if code e =? 117 then
              match r' with
              | String h1 (String h2 (String h3 (String h4 r''))) =>
                  is_hex h1 && is_hex h2 && is_hex h3 && is_hex h4
                  && json_chars r''
              | _ => false
              end
            else false
        | EmptyString => false
        end
      else (32 <=? code c) && negb (code c =? 34) && json_chars r
  end.

(** Only characters that [isprint] accepts. *)
Fixpoint printable (s : string) : bool :=
  match s with
  | EmptyString => true
  | String c r => isprint c && printable r
  end.

(** Printable characters other than the quote and the backslash. *)
Fixpoint plain_text (s : string) : bool :=
  match s with
  | EmptyString => true
  | String c r =>
      isprint c && negb (code c =? 34) && negb (code c =? 92) && plain_text r
  end.

(** The value of a hexadecimal digit that [hex_digit] wrote. *)
Definition hex_value (c : ascii) : Z :=
  if code c <? 58 then code c - 48 else code c - 55.

(** The character that a text written by [encode_char] begins with, and
    the rest of the text. *)
Definition read_char (s : string) : option (ascii * string) :=
  match s with
  | EmptyString => None
  | String c r =>
      if code c =? 92 then
        match r with
        | String e r' =>
            if code e =? 34 then Some (ascii_of_nat 34, r')
            else if code e =? 92 then Some (ascii_of_nat 92, r')
            else if code e =? 98 then Some (ascii_of_nat 8, r')
            else if code e =? 102 then Some (ascii_of_nat 12, r')
            else if code e =? 110 then Some (ascii_of_nat 10, r')
            else if code e =? 114 then Some (ascii_of_nat 13, r')
            else if code e =? 116 then Some (ascii_of_nat 9, r')
            else
              match r' with
              | String _ (String _ (String h (String l r''))) =>
                  Some (ascii_of_nat
                          (Z.to_nat (16 * hex_value h + hex_value l)), r'')
              | _ => None
              end
        | EmptyString => None
        end
      else Some (c, r)
  end.

(** *** Members and their order *)

(** The name of a member as [strcmp] reads it. *)
Definition c_name (m : Member) : string := c_str (fst m).

(** Objects whose members have different names, at every depth. *)
Fixpoint distinct_names (v : Value) : Prop :=
  match v with
  | kArray l => foldr (fun e acc => distinct_names e /\ acc) True l
  | kObject ms =>
      NoDup (c_name <$> ms) /\
      foldr (fun m acc => (let '(_, e) := m in distinct_names e) /\ acc) True ms
  | _ => True
  end.

(** [m1] may stand before [m2] in the canonical order. *)
Definition before (m1 m2 : Member) : Prop :=
  is_id m1 \/ (~ is_id m2 /\ name_le m1 m2).

(** Members of the same name whose values differ in the order of members
    only. *)
Definition alike (m m' : Member) : Prop :=
  fst m = fst m' /\ reordered (snd m) (snd m').

(** *** Statistics *)

Definition is_scalar (v : Value) : bool := negb (IsArray v || IsObject v).

Definition scalar_field (m : Member) : Prop := is_scalar (snd m) = true.

#[global] Instance scalar_field_dec m : Decision (scalar_field m).
Proof. unfold scalar_field. apply _. Defined.

(** The numbers counted for a field are its integers and its
    floating-point numbers. *)
Definition numbers_add_up (c : Counts.t) : Prop :=
  (Counts.number c = Counts.integer c + Counts.floating c)%nat.

Section Tally.
Context {util : Util}.

(** The counters that a value at [path] adds when it is counted: those of
    its kind for a scalar, none for an array or an object. *)
Definition count_value (path : string) (v : Value) (stats : Stats) : Stats :=
  match v with
  | kNull => bump incr_null path stats
  | kBool _ => bump incr_boolean path stats
  | kNumber n => number_stats path n stats
  | kString s => string_stats path s stats
  | _ => stats
  end.

Definition count_element (path : string) (stats : Stats) (e : nat * Value)
  : Stats :=
  count_value (path ++ "/" ++ to_string (Z.of_nat (fst e))) (snd e) stats.

Definition count_member (path : string) (stats : Stats) (m : Member) : Stats :=
  count_value (path ++ "/" ++ c_str (fst m)) (snd m) stats.

(** The counters of the children of [v], in the order of the traversal:
    the elements of an array by index, the members of an object in their
    sorted order. *)
Definition count_children (path : string) (v : Value) (stats : Stats) : Stats :=
  match v with
  | kArray l => foldl (count_element path) stats (imap pair l)
  | kObject ms => foldl (count_member path) stats (sort_members ms)
  | _ => stats
  end.

(** The statistics after the traversal of [v] at [depth]: the test
    [collectStats && depth == 1] counts the node at depth 1 and therefore
    the children of the node at depth 0, and nothing deeper. *)
Definition tally (collectStats : bool) (depth : nat) (path : string)
    (v : Value) (stats : Stats) : Stats :=
  if collectStats then
    match depth with
    | O => count_children path v stats
    | S O => count_value path v stats
    | _ => stats
    end
  else stats.

End Tally.

(** *** Events *)

(** The change of the nesting depth that an event makes. *)
Definition nesting (e : Event) : Z :=
  match e with
  | EvStartObject | EvStartArray => 1
  | EvEndObject | EvEndArray => -1
  | _ => 0
  end.

Definition depth_change (events : list Event) : Z :=
  foldr (fun e n => nesting e + n) 0 events.

(** *** Columns *)

(** A value that the accessor for a column of the type can read: [GetInt]
    for [bigint], [GetBool] for [boolean], [GetDouble] for [numeric],
    [GetString] for the others. *)
Definition readable (t : ColumnType) (v : Value) : bool :=
  match t, v with
  | bigint, kNumber (Integer z) => (- 2 ^ 31 <=? z) && (z <? 2 ^ 31)
  | boolean, kBool _ => true
  | numeric, kNumber _ => true
  | (Stage.id | timestamptz | varchar), kString _ => true
  | _, _ => false
  end.

(** The column is the one named [id], or the record has no member for it,
    or a null one, or one that is readable at the type of the column. *)
Definition column_fits (doc : Value) (column : ColumnSchema) : bool :=
  String.eqb (columnName column) "id" ||
  match FindMember (c_str (sourceColumnName column)) doc with
  | Ok None | Ok (Some kNull) => true
  | Ok (Some v) => readable (columnType column) v
  | _ => false
  end.

(** *** INSERT statements *)

(** The tuples [(b,1)] of the bodies, separated by commas. *)
Fixpoint tuples (bodies : list string) : string :=
  match bodies with
  | [] => EmptyString
  | [b] => "(" ++ b ++ ",1)"
  | b :: bs => "(" ++ b ++ ",1)," ++ tuples bs
  end.

Section Statements.
Context {M : Type} {policy : Anonymize} {util : Util} {dbt : DBType}
  {ids : IDMap M} {names : Names} {json : RapidJSON}.

(** A text that some call of [writeTuple] for the table writes between
    the opening parenthesis of a tuple and the tenant id that closes it. *)
Definition body_of (table : TableSchema) (b : string) : Prop :=
  exists doc (o o' : Output M),
    writeTuple table doc o = Ok o' /\
    insertBuffer o' =
      insertBuffer o ++ (if recordCount o >? 0 then "," else "")
      ++ "(" ++ b ++ ",1)".

(** A statement that inserts at least one tuple into the loading table. *)
Definition insert_statement (table : TableSchema) (sql : string) : Prop :=
  exists bodies,
    bodies <> [] /\ Forall (body_of table) bodies /\
    sql = insert_header (tableName table) ++ tuples bodies ++ ";" ++ newline.

(** The records of the page lie in its record array: an object that
    closes at level 3 and an array that closes at level 2 do so while the
    handler is active, and the array at level 1 opens with no tuple
    counted. *)
Definition record_event_ok (e : Event) (h : JSONHandler M) : bool :=
  match e with
  | EvStartArray => negb (level h =? 1) || (recordCount (out h) =? 0)
  | EvEndObject => negb (level h =? 3) || active h
  | EvEndArray => negb (level h =? 2) || active h
  | _ => true
  end.

Fixpoint records_in_array (fuel : nat) (events : list Event)
    (h : JSONHandler M) : bool :=
  match events with
  | [] => true
  | e :: events' =>
      record_event_ok e h &&
      match handle fuel e h with
      | Ok h' => records_in_array fuel events' h'
      | _ => true
      end
  end.

(** The insert buffer of an active handler holds the header and the
    tuples counted. *)
Definition collecting (h : JSONHandler M) : Prop :=
  active h = true ->
  exists bodies,
    insertBuffer (out h) =
      insert_header (tableName (tableSchema h)) ++ tuples bodies /\
    recordCount (out h) = Z.of_nat (length bodies) /\
    Forall (body_of (tableSchema h)) bodies.

(** Every statement executed so far inserts tuples into the loading table. *)
Definition well_formed (h : JSONHandler M) : Prop :=
  Forall (insert_statement (tableSchema h)) (executed h).

End Statements.

End Notions.

(** ** stage_json.cpp: the loading table and the two passes of [stageTable] *)

(** The members of [DBType] that [createLoadingTable] calls:
    [redshiftKeys(distkey, sortkey, &sql)] and [jsonType()]. *)
Class Dialect := {
  redshiftKeys : string -> string -> string;
  jsonType : string
}.

(** [ColumnSchema::columnTypeToString], [ColumnSchema::selectColumnType]
    (of [schema.h]) and [decodeCamelCase] (of [camelcase.h]). *)
Class Schema := {
  columnTypeToString : Stage.ColumnType -> string;
  selectColumnType : Counts.t -> Stage.ColumnType;
  decodeCamelCase : string -> string
}.

Module Load.

Import CStr Json Outcome Stage Driver.
Local Open Scope string_scope.
Local Open Scope Z_scope.

(** The options that the staging code reads. *)
Record Options := mkOptions {
  ldpUser : string;
  loadFromDir : string
}.

(** [for (const auto& [field, counts] : stats)]: a [std::map] is visited
    in the order of its keys, which for [std::string] is the
    lexicographic order of the bytes. *)
Definition field_le (a b : string * Counts.t) : Prop :=
  String.leb (fst a) (fst b) = true.

#[global] Instance field_le_dec a b : Decision (field_le a b).
Proof. unfold field_le. apply _. Defined.

Definition fields (stats : Stats) : list (string * Counts.t) :=
  merge_sort field_le (map_to_list stats).

Section Loading.

Context {M : Type} {policy : Anonymize} {util : Util} {dbt : DBType}
  {ids : IDMap M} {names : Names} {json : RapidJSON}
  {dialect : Dialect} {schema : Schema}.

(** What [stageTable] works on: the table schema that it extends, its
    local statistics and identifier map, the log, and the statements
    handed to [dbc->execDirect], oldest first. *)
Record Staging := mkStaging {
  st_table : TableSchema;
  st_stats : Stats;
  st_log : list (Level * string);
  st_executed : list string;
  st_idmap : M
}.

Definition log_line (l : Level) (message : string) (s : Staging) : Staging :=
  mkStaging (st_table s) (st_stats s) (st_log s ++ [(l, message)])%list
    (st_executed s) (st_idmap s).

Definition exec (sql : string) (s : Staging) : Staging :=
  mkStaging (st_table s) (st_stats s) (st_log s) (st_executed s ++ [sql])%list
    (st_idmap s).

Definition push_column (column : ColumnSchema) (s : Staging) : Staging :=
  mkStaging
    (mkTableSchema (tableName (st_table s)) (moduleName (st_table s))
       (sourcePath (st_table s)) (columns (st_table s) ++ [column])%list)
    (st_stats s) (st_log s) (st_executed s) (st_idmap s).

(** *** [createLoadingTable] *)

(** One round of the loop over [table.columns]: nothing for the column
    named [id]; otherwise a line for the surrogate key when the type is
    [id], and the line of the column. *)
Definition declare_column (sql : string) (column : ColumnSchema) : string :=
  if String.eqb (columnName column) "id" then sql
  else
    let sql :=
      match columnType column with
      | Stage.id =>
          sql ++ "    " ++ quote ++ columnName column ++ "_sk" ++ quote
          ++ " BIGINT," ++ newline
      | _ => sql
      end in
    sql ++ "    " ++ quote ++ columnName column ++ quote ++ " "
    ++ columnTypeToString (columnType column) ++ "," ++ newline.

Definition create_table_sql (table : TableSchema) : string :=
  let sql :=
    "CREATE TABLE " ++ loadingTableName (tableName table) ++ " (" ++ newline
    ++ "    sk BIGINT NOT NULL," ++ newline
    ++ "    id VARCHAR(65535) NOT NULL," ++ newline in
  let sql := foldl declare_column sql (columns table) in
  sql ++ "    data " ++ jsonType ++ "," ++ newline
  ++ "    tenant_id SMALLINT NOT NULL," ++ newline
  ++ "    PRIMARY KEY (sk)," ++ newline
  ++ "    UNIQUE (id)" ++ newline
  ++ ")" ++ redshiftKeys "sk" "sk" ++ ";".

Definition comment_sql (table : TableSchema) : string :=
  "COMMENT ON TABLE " ++ loadingTableName (tableName table) ++ newline
  ++ "    IS '" ++ sourcePath table ++ " in " ++ moduleName table ++ ": "
  ++ "https://dev.folio.org/reference/api/#" ++ moduleName table ++ "';".

Definition grant_sql (opt : Options) (table : TableSchema) : string :=
  "GRANT SELECT ON " ++ loadingTableName (tableName table) ++ " TO "
  ++ ldpUser opt ++ ";".

Definition createLoadingTable (opt : Options) (s : Staging) : Staging :=
  let table := st_table s in
  let s := exec (create_table_sql table) (log_line detail (create_table_sql table) s) in
  let s :=
    if String.eqb (moduleName table) "mod-agreements" then s
    else exec (comment_sql table)
           (log_line detail ("Setting comment on table: " ++ tableName table) s) in
  exec (grant_sql opt table) (log_line detail (grant_sql opt table) s).

(** The statements of [createLoadingTable], in the order of execution. *)
Definition loading_table_statements (opt : Options) (table : TableSchema)
  : list string :=
  [create_table_sql table]
  ++ (if String.eqb (moduleName table) "mod-agreements" then []
      else [comment_sql table])
  ++ [grant_sql opt table].

(** *** [readPageCount] *)

(** The count file as the call finds it: absent, without a number that
    [fscanf] can read, or with the number. *)
Inductive CountFile :=
| NoFile
| NoNumber
| Pages (count : nat).

(** The call returns the count, or throws [runtime_error] with a message
    ([inl]); a missing file gives a warning and the count 0. [filename]
    is the path that [join] and the suffix [_count.txt] make. *)
Definition readPageCount (filename : string) (file : CountFile) (s : Staging)
  : string + nat * Staging :=
  match file with
  | NoFile => inr (O, log_line warning ("File not found: " ++ filename) s)
  | NoNumber => inl ("unable to read page count from " ++ filename)
  | Pages count => inr (count, s)
  end.

(** *** [stagePage] and [stageTable] *)

(** [stagePage]: a new handler reads the events of the page; the
    statistics, the log, the identifier map and the connection are those
    of the caller. *)
Definition stagePage (fuel : nat) (pass : Z) (events : list Event)
    (s : Staging) : Result Staging :=
  h ← run fuel events
        (new_handler pass (st_table s) (st_stats s) (st_log s) (st_idmap s));
  Ok (mkStaging (st_table s) (stats h) (log (out h))
        (st_executed s ++ executed h)%list (idmap (out h))).

Definition pass_name (pass : Z) : string :=
  if pass =? 1 then ": analyze" else ": load".

Definition staging_of (pass : Z) (s : Staging) : string :=
  "Staging: " ++ tableName (st_table s) ++ pass_name pass.

(** [for (size_t page = 0; page < pageCount; page++)], from [page] on
    with [remaining] pages to go; [contents page] is what the reader
    finds in the file of the page. *)
Fixpoint stagePages (fuel : nat) (pass : Z) (contents : nat -> list Event)
    (remaining page : nat) (s : Staging) : Result Staging :=
  match remaining with
  | O => Ok s
  | S remaining' =>
      let s := log_line detail (staging_of pass s ++ ": page: "
                            ++ to_string (Z.of_nat page)) s in
      s ← stagePage fuel pass (contents page) s;
      stagePages fuel pass contents remaining' (S page) s
  end.

(** The eight log lines for a field of the statistics. *)
Definition log_counts (s : Staging) (fc : string * Counts.t) : Staging :=
  let '(field, counts) := fc in
  let s := log_line detail ("Stats: in field: " ++ field) s in
  let s := log_line detail ("Stats: string: "
                        ++ to_string (Z.of_nat (Counts.string counts))) s in
  let s := log_line detail ("Stats: datetime: "
                        ++ to_string (Z.of_nat (Counts.dateTime counts))) s in
  let s := log_line detail ("Stats: bool: "
                        ++ to_string (Z.of_nat (Counts.boolean counts))) s in
  let s := log_line detail ("Stats: number: "
                        ++ to_string (Z.of_nat (Counts.number counts))) s in
  let s := log_line detail ("Stats: int: "
                        ++ to_string (Z.of_nat (Counts.integer counts))) s in
  let s := log_line detail ("Stats: float: "
                        ++ to_string (Z.of_nat (Counts.floating counts))) s in
  log_line detail ("Stats: null: " ++ to_string (Z.of_nat (Counts.null counts))) s.

(** The column that a field of the statistics gives. *)
Definition column_of (fc : string * Counts.t) : ColumnSchema :=
  mkColumnSchema (selectColumnType (snd fc)) (decodeCamelCase (c_str (fst fc)))
    (fst fc).

Definition add_column (s : Staging) (fc : string * Counts.t) : Staging :=
  let column := column_of fc in
  push_column column
    (log_line detail ("Column: " ++ columnName column ++ " "
                  ++ columnTypeToString (columnType column)) s).

(** The end of pass 1: the statistics are logged, every field becomes a
    column, and the loading table is created. *)
Definition finish_analysis (opt : Options) (s : Staging) : Staging :=
  let s := foldl log_counts s (fields (st_stats s)) in
  let s := foldl add_column s (fields (st_stats s)) in
  createLoadingTable opt s.

(** One round of [for (int pass = 1; pass <= 2; pass++)]. [test] is the
    content of the test file when it exists. *)
Definition stagePass (fuel : nat) (opt : Options) (contents : nat -> list Event)
    (pageCount : nat) (test : option (list Event)) (pass : Z) (s : Staging)
  : Result Staging :=
  let s := log_line detail (staging_of pass s) s in
  s ← stagePages fuel pass contents pageCount O s;
  s ← (if String.eqb (loadFromDir opt) "" then Ok s
       else match test with
            | Some events =>
                stagePage fuel pass events
                  (log_line detail (staging_of pass s ++ ": test file") s)
            | None => Ok s
            end);
  Ok (if pass =? 1 then finish_analysis opt s else s).

(** [stageTable]: [inl] is the exception of [readPageCount]. The
    statistics start empty; [keys] is the identifier map as its
    constructor leaves it, [done] the statements executed before. *)
Definition stageTable (fuel : nat) (opt : Options) (filename : string)
    (file : CountFile) (contents : nat -> list Event)
    (test : option (list Event)) (table : TableSchema)
    (lg : list (Level * string)) (done : list string) (keys : M)
  : string + Result Staging :=
  match readPageCount filename file (mkStaging table ∅ lg done keys) with
  | inl what => inl what
  | inr (pageCount, s) =>
      let s := log_line detail ("Staging: " ++ tableName table ++ ": page count: "
                            ++ to_string (Z.of_nat pageCount)) s in
      inr (s ← stagePass fuel opt contents pageCount test 1 s;
           stagePass fuel opt contents pageCount test 2 s)
  end.

(** What a pass leaves alone. *)
Definition kept (pass : Z) (s s' : Staging) : Prop :=
  st_table s' = st_table s /\
  (exists more, st_executed s' = st_executed s ++ more)%list /\
  (pass = 1 -> st_executed s' = st_executed s /\ st_idmap s' = st_idmap s) /\
  (pass <> 1 -> st_stats s' = st_stats s).

End Loading.

Arguments Staging : clear implicits.

End Load.

(** ** The values of a tuple and the columns of the loading table *)

Module Tuples.

Import CStr Json Outcome Stage Driver Load.
Local Open Scope string_scope.
Local Open Scope Z_scope.

(** The values, separated by commas. *)
Fixpoint separated (values : list string) : string :=
  match values with
  | [] => EmptyString
  | [v] => v
  | v :: vs => v ++ "," ++ separated vs
  end.

Section Values.
Context {M : Type} {dbt : DBType} {ids : IDMap M} {json : RapidJSON}.

(** The value written for a string: its constant, or NULL when the
    constant is too long. *)
Definition string_value (value : string) : string :=
  let s := encodeStringConst (c_str value) in
  if 65535 <=? strlen s then "NULL" else s.

(** The values that a tuple holds for a column, with the identifier map
    after the lookup that an [id] column makes: none for the column named
    [id]; NULL, twice for an [id] column, when the record has no member
    for the column or a null one; otherwise the value of the member,
    after its surrogate key for an [id] column. *)
Definition column_values (doc : Value) (column : ColumnSchema) (m : M)
  : list string * M :=
  if String.eqb (columnName column) "id" then ([], m)
  else
    let nulls :=
      match columnType column with
      | Stage.id => ["NULL"; "NULL"]
      | _ => ["NULL"]
      end in
    match FindMember (c_str (sourceColumnName column)) doc with
    | Ok (Some kNull) | Ok None => (nulls, m)
    | Ok (Some v) =>
        match columnType column, v with
        | bigint, kNumber (Integer i) => ([to_string i], m)
        | boolean, kBool b => ([if b then "TRUE" else "FALSE"], m)
        | numeric, kNumber d => ([double_to_string d], m)
        | Stage.id, kString s =>
            let '(sk, m') := makeSK "" (c_str s) m in
            ([sk; string_value s], m')
        | (timestamptz | varchar), kString s => ([string_value s], m)
        | _, _ => ([], m)
        end
    | _ => ([], m)
    end.

(** The values of the columns in turn, each lookup starting from the
    identifier map that the one before left. *)
Fixpoint columns_values (doc : Value) (cols : list ColumnSchema) (m : M)
  : list string :=
  match cols with
  | [] => []
  | column :: cols' =>
      let '(vs, m') := column_values doc column m in
      (vs ++ columns_values doc cols' m')%list
  end.

(** The value of the [data] column. *)
Definition data_value (doc : Value) : string :=
  let pretty := encodeStringConst (c_str (PrettyWriter doc)) in
  let compact := encodeStringConst (c_str (Writer doc)) in
  if 65535 <? strlen pretty
  then (if 65535 <? strlen compact then "NULL" else compact)
  else pretty.

(** The values of the tuple of a record: the surrogate key and the id,
    the values of the columns, the data and the tenant id. *)
Definition tuple_values (table : TableSchema) (doc : Value) (m : M)
  : list string :=
  match member "id" doc with
  | Ok (kString ident) =>
      let '(sk, m') := makeSK (tableName table) (c_str ident) m in
      ([sk; encodeStringConst (c_str ident)]
       ++ columns_values doc (columns table) m'
       ++ [data_value doc; "1"])%list
  | _ => []
  end.

End Values.

Section Lines.
Context {names : Names} {dialect : Dialect} {schema : Schema}.

(** The lines of [CREATE TABLE] that declare the columns for a column of
    the schema. *)
Definition declared_lines (column : ColumnSchema) : list string :=
  let sk_line :=
    ("    " ++ quote ++ columnName column ++ "_sk" ++ quote
     ++ " BIGINT," ++ newline)%string in
  let line :=
    ("    " ++ quote ++ columnName column ++ quote ++ " "
     ++ columnTypeToString (columnType column) ++ "," ++ newline)%string in
  if String.eqb (columnName column) "id" then []
  else
    match columnType column with
    | Stage.id => [sk_line; line]
    | _ => [line]
    end.

(** The lines that declare the columns of the loading table. *)
Definition column_lines (table : TableSchema) : list string :=
  [("    sk BIGINT NOT NULL," ++ newline)%string;
   ("    id VARCHAR(65535) NOT NULL," ++ newline)%string]
  ++ flat_map declared_lines (columns table)
  ++ [("    data " ++ jsonType ++ "," ++ newline)%string;
      ("    tenant_id SMALLINT NOT NULL," ++ newline)%string].

End Lines.

(** A value followed by a comma. *)
Definition with_comma (v : string) : string := v ++ ",".

End Tuples.

(** * Example inputs *)

Module MergeExamples.

Import Merge.

(** One history row for key (1, x) written at time 10, and a staged row
    for the same key with other data. *)
Definition tie_db : Database :=
  mkDatabase [mkHistoryRow "x" "A" 10 1]
    [mkStagedRow "x" (Some "B"%string) 1] [].

(** An empty history and two staged rows with the same key and different
    data. *)
Definition twin_db : Database :=
  mkDatabase []
    [mkStagedRow "x" (Some "A"%string) 1; mkStagedRow "x" (Some "B"%string) 1]
    [].

(** Two history rows for key (1, x) written at the same time 10 with
    different data, and a staged row for the key with a third data. *)
Definition tied_db : Database :=
  mkDatabase [mkHistoryRow "x" "A" 10 1; mkHistoryRow "x" "B" 10 1]
    [mkStagedRow "x" (Some "C"%string) 1] [].

End MergeExamples.

Module StageExamples.

Import CStr Json Outcome Stage Driver.
Local Open Scope string_scope.
Local Open Scope Z_scope.

(** A string of [n] letters. *)
Fixpoint fill (n : nat) : string :=
  match n with O => EmptyString | S n' => String "a" (fill n') end.

Definition quoting : DBType := {| encodeStringConst s := "'" ++ s ++ "'" |}.
Definition counter : IDMap nat :=
  {| makeSK _ _ n := (to_string (Z.of_nat n), S n) |}.
Definition loading_prefix : Names :=
  {| loadingTableName t := "loading_" ++ t |}.
Definition fixed_text (pretty compact : string) : RapidJSON :=
  {| ParseInsitu _ := kNull;
     PrettyWriter _ := pretty;
     Writer _ := compact;
     double_to_string _ := "0.000000" |}.

Definition empty_output {M} (m : M) : Output M := mkOutput "" 0 [] m.

Definition notes_table : TableSchema :=
  mkTableSchema "notes" "mod-notes" "/notes"
    [mkColumnSchema varchar "title" "title"; mkColumnSchema Stage.id "user_id" "userId"].
Definition title_column := mkColumnSchema varchar "title" "title".
Definition long_note (n : nat) : Value :=
  kObject [("id", kString "n1"); ("title", kString (fill n))].
Definition note : Value :=
  kObject [("id", kString "n1"); ("title", kString "T"); ("userId", kString "u1")].
Definition users_table : TableSchema := mkTableSchema "user_users" "mod-users" "/users" [].

Definition big_pretty : RapidJSON := fixed_text (fill (Z.to_nat 65534)) "{}".

Definition tuple_of {M} {dbt : DBType} {ids : IDMap M} {json : RapidJSON}
   (table : TableSchema) (doc : Value) (o : Output M) : Output M :=
  match writeTuple table doc o with Ok o' => o' | _ => o end.

Definition nothing_personal : Anonymize := {| possiblePersonalData _ := false |}.
Definition no_uuid : Util := {| isUUID _ := false |}.
Definition reads_note : RapidJSON :=
  {| ParseInsitu _ := note;
     PrettyWriter _ := "{}";
     Writer _ := "{}";
     double_to_string _ := "0.000000" |}.

Definition page_events : list Event :=
  [EvStartObject; EvKey "notes"; EvStartArray;
   EvStartObject; EvKey "id"; EvString "n1"; EvEndObject].




(** A policy that flags the path [/a/b] only, and a record with a member
    named [a/b] next to a member [a] that has a member [b]. *)
Definition flags_a_b : Anonymize :=
  {| possiblePersonalData p := String.eqb p "/a/b" |}.

Definition leaking_record : Value :=
  kObject [("a", kObject [("b", kNumber (Integer 5))]);
           ("a/b", kString "secret")].
End StageExamples.

(** Inputs for the properties of the traversal and of the handler. *)
Module MoreExamples.

Import CStr Json Outcome Stage Driver StageExamples.
Local Open Scope string_scope.
Local Open Scope Z_scope.

(** The same record with its two members in either order. *)
Definition b_then_a : Value :=
  kObject [("b", kNumber (Integer 1)); ("a", kString "x")].
Definition a_then_b : Value :=
  kObject [("a", kString "x"); ("b", kNumber (Integer 1))].

(** A record with a nested object. *)
Definition nested_note : Value :=
  kObject [("title", kString "T");
           ("meta", kObject [("pages", kNumber (Integer 3))]);
           ("id", kString "n1")].

(** A policy that flags the path [/title]. *)
Definition flags_title : Anonymize :=
  {| possiblePersonalData p := String.eqb p "/title" |}.

(** The page of [page_events] with its closing events. *)
Definition whole_page : list Event :=
  page_events ++ [EvEndArray; EvKey "totalRecords"; EvInt 1; EvEndObject].

(** The handler of a pass over [whole_page], before and after. *)
Definition pass_start (pass : Z) : JSONHandler nat :=
  new_handler pass notes_table ∅ [] O.

Definition pass_end (pass : Z) : JSONHandler nat :=
  match run (policy := nothing_personal) (util := no_uuid) (dbt := quoting)
          (ids := counter) (names := loading_prefix) (json := reads_note)
          5 whole_page (pass_start pass) with
  | Ok h => h
  | _ => pass_start pass
  end.

(** [stageTable] on one page: a dialect, a schema that makes every field
    a [varchar] column under its own name, and the options. *)
Definition plain_dialect : Dialect :=
  {| redshiftKeys _ _ := ""; jsonType := "JSON" |}.

Definition text_schema : Schema :=
  {| columnTypeToString _ := "VARCHAR(65535)";
     selectColumnType _ := varchar;
     decodeCamelCase s := s |}.

Definition no_test_dir : Load.Options := Load.mkOptions "ldp" "".

Definition bare_notes : TableSchema :=
  mkTableSchema "notes" "mod-notes" "/notes" [].

Definition no_staging : Load.Staging nat := Load.mkStaging bare_notes ∅ [] [] O.

Definition staged_notes : Load.Staging nat :=
  match Load.stageTable (policy := nothing_personal) (util := no_uuid)
          (dbt := quoting) (ids := counter) (names := loading_prefix)
          (json := reads_note) (dialect := plain_dialect)
          (schema := text_schema)
          9 no_test_dir "notes_count.txt" (Load.Pages 1) (fun _ => whole_page)
          None bare_notes [] [] O with
  | inr (Ok s) => s
  | _ => no_staging
  end.



(** The handler of a pass over [page_events] before the event that closes
    the record. *)
Definition record_open (pass : Z) : JSONHandler nat :=
  match run (policy := nothing_personal) (util := no_uuid) (dbt := quoting)
          (ids := counter) (names := loading_prefix) (json := reads_note)
          5 (removelast page_events) (pass_start pass) with
  | Ok h => h
  | _ => pass_start pass
  end.

End MoreExamples.

(** * Properties *)

(** ** The merge engine *)

Module MergeFacts.

Import Sql Merge MergeExamples.

Lemma holds_newer_version h1 h2 :
  holds (newer_version h1 h2) = true <->
  key_h h2 = key_h h1 /\ h_updated h1 < h_updated h2.
Proof.
  unfold newer_version, key_h, eq3, lt3, and3, holds.
  destruct (bool_decide_reflect (h_tenant_id h1 = h_tenant_id h2)) as [Et|Et],
    (bool_decide_reflect (h_id h1 = h_id h2)) as [Ei|Ei],
    (Z.ltb_spec (h_updated h1) (h_updated h2)) as [Hu|Hu];
    split; try discriminate; try (intros [Hk Hlt]; inversion Hk; congruence || lia);
    intros _; (split; [congruence | lia]).
Qed.

Lemma holds_join_on s l :
  holds (join_on s l) = true <-> key_l l = key_s s.
Proof.
  unfold join_on, key_l, key_s, eq3, and3, holds.
  destruct (bool_decide_reflect (s_tenant_id s = l_tenant_id l)) as [Et|Et],
    (bool_decide_reflect (s_id s = l_id l)) as [Ei|Ei];
    split; try discriminate; try congruence;
    intros Hk; inversion Hk; congruence.
Qed.

Lemma is_latest_spec hist h :
  is_latest hist h = true <->
  ~ exists h2, In h2 hist /\ key_h h2 = key_h h /\ h_updated h < h_updated h2.
Proof.
  unfold is_latest. rewrite negb_true_iff, <- not_true_iff_false, existsb_exists.
  split; intros Hn [h2 [Hin Hh]]; apply Hn; exists h2; split; auto;
    apply holds_newer_version; auto.
Qed.

(** The rows of the snapshot. *)
Lemma in_createLatestHistory db l :
  In l (latest_history (createLatestHistory db)) <->
  exists h, In h (history db) /\ l = select_latest h /\
    ~ exists h2, In h2 (history db) /\ key_h h2 = key_h h /\
                 h_updated h < h_updated h2.
Proof.
  simpl. rewrite in_map_iff. split.
  - intros [h [<- Hf]]. apply filter_In in Hf as [Hin Hl].
    exists h. repeat split; auto. now apply is_latest_spec.
  - intros [h [Hin [-> Hl]]]. exists h. split; auto.
    apply filter_In. split; auto. now apply is_latest_spec.
Qed.

(** The rows of the LEFT JOIN. *)
Lemma in_left_join stage latest s oh :
  In (s, oh) (left_join stage latest) <->
  In s stage /\
  match oh with
  | Some l => In l latest /\ key_l l = key_s s
  | None => forall l, In l latest -> key_l l <> key_s s
  end.
Proof.
  unfold left_join. rewrite in_flat_map. split.
  - intros [s' [Hin Hr]].
    destruct (List.filter _ latest) as [|l0 ls] eqn:Hf.
    + destruct Hr as [Hr|[]]. inversion Hr; subst. split; auto.
      intros l Hl Hk. apply holds_join_on in Hk.
      assert (Hc : In l (List.filter (fun h => holds (join_on s h)) latest))
        by (apply filter_In; auto).
      rewrite Hf in Hc. destruct Hc.
    + rewrite <- Hf in Hr. apply in_map_iff in Hr as [l [Hr Hl]].
      inversion Hr; subst. apply filter_In in Hl as [Hl Hk].
      apply holds_join_on in Hk. auto.
  - intros [Hin Hoh]. exists s. split; auto.
    destruct oh as [l|].
    + destruct Hoh as [Hl Hk].
      assert (Hc : In l (List.filter (fun h => holds (join_on s h)) latest))
        by (apply filter_In; split; auto; now apply holds_join_on).
      destruct (List.filter _ latest) as [|l0 ls] eqn:Hf; [destruct Hc|].
      rewrite <- Hf. apply in_map_iff. exists l. rewrite Hf. auto.
    + destruct (List.filter _ latest) as [|l0 ls] eqn:Hf; [now left|].
      exfalso. assert (Hc : In l0 (List.filter (fun h => holds (join_on s h)) latest))
        by (rewrite Hf; now left).
      apply filter_In in Hc as [Hl Hk]. apply holds_join_on in Hk.
      exact (Hoh l0 Hl Hk).
Qed.

Lemma holds_changed s oh :
  holds (changed (s, oh)) = true <->
  exists d, s_data s = Some d /\
    match oh with
    | Some l => l_data l <> d
    | None => True
    end.
Proof.
  unfold changed, holds, and3, or3, neq3, is_null, is_not_null.
  destruct (s_data s) as [d|], oh as [l|]; simpl;
    try destruct (bool_decide_reflect (d = l_data l)) as [E|E]; simpl;
    split; try discriminate; try (intros [d' [? ?]]; congruence);
    try (intros _; exists d; split; auto; congruence).
Qed.

(** The rows the INSERT statement adds. *)
Lemma in_appended now db r :
  In r (appended now db) <->
  exists s d, In s (loading db) /\ s_data s = Some d /\
    r = mkHistoryRow (s_id s) d now (s_tenant_id s) /\
    ((forall l, In l (latest_history db) -> key_l l <> key_s s) \/
     (exists l, In l (latest_history db) /\ key_l l = key_s s /\ l_data l <> d)).
Proof.
  unfold appended. rewrite in_flat_map. split.
  - intros [[s oh] [Hf Hr]]. apply filter_In in Hf as [Hj Hc].
    apply in_left_join in Hj as [Hs Hoh].
    apply holds_changed in Hc as [d [Hd Hc]].
    unfold select_changed in Hr. simpl in Hr. rewrite Hd in Hr.
    destruct Hr as [<-|[]]. exists s, d. repeat split; auto.
    destruct oh as [l|]; [right; exists l; tauto | left; auto].
  - intros [s [d [Hs [Hd [-> Hcase]]]]].
    destruct Hcase as [Hnone | [l [Hl [Hk Hne]]]].
    + exists (s, None). split.
      * apply filter_In. split; [apply in_left_join; auto|].
        apply holds_changed. eauto.
      * unfold select_changed. simpl. rewrite Hd. now left.
    + exists (s, Some l). split.
      * apply filter_In. split; [apply in_left_join; auto|].
        apply holds_changed. eauto.
      * unfold select_changed. simpl. rewrite Hd. now left.
Qed.

Lemma history_mergeTable now db :
  history (mergeTable now db) =
  (history db ++ appended now (createLatestHistory db))%list.
Proof. reflexivity. Qed.

(** The rows of the snapshot and the rows that [mergeTable] appends, by
    membership. *)
Lemma mergeTable_rows (now : Z) (db : Database) :
  let snapshot := latest_history (createLatestHistory db) in
  (forall l, In l snapshot <->
     exists h, In h (history db) /\ l = select_latest h /\
       ~ exists h2, In h2 (history db) /\ key_h h2 = key_h h /\
                    h_updated h < h_updated h2) /\
  exists new_rows,
    history (mergeTable now db) = (history db ++ new_rows)%list /\
    forall r, In r new_rows <->
      exists s d, In s (loading db) /\ s_data s = Some d /\
        r = mkHistoryRow (s_id s) d now (s_tenant_id s) /\
        ((forall l, In l snapshot -> key_l l <> key_s s) \/
         (exists l, In l snapshot /\ key_l l = key_s s /\ l_data l <> d)).
Proof.
  intros snapshot. split.
  - intros l. apply in_createLatestHistory.
  - exists (appended now (createLatestHistory db)). split.
    + apply history_mergeTable.
    + intros r. apply in_appended.
Qed.

(** C3. The merge only appends: the history table after [mergeTable]
    begins with the history table before it, row for row. *)
Theorem mergeTable_append_only (now : Z) (db : Database) :
  exists new_rows,
    history (mergeTable now db) = (history db ++ new_rows)%list /\
    firstn (length (history db)) (history (mergeTable now db)) = history db.
Proof.
  exists (appended now (createLatestHistory db)).
  rewrite history_mergeTable. split; [reflexivity|].
  rewrite firstn_app, Nat.sub_diag, firstn_all. simpl. apply app_nil_r.
Qed.

Lemma key_select_latest h : key_l (select_latest h) = key_h h.
Proof. reflexivity. Qed.

Lemma latest_key_dec (snap : list LatestRow) (k : Z * string) :
  (exists l, In l snap /\ key_l l = k) \/ (forall l, In l snap -> key_l l <> k).
Proof.
  induction snap as [|l snap IH].
  - right. intros l [].
  - destruct (decide (key_l l = k)) as [E|E].
    + left. exists l. split; [now left|auto].
    + destruct IH as [[l' [Hin Hk]]|IH].
      * left. exists l'. split; [now right|auto].
      * right. intros l' [<-|Hin]; auto.
Qed.

Lemma latest_data_dec (snap : list LatestRow) (k : Z * string) (d : string) :
  (exists l, In l snap /\ key_l l = k /\ l_data l <> d) \/
  (forall l, In l snap -> key_l l = k -> l_data l = d).
Proof.
  induction snap as [|l snap IH].
  - right. intros l [].
  - destruct (decide (key_l l = k)) as [E|E];
      [destruct (decide (l_data l = d)) as [Ed|Ed]|].
    + destruct IH as [[l' [Hin Hk]]|IH].
      * left. exists l'. split; [now right|auto].
      * right. intros l' [<-|Hin]; auto.
    + left. exists l. split; [now left|auto].
    + destruct IH as [[l' [Hin Hk]]|IH].
      * left. exists l'. split; [now right|auto].
      * right. intros l' [<-|Hin]; auto. intros; contradiction.
Qed.

(** C2, as stated, fails. With [tie_db] a first merge at time 10, the time
    of the row already in the history, leaves two latest rows for the key,
    and the second merge appends the staged row again. *)
Lemma remerge_counterexample :
  history (mergeTable 11 (mergeTable 10 tie_db)) =
    (history (mergeTable 10 tie_db) ++ [mkHistoryRow "x" "B" 11 1])%list.
Proof. vm_compute. reflexivity. Qed.

(** Staged rows that share a key and differ in data have the same effect:
    with [twin_db] the first merge appends both rows, and the second merge
    appends both again. *)
Lemma remerge_duplicate_keys :
  history (mergeTable 2 (mergeTable 1 twin_db)) =
    (history (mergeTable 1 twin_db) ++
       [mkHistoryRow "x" "A" 2 1; mkHistoryRow "x" "B" 2 1])%list.
Proof. vm_compute. reflexivity. Qed.

(** C2, amended. When the first merge runs at a time later than every
    [updated] in the history table, and staged rows with the same
    (tenant_id, id) and data that is not NULL carry the same data, a second
    merge over the unchanged loading table appends no row. *)
Theorem remerge_appends_nothing (now1 now2 : Z) (db : Database)
  (Hclock : forall h, In h (history db) -> h_updated h < now1)
  (Hkeys : forall s1 s2 d1 d2, In s1 (loading db) -> In s2 (loading db) ->
     key_s s1 = key_s s2 -> s_data s1 = Some d1 -> s_data s2 = Some d2 ->
     d1 = d2) :
  history (mergeTable now2 (mergeTable now1 db)) = history (mergeTable now1 db).
Proof.
  rewrite (history_mergeTable now2).
  set (db1 := mergeTable now1 db).
  assert (Hnone : forall r, ~ In r (appended now2 (createLatestHistory db1))).
  2:{ destruct (appended now2 (createLatestHistory db1)) as [|r rs];
        [apply app_nil_r | exfalso; apply (Hnone r); now left]. }
  intros r Hr. apply in_appended in Hr as [s [d [Hs [Hd [_ Hcase]]]]].
  change (loading (createLatestHistory db1)) with (loading db) in Hs.
  set (snap1 := latest_history (createLatestHistory db)).
  set (app1 := appended now1 (createLatestHistory db)).
  assert (Hhist1 : forall h, In h (history db1) <-> In h (history db) \/ In h app1).
  { intros h. unfold db1. rewrite history_mergeTable. apply in_app_iff. }
  assert (Happ1 : forall h, In h app1 -> key_h h = key_s s ->
            h_updated h = now1 /\ h_data h = d).
  { intros h Hh Hk. apply in_appended in Hh as [s' [d' [Hs' [Hd' [-> _]]]]].
    split; [reflexivity|]. simpl. symmetry. eapply (Hkeys s s'); eauto. }
  assert (Hnow : forall h, In h app1 -> h_updated h = now1).
  { intros h Hh. apply in_appended in Hh as [s' [d' [_ [_ [-> _]]]]].
    reflexivity. }
  assert (Hsnap2 : forall l, In l (latest_history (createLatestHistory db1)) <->
            exists h, In h (history db1) /\ l = select_latest h /\
              ~ exists h2, In h2 (history db1) /\ key_h h2 = key_h h /\
                           h_updated h < h_updated h2)
    by (intros l; apply in_createLatestHistory).
  assert (Hsnap1 : forall l, In l snap1 <->
            exists h, In h (history db) /\ l = select_latest h /\
              ~ exists h2, In h2 (history db) /\ key_h h2 = key_h h /\
                           h_updated h < h_updated h2)
    by (intros l; apply in_createLatestHistory).
  set (r1 := mkHistoryRow (s_id s) d now1 (s_tenant_id s)).
  assert (Hfirst : In r1 app1 -> False).
  { intros Hr1.
    assert (Hl : In (select_latest r1) (latest_history (createLatestHistory db1))).
    { apply Hsnap2. exists r1. split; [apply Hhist1; now right|].
      split; [reflexivity|]. intros [h2 [Hh2 [_ Hlt]]]. simpl in Hlt.
      apply Hhist1 in Hh2 as [Hh2|Hh2].
      - specialize (Hclock h2 Hh2). lia.
      - specialize (Hnow h2 Hh2). lia. }
    destruct Hcase as [Hno|[l [Hl2 [Hk Hne]]]].
    - exact (Hno _ Hl eq_refl).
    - apply Hsnap2 in Hl2 as [h [Hh [-> Hlatest]]].
      rewrite key_select_latest in Hk.
      apply Hhist1 in Hh as [Hh|Hh].
      + apply Hlatest. exists r1. split; [apply Hhist1; now right|].
        split; [now rewrite Hk|]. simpl. exact (Hclock h Hh).
      + apply Hne. simpl. apply (Happ1 h Hh Hk). }
  destruct (latest_key_dec snap1 (key_s s)) as [[l1 [Hl1 Hk1]]|Hno1];
    [destruct (latest_data_dec snap1 (key_s s) d) as [[l2 [Hl2 [Hk2 Hd2]]]|Hsame]|].
  - apply Hfirst. apply in_appended. exists s, d. repeat split; auto.
    right. exists l2. auto.
  - assert (Hfresh : forall h, In h app1 -> key_h h <> key_s s).
    { intros h Hh Hk. apply in_appended in Hh as [s' [d' [Hs' [Hd' [-> Hc]]]]].
      change (key_s s' = key_s s) in Hk.
      destruct Hc as [Hno|[l [Hl [Hkl Hne]]]].
      - apply (Hno l1 Hl1). congruence.
      - apply Hne. rewrite (Hkeys s' s d' d); auto. apply Hsame; auto. congruence. }
    destruct Hcase as [Hno|[l [Hl2 [Hk Hne]]]].
    + apply (Hno l1); [|exact Hk1].
      apply Hsnap1 in Hl1 as [h1 [Hh1 [-> Hlatest]]].
      apply Hsnap2. exists h1. split; [apply Hhist1; now left|].
      split; [reflexivity|]. intros [h2 [Hh2 [Hk2 Hlt]]].
      apply Hhist1 in Hh2 as [Hh2|Hh2].
      * apply Hlatest. exists h2. auto.
      * apply (Hfresh h2 Hh2). rewrite Hk2. exact Hk1.
    + apply Hne. apply Hsame; [|exact Hk].
      apply Hsnap2 in Hl2 as [h [Hh [-> Hlatest]]].
      apply Hhist1 in Hh as [Hh|Hh]; [|exfalso; exact (Hfresh h Hh Hk)].
      apply Hsnap1. exists h. split; [exact Hh|]. split; [reflexivity|].
      intros [h2 [Hh2 Hrest]]. apply Hlatest. exists h2.
      split; [apply Hhist1; now left|exact Hrest].
  - apply Hfirst. apply in_appended. exists s, d. repeat split; auto.
Qed.

Lemma remerge_appends_nothing_witness :
  (forall h, In h (history tie_db) -> h_updated h < 11) /\
  history (mergeTable 20 (mergeTable 11 tie_db)) =
    history (mergeTable 11 tie_db).
Proof.
  assert (Hclock : forall h, In h (history tie_db) -> h_updated h < 11)
    by (intros h [<-|[]]; simpl; lia).
  split; [exact Hclock|].
  apply (remerge_appends_nothing 11 20 tie_db Hclock).
  intros s1 s2 d1 d2 [<-|[]] [<-|[]] _ E1 E2. simpl in *. congruence.
Defined.

End MergeFacts.

(** ** C strings *)

Module CStrFacts.

Import CStr.
Local Open Scope string_scope.
Local Open Scope Z_scope.

Lemma code_inj c1 c2 : code c1 = code c2 -> c1 = c2.
Proof.
  unfold code. intros E. apply Nat2Z.inj in E.
  rewrite <- (ascii_nat_embedding c1), <- (ascii_nat_embedding c2). now rewrite E.
Qed.

Lemma code_nonneg c : 0 <= code c.
Proof. unfold code. lia. Qed.

Lemma strcmp_eq s1 s2 : strcmp s1 s2 = 0 <-> c_str s1 = c_str s2.
Proof.
  revert s2. induction s1 as [|c1 r1 IH]; intros [|c2 r2]; simpl.
  - tauto.
  - pose proof (code_nonneg c2). destruct (Z.eqb_spec (code c2) 0); split; intros; try lia; try discriminate; auto.
  - pose proof (code_nonneg c1). destruct (Z.eqb_spec (code c1) 0); split; intros; try lia; try discriminate; auto.
  - destruct (Z.eqb_spec (code c1) (code c2)) as [E|E].
    + rewrite <- E. destruct (Z.eqb_spec (code c1) 0) as [E0|E0]; [tauto|].
      apply code_inj in E. subst c2. rewrite IH. split; intros H; [now rewrite H | now inversion H].
    + split; [lia|].
      destruct (Z.eqb_spec (code c1) 0) as [E1|E1], (Z.eqb_spec (code c2) 0) as [E2|E2];
        intros H; try discriminate; try lia. inversion H; subst. contradiction.
Qed.

Lemma c_str_idemp s : c_str (c_str s) = c_str s.
Proof.
  induction s as [|c r IH]; simpl; auto.
  destruct (Z.eqb_spec (code c) 0) as [E|E]; simpl; auto.
  destruct (Z.eqb_spec (code c) 0); [contradiction|]. now rewrite IH.
Qed.

Lemma app_cons c s t : String c s ++ t = String c (s ++ t).
Proof. reflexivity. Qed.

Lemma string_app_assoc (s t u : string) : (s ++ t) ++ u = s ++ (t ++ u).
Proof. induction s as [|c s IH]; [reflexivity|]. rewrite !app_cons. now rewrite IH. Qed.

Lemma string_app_nil_r (s : string) : s ++ "" = s.
Proof. induction s as [|c s IH]; [reflexivity|]. rewrite app_cons. now rewrite IH. Qed.

Lemma strlen_app (s t : string) : strlen (s ++ t) = strlen s + strlen t.
Proof.
  unfold strlen. induction s as [|c s IH]; [reflexivity|].
  rewrite app_cons. simpl String.length. lia.
Qed.

Lemma strlen_nonneg s : 0 <= strlen s.
Proof. unfold strlen. lia. Qed.

Lemma strcmp_antisym s1 s2 : strcmp s2 s1 = - strcmp s1 s2.
Proof.
  revert s2. induction s1 as [|c1 r1 IH]; intros [|c2 r2]; simpl; try lia.
  rewrite (Z.eqb_sym (code c2) (code c1)).
  destruct (Z.eqb_spec (code c1) (code c2)) as [E|E]; [|lia].
  rewrite <- E. destruct (code c1 =? 0); [reflexivity|apply IH].
Qed.

Lemma strcmp_trans s1 s2 s3 :
  strcmp s1 s2 <= 0 -> strcmp s2 s3 <= 0 -> strcmp s1 s3 <= 0.
Proof.
  revert s2 s3. induction s1 as [|c1 r1 IH]; intros [|c2 r2] [|c3 r3]; simpl;
    try pose proof (code_nonneg c1); try pose proof (code_nonneg c2);
    try pose proof (code_nonneg c3);
    repeat match goal with
           | |- context [Z.eqb ?a ?b] => destruct (Z.eqb_spec a b)
           end; try lia; try apply IH.
Qed.

End CStrFacts.

(** ** Positions in a document, and loops *)

Module JsonFacts.

Import Json Outcome.
Local Close Scope Z_scope.

Lemma Value_nested_ind (P : Value -> Prop) :
  P kNull -> (forall b, P (kBool b)) -> (forall n, P (kNumber n)) ->
  (forall s, P (kString s)) ->
  (forall l, Forall P l -> P (kArray l)) ->
  (forall ms, Forall (fun m => P (snd m)) ms -> P (kObject ms)) ->
  forall v, P v.
Proof.
  intros Hnull Hbool Hnum Hstr Harr Hobj.
  fix IH 1. intros [ | b | n | s | l | ms ].
  - exact Hnull.
  - apply Hbool.
  - apply Hnum.
  - apply Hstr.
  - apply Harr. induction l as [|x l IHl]; constructor; [apply IH | exact IHl].
  - apply Hobj. induction ms as [|[n x] ms IHms]; constructor;
      [apply IH | exact IHms].
Qed.

Lemma at_loc_app root node loc :
  at_loc root (node ++ loc) =
  match at_loc root node with Some v => at_loc v loc | None => None end.
Proof.
  revert root. induction node as [|i node IH]; intros root; simpl; [reflexivity|].
  destruct (child root i); auto.
Qed.

Lemma at_loc_modify f node : forall root v,
  at_loc root node = Some v -> at_loc (modify f node root) node = Some (f v).
Proof.
  induction node as [|i node IH]; intros root v; simpl.
  - now intros [= ->].
  - destruct root as [ | | | | l | ms]; simpl; try discriminate.
    + destruct (l !! i) as [c|] eqn:E; [|discriminate]. intros Hc.
      rewrite list_lookup_alter_eq, E. simpl. now apply IH.
    + destruct (ms !! i) as [[n c]|] eqn:E; [|discriminate]. simpl. intros Hc.
      rewrite list_lookup_alter_eq, E. simpl. now apply IH.
Qed.

Lemma modify_app f node loc : forall root,
  modify f (node ++ loc) root = modify (modify f loc) node root.
Proof.
  induction node as [|i node IH]; intros root; simpl; [reflexivity|].
  destruct root; auto; f_equal; apply list_alter_ext; auto.
  intros [n c] _. unfold prod_map. simpl. f_equal. apply IH.
Qed.

Lemma modify_ext f g node : forall root v,
  at_loc root node = Some v -> f v = g v -> modify f node root = modify g node root.
Proof.
  induction node as [|i node IH]; intros root v; simpl.
  - now intros [= ->].
  - destruct root as [ | | | | l | ms]; simpl; try discriminate.
    + destruct (l !! i) as [c|] eqn:E; [|discriminate]. intros Hc Hfg.
      f_equal. apply list_alter_ext; [|reflexivity].
      intros x Hx. rewrite E in Hx. injection Hx as <-. eapply IH; eauto.
    + destruct (ms !! i) as [[n c]|] eqn:E; [|discriminate]. simpl. intros Hc Hfg.
      f_equal. apply list_alter_ext; [|reflexivity].
      intros x Hx. rewrite E in Hx. injection Hx as <-.
      unfold prod_map. simpl. f_equal. eapply IH; eauto.
Qed.

Lemma modify_modify f g node : forall root,
  modify g node (modify f node root) = modify (fun v => g (f v)) node root.
Proof.
  induction node as [|i node IH]; intros root; simpl; [reflexivity|].
  destruct root; simpl; auto; f_equal; rewrite list_alter_alter_eq;
    apply list_alter_ext; auto.
  - intros x _. apply IH.
  - intros [n c] _. unfold prod_map. simpl. f_equal. apply IH.
Qed.

Lemma modify_same node : forall root v,
  at_loc root node = Some v -> modify (fun _ => v) node root = root.
Proof.
  induction node as [|i node IH]; intros root v; simpl.
  - now intros [= ->].
  - destruct root as [ | | | | l | ms]; simpl; try discriminate.
    + destruct (l !! i) as [c|] eqn:E; [|discriminate]. intros Hc. f_equal.
      rewrite <- (list_insert_id l i c E) at 2. rewrite list_insert_alter.
      apply list_alter_ext; [|reflexivity].
      intros x Hx. rewrite E in Hx. injection Hx as <-. eauto.
    + destruct (ms !! i) as [[n c]|] eqn:E; [|discriminate]. simpl. intros Hc. f_equal.
      rewrite <- (list_insert_id ms i (n, c) E) at 2. rewrite list_insert_alter.
      apply list_alter_ext; [|reflexivity].
      intros x Hx. rewrite E in Hx. injection Hx as <-.
      unfold prod_map. simpl. f_equal. eauto.
Qed.

Lemma iterate_for {St : Type} (continue : nat -> St -> Result bool)
    (visit : nat -> St -> Result St) (n : nat) (Inv : nat -> St -> Prop) :
  (forall x st, x <= n -> Inv x st -> continue x st = Ok (x <? n)) ->
  (forall x st, x < n -> Inv x st ->
     exists st', visit x st = Ok st' /\ Inv (S x) st') ->
  forall fuel x st, x <= n -> n - x < fuel -> Inv x st ->
    exists st', iterate continue visit fuel x st = Ok st' /\ Inv n st'.
Proof.
  intros Hc Hv. induction fuel as [|fuel IH]; intros x st Hx Hf Hi; [lia|].
  simpl. rewrite (Hc x st Hx Hi). simpl.
  destruct (Nat.ltb_spec x n) as [Hlt|Hge].
  - destruct (Hv x st Hlt Hi) as [st' [-> Hi']]. simpl.
    apply IH; auto; lia.
  - assert (x = n) by lia. subst. eauto.
Qed.

Lemma step_list {A} (f : A -> A) (l : list A) x a :
  l !! x = Some a ->
  alter (fun _ => f a) x ((f <$> take x l) ++ drop x l) =
  (f <$> take (S x) l) ++ drop (S x) l.
Proof.
  intros Hx.
  assert (Hlen : length (f <$> take x l) = x).
  { rewrite length_fmap, length_take. apply lookup_lt_Some in Hx. lia. }
  rewrite alter_app_r_alt by lia. rewrite Hlen, Nat.sub_diag.
  rewrite (drop_S l a x Hx). simpl.
  rewrite (take_S_r l x a Hx), fmap_app. simpl. now rewrite <- app_assoc.
Qed.

Lemma step_lookup {A} (f : A -> A) (l : list A) x :
  ((f <$> take x l) ++ drop x l) !! x = l !! x.
Proof.
  destruct (decide (x < length l)) as [Hlt|Hge].
  - rewrite lookup_app_r; rewrite length_fmap, length_take; [|lia].
    replace (x - x `min` length l) with 0 by lia.
    rewrite lookup_drop. f_equal. lia.
  - rewrite (lookup_ge_None_2 l x) by lia. apply lookup_ge_None_2.
    rewrite length_app, length_fmap, length_take, length_drop. lia.
Qed.

Lemma step_length {A} (f : A -> A) (l : list A) x :
  length ((f <$> take x l) ++ drop x l) = length l.
Proof. rewrite length_app, length_fmap, length_take, length_drop. lia. Qed.

End JsonFacts.

(** ** JSON Pointer paths *)

Module PointerFacts.

Import CStr Json Outcome CStrFacts JsonFacts.
Import Decimal.
Local Open Scope string_scope.
Local Open Scope Z_scope.

Lemma of_uint_acc_value d : forall p,
  Z.pos (Pos.of_uint_acc d p) = uint_value d (Z.pos p).
Proof.
  induction d; intros p; simpl; try reflexivity; rewrite IHd; f_equal; lia.
Qed.

Lemma of_uint_value d : Z.of_N (Pos.of_uint d) = uint_value d 0.
Proof.
  induction d; simpl; try reflexivity; try exact IHd;
    rewrite of_uint_acc_value; reflexivity.
Qed.

Lemma uint_value_le d : forall acc, 0 <= acc -> acc <= uint_value d acc.
Proof.
  induction d; intros acc Hacc; simpl; try lia;
    (etransitivity; [|apply IHd]; lia).
Qed.

Lemma digits_value_uint d : forall acc,
  0 <= acc -> uint_value d acc < 2 ^ 32 ->
  digits_value acc (NilEmpty.string_of_uint d) = Some (uint_value d acc).
Proof.
  induction d; intros acc Hacc Hlt; simpl in Hlt; simpl; try reflexivity;
    match goal with
    | |- context [code ?c] =>
        let v := eval vm_compute in (code c) in change (code c) with v
    end;
    match goal with
    | |- context [uint_value d ?a] =>
        pose proof (uint_value_le d a ltac:(lia));
        match goal with
        | |- context [?e mod 2 ^ 32] =>
            replace e with a by lia; rewrite (Z.mod_small a) by lia
        end;
        destruct (Z.ltb_spec a acc); [lia|]; apply IHd; lia
    end.
Qed.

Lemma all_digits_uint d : all_digits (NilEmpty.string_of_uint d) = true.
Proof. induction d; simpl; auto. Qed.

Lemma plain_name_uint d : plain_name (NilEmpty.string_of_uint d) = true.
Proof. induction d; simpl; auto. Qed.

Lemma to_uint_no_leading_zero p d : Pos.to_uint p <> D0 d.
Proof.
  intros E.
  pose proof (DecimalPos.Unsigned.to_of (Pos.to_uint p)) as Hn.
  rewrite DecimalPos.Unsigned.of_to in Hn. simpl in Hn.
  rewrite E, DecimalFacts.unorm_D0 in Hn.
  destruct (uint_eq_dec d Nil) as [->|Hd].
  - apply (DecimalPos.Unsigned.to_uint_nonzero p). exact E.
  - pose proof (DecimalFacts.nb_digits_unorm d Hd) as Hle. rewrite <- Hn in Hle.
    simpl in Hle. lia.
Qed.

Lemma to_string_pos p :
  to_string (Z.pos p) = NilEmpty.string_of_uint (Pos.to_uint p).
Proof.
  unfold to_string. simpl. unfold NilZero.string_of_uint.
  destruct (Pos.to_uint p) eqn:E; try reflexivity.
  exfalso. exact (DecimalPos.Unsigned.to_uint_nonnil p E).
Qed.

Lemma token_index_to_string (x : nat) :
  Z.of_nat x < kPointerInvalidIndex ->
  token_index (to_string (Z.of_nat x)) = Z.of_nat x.
Proof.
  intros Hx. destruct (Z.of_nat x) as [|p|p] eqn:E; [reflexivity| |lia].
  rewrite to_string_pos. unfold token_index.
  rewrite all_digits_uint.
  assert (Hv : uint_value (Pos.to_uint p) 0 = Z.pos p).
  { rewrite <- of_uint_value, DecimalPos.Unsigned.of_to. reflexivity. }
  rewrite digits_value_uint by (rewrite ?Hv; unfold kPointerInvalidIndex in Hx; lia).
  rewrite Hv.
  destruct (Pos.to_uint p) as [|d|d|d|d|d|d|d|d|d|d] eqn:Ed;
    [exfalso; exact (DecimalPos.Unsigned.to_uint_nonnil p Ed)
    |exfalso; exact (to_uint_no_leading_zero p d Ed)|..];
    simpl; rewrite andb_false_r; reflexivity.
Qed.

Lemma plain_name_to_string (x : nat) : plain_name (to_string (Z.of_nat x)) = true.
Proof.
  destruct (Z.of_nat x) as [|p|p] eqn:E; [reflexivity| |lia].
  rewrite to_string_pos. apply plain_name_uint.
Qed.

Lemma to_string_not_dash (x : nat) : String.eqb (to_string (Z.of_nat x)) "-" = false.
Proof.
  destruct (Z.of_nat x) as [|p|p] eqn:E; [reflexivity| |lia].
  rewrite to_string_pos.
  destruct (Pos.to_uint p) as [|d|d|d|d|d|d|d|d|d|d]; reflexivity.
Qed.

Lemma plain_name_c_str n : plain_name n = true -> c_str n = n.
Proof.
  induction n as [|c r IH]; simpl; [reflexivity|].
  destruct (code c =? 0); simpl; [discriminate|].
  intros H. apply andb_true_iff in H as [_ H]. now rewrite IH.
Qed.

Lemma c_str_app s t : c_str s = s -> c_str (s ++ t) = s ++ c_str t.
Proof.
  induction s as [|c r IH]; [reflexivity|].
  rewrite app_cons. simpl. destruct (code c =? 0); [discriminate|].
  intros [= E]. now rewrite (IH E).
Qed.

Lemma parse_names_plain n : plain_name n = true -> parse_names n = Some [n].
Proof.
  induction n as [|c r IH]; simpl; [reflexivity|].
  destruct (code c =? 0); simpl; [discriminate|].
  destruct (code c =? 47); simpl; [discriminate|].
  destruct (code c =? 126); simpl; [discriminate|].
  intros H. rewrite (IH H). reflexivity.
Qed.

Lemma parse_names_nonempty s : parse_names s <> Some [].
Proof.
  assert (Hadd : forall c (o : option (list string)), o <> Some [] -> add_char c <$> o <> Some []).
  { intros c [[|t ts]|] Ho; simpl; congruence. }
  assert (Hstep : forall r, (forall c r', r = String c r' -> parse_names r' <> Some []) ->
            parse_names r <> Some [] ->
            forall c, parse_names (String c r) <> Some []).
  { intros r Hsub Hr c. simpl.
    destruct (code c =? 47); [destruct (parse_names r); simpl; congruence|].
    destruct (code c =? 126); [|apply Hadd, Hr].
    destruct r as [|e r']; [congruence|].
    destruct (code e =? 48); [apply Hadd, (Hsub e r' eq_refl)|].
    destruct (code e =? 49); [apply Hadd, (Hsub e r' eq_refl)|congruence]. }
  assert (Hboth : parse_names s <> Some [] /\
                  forall c r', s = String c r' -> parse_names r' <> Some []).
  { induction s as [|c r [IH1 IH2]].
    - split; [simpl; congruence|intros; discriminate].
    - split; [apply Hstep; assumption|]. intros c' r' [= -> ->]. exact IH1. }
  apply Hboth.
Qed.

Lemma add_char_snoc c ts n : ts <> [] -> add_char c (ts ++ [n]) = (add_char c ts ++ [n])%list.
Proof. destruct ts; [congruence|reflexivity]. Qed.

Lemma parse_names_snoc n : plain_name n = true -> forall s ts,
  parse_names s = Some ts -> parse_names (s ++ "/" ++ n) = Some (ts ++ [n])%list.
Proof.
  intros Hn.
  assert (Hadd : forall c r ts, (forall ts', parse_names r = Some ts' ->
                     parse_names (r ++ "/" ++ n) = Some (ts' ++ [n])%list) ->
            add_char c <$> parse_names r = Some ts ->
            add_char c <$> parse_names (r ++ "/" ++ n) = Some (ts ++ [n])%list).
  { intros c r ts IH H. destruct (parse_names r) as [ts'|] eqn:E; [|discriminate].
    rewrite (IH ts' eq_refl). simpl in *. injection H as <-.
    rewrite add_char_snoc; [reflexivity|].
    intros ->. exact (parse_names_nonempty r E). }
  assert (Hboth : forall s,
            (forall ts, parse_names s = Some ts ->
               parse_names (s ++ "/" ++ n) = Some (ts ++ [n])%list) /\
            (forall c r', s = String c r' -> forall ts, parse_names r' = Some ts ->
               parse_names (r' ++ "/" ++ n) = Some (ts ++ [n])%list)).
  { induction s as [|c r [IH1 IH2]].
    - split; [|intros; discriminate]. intros ts [= <-].
      change ("" ++ "/" ++ n) with (String "/" n). simpl.
      now rewrite (parse_names_plain n Hn).
    - split; [|intros c' r' [= -> ->]; exact IH1].
      intros ts. rewrite app_cons. simpl.
      destruct (code c =? 47).
      { destruct (parse_names r) as [ts'|] eqn:E; [|discriminate].
        intros [= <-]. now rewrite (IH1 ts' eq_refl). }
      destruct (code c =? 126); [|apply Hadd; exact IH1].
      destruct r as [|e r']; [discriminate|]. rewrite app_cons.
      destruct (code e =? 48); [apply Hadd; exact (IH2 e r' eq_refl)|].
      destruct (code e =? 49); [apply Hadd; exact (IH2 e r' eq_refl)|discriminate]. }
  intros s. apply Hboth.
Qed.

Lemma Parse_snoc path ts n :
  Parse path = Some ts -> c_str path = path -> plain_name n = true ->
  Parse (path ++ "/" ++ n) = Some (ts ++ [n])%list /\
  c_str (path ++ "/" ++ n) = path ++ "/" ++ n.
Proof.
  intros Hp Hc Hn.
  assert (Hc' : c_str (path ++ "/" ++ n) = path ++ "/" ++ n).
  { rewrite (c_str_app _ _ Hc). f_equal.
    change ("/" ++ n) with (String "/" n). simpl. now rewrite (plain_name_c_str n Hn). }
  split; [|exact Hc']. unfold Parse in *. rewrite Hc'. rewrite Hc in Hp.
  destruct path as [|c r].
  - injection Hp as <-. change ("" ++ "/" ++ n) with (String "/" n). simpl.
    now rewrite (parse_names_plain n Hn).
  - rewrite app_cons. destruct (code c =? 47); [|discriminate].
    now apply parse_names_snoc.
Qed.

Local Close Scope string_scope.

Lemma Create_resolves new : forall tokens loc v,
  resolves tokens loc v -> Create tokens new v = modify (fun _ => new) loc v.
Proof.
  induction tokens as [|t ts IH]; intros [|i loc] v; simpl; try tauto.
  destruct v as [ | | | | l | ms]; try tauto.
  - intros [Hd [Hi [Hinv [c [Hc Hr]]]]]. rewrite Hd.
    destruct (Z.eqb_spec (token_index t) kPointerInvalidIndex) as [E|_]; [congruence|].
    rewrite Hi, Nat2Z.id.
    pose proof (lookup_lt_Some _ _ _ Hc) as Hlt.
    replace (S i - length l)%nat with 0%nat by lia. simpl. rewrite app_nil_r.
    f_equal. apply list_alter_ext; [|reflexivity].
    intros x Hx. rewrite Hc in Hx. injection Hx as <-. now apply IH.
  - intros [Hf [[n c] [Hm Hr]]]. rewrite Hf. f_equal.
    apply list_alter_ext; [|reflexivity].
    intros x Hx. rewrite Hm in Hx. injection Hx as <-.
    unfold prod_map. simpl. f_equal. now apply IH.
Qed.

Lemma find_member_fst t : forall (ms ms' : list Member),
  fst <$> ms = fst <$> ms' -> find_member t ms = find_member t ms'.
Proof.
  induction ms as [|[n c] ms IH]; intros [|[n' c'] ms']; simpl; try discriminate;
    [reflexivity|].
  intros [= -> E]. now rewrite (IH ms' E).
Qed.

Lemma fst_alter (f : Value -> Value) i (ms : list Member) :
  fst <$> alter (prod_map Datatypes.id f) i ms = fst <$> ms.
Proof.
  revert i. induction ms as [|[n c] ms IH]; intros [|i]; csimpl; try reflexivity.
  f_equal. apply IH.
Qed.

Lemma resolves_modify f : forall tokens loc v,
  resolves tokens loc v -> resolves tokens loc (modify f loc v).
Proof.
  induction tokens as [|t ts IH]; intros [|i loc] v; simpl; try tauto.
  destruct v as [ | | | | l | ms]; try tauto.
  - intros [Hd [Hi [Hinv [c [Hc Hr]]]]]. repeat split; auto.
    exists (modify f loc c). rewrite list_lookup_alter_eq, Hc. split; [reflexivity|].
    now apply IH.
  - intros [Hf [[n c] [Hm Hr]]]. split.
    + rewrite <- Hf. apply find_member_fst. apply fst_alter.
    + exists (n, modify f loc c). rewrite list_lookup_alter_eq, Hm.
      split; [reflexivity|]. now apply IH.
Qed.

Lemma resolves_snoc t x : forall tokens loc root v,
  resolves tokens loc root -> at_loc root loc = Some v ->
  resolves [t] [x] v ->
  resolves (tokens ++ [t]) (loc ++ [x]) root.
Proof.
  induction tokens as [|t' ts IH]; intros [|i loc] root v; simpl; try tauto.
  - intros _ [= ->]. auto.
  - destruct root as [ | | | | l | ms]; try tauto.
    + intros [Hd [Hi [Hinv [c [Hc Hr]]]]] Hat Hv.
      change (child (kArray l) i) with (l !! i) in Hat. rewrite Hc in Hat.
      split; [exact Hd|]. split; [exact Hi|]. split; [exact Hinv|].
      exists c. split; [exact Hc|]. exact (IH loc c v Hr Hat Hv).
    + intros [Hf [[n c] [Hm Hr]]] Hat Hv.
      change (child (kObject ms) i) with (snd <$> ms !! i) in Hat.
      rewrite Hm in Hat. simpl in Hat.
      split; [exact Hf|]. exists (n, c). split; [exact Hm|].
      exact (IH loc c v Hr Hat Hv).
Qed.

Lemma find_member_NoDup : forall (ms : list Member) x n c,
  NoDup (fst <$> ms) -> ms !! x = Some (n, c) -> find_member n ms = Some x.
Proof.
  induction ms as [|[n' c'] ms IH]; intros [|x] n c Hnd Hx; simpl in *;
    try discriminate.
  - injection Hx as -> ->. now rewrite String.eqb_refl.
  - apply NoDup_cons in Hnd as [Hnotin Hnd].
    destruct (String.eqb_spec n' n) as [->|_].
    + exfalso. apply Hnotin. apply list_elem_of_fmap. exists (n, c).
      split; [reflexivity|]. eapply list_elem_of_lookup_2; eauto.
    + now rewrite (IH x n c Hnd Hx).
Qed.

End PointerFacts.

(** ** The row encoder and the handler *)

Module StageFacts.

Import CStr Json Outcome Stage Driver StageExamples CStrFacts JsonFacts.
Local Open Scope string_scope.
Local Open Scope Z_scope.

Lemma bind_Ok {A B} (m : Result A) (f : A -> Result B) b :
  m ≫= f = Ok b -> exists a, m = Ok a /\ f a = Ok b.
Proof. destruct m; simpl; try discriminate. eauto. Qed.


Section EncoderFacts.

Context {M : Type} {dbt : DBType} {ids : IDMap M} {names : Names}
  {json : RapidJSON}.

(** C8. After the fields of a tuple, [writeTuple] writes the pretty-printed
    document as a string constant when that is at most 65535 bytes long;
    otherwise the compact document when that is at most 65535 bytes long;
    otherwise NULL, with a warning in the log. *)
Theorem data_column_fallback (table : TableSchema) (doc : Value)
    (o o' : Output M) :
  writeTuple table doc o = Ok o' ->
  exists sk ident o1,
    write_fields table doc o = Ok (sk, ident, o1) /\
    let pretty := encodeStringConst (c_str (PrettyWriter doc)) in
    let compact := encodeStringConst (c_str (Writer doc)) in
    (strlen pretty <= 65535 ->
       insertBuffer o' = (insertBuffer o1 ++ pretty) ++ ",1)" /\
       log o' = log o1) /\
    (65535 < strlen pretty -> strlen compact <= 65535 ->
       insertBuffer o' = (insertBuffer o1 ++ compact) ++ ",1)" /\
       log o' = log o1) /\
    (65535 < strlen pretty -> 65535 < strlen compact ->
       insertBuffer o' = (insertBuffer o1 ++ "NULL") ++ ",1)" /\
       log o' = (log o1 ++ [(warning, data_warning table sk ident)])%list).
Proof.
  unfold writeTuple. intros Hw.
  apply bind_Ok in Hw as [[[sk ident] o1] [Hf Hw]].
  exists sk, ident, o1. split; [exact Hf|].
  injection Hw as <-. unfold write_data.
  destruct (Z.ltb_spec 65535 (strlen (encodeStringConst (c_str (PrettyWriter doc)))));
    [destruct (Z.ltb_spec 65535 (strlen (encodeStringConst (c_str (Writer doc)))))|];
    simpl; repeat split; intros; try lia; reflexivity.
Qed.

(** A varchar or timestamptz column whose member is a string. *)
Lemma write_column_string (table : TableSchema) (doc : Value)
    (sk ident : string) (column : ColumnSchema) (value : string) (o : Output M) :
  columnType column = varchar \/ columnType column = timestamptz ->
  columnName column <> "id" ->
  member (c_str (sourceColumnName column)) doc = Ok (kString value) ->
  write_column table doc sk ident column o =
    Ok (append "," (write_string table column sk ident value o)).
Proof.
  intros Hty Hname Hm. unfold write_column.
  destruct (String.eqb_spec (columnName column) "id") as [E|_]; [contradiction|].
  unfold HasMember, member in *.
  destruct (FindMember (c_str (sourceColumnName column)) doc) as [[v|]| |];
    simpl in Hm; try discriminate.
  injection Hm as ->. simpl. destruct Hty as [-> | ->]; reflexivity.
Qed.

Lemma write_string_null table column sk ident value (o : Output M) :
  65535 <= strlen (encodeStringConst (c_str value)) ->
  write_string table column sk ident value o =
  append "NULL" (write_log warning (string_warning table column sk ident) o).
Proof.
  intros H. unfold write_string.
  destruct (Z.leb_spec 65535 (strlen (encodeStringConst (c_str value))));
    [reflexivity|lia].
Qed.

(** C4, amended. The limit is on the string constant that
    [encodeStringConst] returns for the value, not on the value. For a
    varchar or timestamptz column whose source member is a string: when
    the constant has 65535 bytes or more the column is written as NULL and
    one warning is logged; when it has 65534 bytes or fewer the whole
    constant is written and nothing is logged. In both cases a comma
    follows, and the record count and the identifier map stay as they
    were; the column is never a part of the constant. *)
Theorem string_column_limit (table : TableSchema) (doc : Value)
    (sk ident : string) (column : ColumnSchema) (value : string) (o : Output M) :
  columnType column = varchar \/ columnType column = timestamptz ->
  columnName column <> "id" ->
  member (c_str (sourceColumnName column)) doc = Ok (kString value) ->
  let s := encodeStringConst (c_str value) in
  exists o',
    write_column table doc sk ident column o = Ok o' /\
    recordCount o' = recordCount o /\ idmap o' = idmap o /\
    (65535 <= strlen s ->
       insertBuffer o' = insertBuffer o ++ "NULL," /\
       log o' = (log o ++ [(warning, string_warning table column sk ident)])%list) /\
    (strlen s <= 65534 ->
       insertBuffer o' = insertBuffer o ++ s ++ "," /\ log o' = log o).
Proof.
  intros Hty Hname Hm s.
  rewrite (write_column_string table doc sk ident column value o Hty Hname Hm).
  eexists. split; [reflexivity|]. unfold write_string. fold s.
  destruct (Z.leb_spec 65535 (strlen s)); simpl;
    rewrite ?string_app_assoc; repeat split; intros; try lia; reflexivity.
Qed.

End EncoderFacts.

Section Lookups.

Context {M : Type} (I : IDMap M) {dbt : DBType} {names : Names}
  {json : RapidJSON}.

#[local] Existing Instance recording.

Abbreviation calls o := (fst (idmap o)).

Lemma calls_append text (o : Output (list (string * string) * M)) :
  calls (append text o) = calls o.
Proof. reflexivity. Qed.

Lemma calls_write_string table column sk ident v (o : Output (list (string * string) * M)) :
  calls (write_string table column sk ident v o) = calls o.
Proof. unfold write_string. destruct (65535 <=? _); reflexivity. Qed.

Lemma calls_write_column table doc sk ident column (o o' : Output (list (string * string) * M)) :
  write_column table doc sk ident column o = Ok o' ->
  calls o' = (calls o ++ reference_lookup doc column)%list.
Proof.
  unfold write_column, reference_lookup.
  destruct (String.eqb (columnName column) "id").
  { intros [= <-]. now rewrite app_nil_r. }
  unfold HasMember, member.
  destruct (FindMember (c_str (sourceColumnName column)) doc) as [[v|]| |];
    simpl; try discriminate.
  2:{ intros [= <-]. destruct (columnType column); simpl; now rewrite app_nil_r. }
  destruct v; simpl;
    try (destruct (columnType column); simpl; try discriminate;
         try (destruct n; try destruct (_ && _); simpl; try discriminate);
         intros [= <-]; simpl; rewrite ?calls_write_string; simpl;
         now rewrite ?app_nil_r).
  destruct (columnType column); simpl; try discriminate.
  - unfold lookup_sk. simpl. destruct (makeSK "" (c_str s) (idmap o).2) as [s0 m].
    simpl. intros [= <-]. simpl. rewrite calls_write_string. reflexivity.
  - intros [= <-]. simpl. rewrite calls_write_string. now rewrite app_nil_r.
  - intros [= <-]. simpl. rewrite calls_write_string. now rewrite app_nil_r.
Qed.

Lemma calls_write_columns table doc sk ident cols : forall (o o' : Output (list (string * string) * M)),
  write_columns table doc sk ident cols o = Ok o' ->
  calls o' = (calls o ++ flat_map (reference_lookup doc) cols)%list.
Proof.
  induction cols as [|c cols IH]; simpl; intros o o' Hw.
  - injection Hw as <-. now rewrite app_nil_r.
  - apply bind_Ok in Hw as [o1 [Hc1 Hc2]].
    apply calls_write_column in Hc1. apply IH in Hc2.
    rewrite Hc2, Hc1. now rewrite <- app_assoc.
Qed.

(** C7, amended. The lookups of [writeTuple] are, in order: one for the
    record's own id under the table's name, then one for every id-typed
    column with a string value under the empty table name. *)
Theorem surrogate_key_lookups (table : TableSchema) (doc : Value)
    (o o' : Output (list (string * string) * M)) :
  writeTuple table doc o = Ok o' ->
  exists ident,
    member "id" doc = Ok (kString ident) /\
    calls o' =
      (calls o ++ (tableName table, c_str ident)
         :: flat_map (reference_lookup doc) (columns table))%list.
Proof.
  unfold writeTuple, write_fields. intros Hw.
  apply bind_Ok in Hw as [[[sk ident'] o1] [Hf Hw]].
  apply bind_Ok in Hf as [idv [Hm Hf]].
  apply bind_Ok in Hf as [ident [Hg Hf]].
  destruct idv; try discriminate. injection Hg as ->.
  exists ident. split; [exact Hm|].
  destruct (lookup_sk (tableName table) (c_str ident) _) as [sk0 o2] eqn:E.
  apply bind_Ok in Hf as [o3 [Hc Hf]]. injection Hf as Hsk Hid Ho.
  subst sk0 o3 ident'.
  injection Hw as <-. apply calls_write_columns in Hc.
  assert (Hwd : forall o4 : Output (list (string * string) * M),
            calls (write_data table doc sk (c_str ident) o4) = calls o4).
  { intros o4. unfold write_data. repeat destruct (_ <? _); reflexivity. }
  transitivity (calls (write_data table doc sk (c_str ident) o1));
    [reflexivity|].
  rewrite Hwd, Hc.
  change (calls o2 ++ flat_map (reference_lookup doc) (columns table) =
          calls o ++ (tableName table, c_str ident)
            :: flat_map (reference_lookup doc) (columns table))%list.
  unfold lookup_sk in E. simpl in E.
  destruct (makeSK (tableName table) (c_str ident) _) as [sk1 m] eqn:E1.
  injection E as -> <-. simpl.
  destruct (recordCount o >? 0); simpl; rewrite <- app_assoc; reflexivity.
Qed.
End Lookups.

Lemma member_long_note n :
  member (c_str (sourceColumnName title_column)) (long_note n) = Ok (kString (fill n)).
Proof. reflexivity. Qed.

(** C4, as stated, fails: with an encoder that puts the value between
    quotes, a string value of 65534 bytes is not written; the column is
    NULL and a warning is logged. *)
Lemma string_value_counterexample :
  strlen (fill (Z.to_nat 65534)) = 65534 /\
  exists o',
    write_column (dbt := quoting) (ids := counter) (json := fixed_text "{}" "{}")
      notes_table (long_note (Z.to_nat 65534)) "0" "n1" title_column
      (empty_output O) = Ok o' /\
    insertBuffer o' = "NULL," /\
    log o' = [(warning, string_warning notes_table title_column "0" "n1")].
Proof.
  split; [vm_compute; reflexivity|].
  rewrite (write_column_string (dbt := quoting) (ids := counter)
             (json := fixed_text "{}" "{}")
             notes_table (long_note (Z.to_nat 65534)) "0" "n1" title_column
             (fill (Z.to_nat 65534)) (empty_output O)
             (or_introl eq_refl) ltac:(discriminate)
             (member_long_note (Z.to_nat 65534))).
  rewrite write_string_null by (apply Z.leb_le; vm_compute; reflexivity).
  eexists. repeat split.
Qed.

Lemma string_column_limit_witness :
  exists o',
    write_column (dbt := quoting) (ids := counter) (json := fixed_text "{}" "{}")
      notes_table (long_note (Z.to_nat 65533)) "0" "n1" title_column
      (empty_output O) = Ok o' /\
    insertBuffer o' = "NULL," /\
    log o' = [(warning, string_warning notes_table title_column "0" "n1")].
Proof.
  destruct (string_column_limit (dbt := quoting) (ids := counter)
              (json := fixed_text "{}" "{}")
              notes_table (long_note (Z.to_nat 65533)) "0" "n1" title_column
              (fill (Z.to_nat 65533)) (empty_output O)
              (or_introl eq_refl) ltac:(discriminate)
              (member_long_note (Z.to_nat 65533)))
    as (o' & Hw & _ & _ & Hnull & _).
  exists o'. split; [exact Hw|].
  apply Hnull. apply Z.leb_le. vm_compute. reflexivity.
Defined.

Lemma data_column_fallback_witness :
  insertBuffer (tuple_of (dbt := quoting) (ids := counter) (json := big_pretty)
                  notes_table note (empty_output O)) =
  "(0,'n1','T',1,'u1','{}',1)".
Proof.
  destruct (data_column_fallback (dbt := quoting) (ids := counter)
              (json := big_pretty) notes_table note (empty_output O)
              (tuple_of (dbt := quoting) (ids := counter) (json := big_pretty)
                 notes_table note (empty_output O))
              ltac:(vm_compute; reflexivity))
    as [sk [ident [o1 [Hf [_ [Hcompact _]]]]]].
  rewrite (proj1 (Hcompact ltac:(vm_compute; reflexivity) ltac:(vm_compute; discriminate))).
  vm_compute in Hf. injection Hf as _ _ <-. reflexivity.
Defined.

(** C7, as stated, fails: for a record of the table [notes] with an
    id-typed column, one lookup is made under the empty table name. *)
Lemma reference_lookup_counterexample :
  exists o',
    writeTuple (dbt := quoting) (ids := recording counter) (json := fixed_text "{}" "{}")
       notes_table note (empty_output ([], O)) = Ok o' /\
    In ("", "u1") (fst (idmap o')) /\ tableName notes_table <> "".
Proof.
  eexists. split; [vm_compute; reflexivity|]. split; [right; left; reflexivity | discriminate].
Qed.

Lemma surrogate_key_lookups_witness :
  fst (idmap (tuple_of (dbt := quoting) (ids := recording counter) (json := fixed_text "{}" "{}")
         notes_table note (empty_output ([], O)))) =
  [("notes", "n1"); ("", "u1")].
Proof.
  destruct (surrogate_key_lookups counter (dbt := quoting) (json := fixed_text "{}" "{}")
     notes_table note (empty_output ([], O))
     (tuple_of (dbt := quoting) (ids := recording counter) (json := fixed_text "{}" "{}")
         notes_table note (empty_output ([], O)))
     ltac:(vm_compute; reflexivity)) as [ident [Hm ->]].
  vm_compute in Hm. injection Hm as <-. reflexivity.
Defined.


Section FlushFacts.


Context {M : Type} {policy : Anonymize} {util : Util} {dbt : DBType}
  {ids : IDMap M} {names : Names} {json : RapidJSON}.

Lemma write_string_appends table column sk ident v (o : Output M) :
  exists t, insertBuffer (write_string table column sk ident v o) = insertBuffer o ++ t /\
            recordCount (write_string table column sk ident v o) = recordCount o.
Proof. unfold write_string. destruct (65535 <=? _); simpl; eauto. Qed.

Lemma write_column_appends table doc sk ident column (o o' : Output M) :
  write_column table doc sk ident column o = Ok o' ->
  exists t, insertBuffer o' = insertBuffer o ++ t /\ recordCount o' = recordCount o.
Proof.
  unfold write_column.
  destruct (String.eqb (columnName column) "id").
  { intros [= <-]. exists "". now rewrite string_app_nil_r. }
  intros Hw. apply bind_Ok in Hw as [has [_ Hw]].
  assert (Hnulls : exists t,
    insertBuffer (match columnType column with
                  | Stage.id => append "NULL," (append "NULL," o)
                  | _ => append "NULL," o end) = insertBuffer o ++ t /\
    recordCount (match columnType column with
                  | Stage.id => append "NULL," (append "NULL," o)
                  | _ => append "NULL," o end) = recordCount o).
  { destruct (columnType column); simpl; rewrite ?string_app_assoc; eauto. }
  destruct has; simpl in Hw; [|injection Hw as <-; exact Hnulls].
  apply bind_Ok in Hw as [v [_ Hw]].
  destruct (IsNull v); [injection Hw as <-; exact Hnulls|].
  apply bind_Ok in Hw as [o1 [Hw Ho]]. injection Ho as <-.
  assert (H1 : exists t, insertBuffer o1 = insertBuffer o ++ t /\ recordCount o1 = recordCount o).
  { destruct (columnType column).
    - apply bind_Ok in Hw as [i [_ Hw]]. injection Hw as <-. simpl; eauto.
    - apply bind_Ok in Hw as [b [_ Hw]]. injection Hw as <-. simpl; eauto.
    - apply bind_Ok in Hw as [d [_ Hw]]. injection Hw as <-. simpl; eauto.
    - apply bind_Ok in Hw as [s [_ Hw]].
      destruct (lookup_sk "" (c_str s) o) as [s0 o0] eqn:E.
      injection Hw as <-.
      destruct (write_string_appends table column sk ident s (append "," (append s0 o0)))
        as [t [-> ->]].
      unfold lookup_sk in E. destruct (makeSK _ _ _) in E. injection E as <- <-.
      simpl. rewrite !string_app_assoc. eauto.
    - apply bind_Ok in Hw as [s [_ Hw]]. injection Hw as <-.
      apply write_string_appends.
    - apply bind_Ok in Hw as [s [_ Hw]]. injection Hw as <-.
      apply write_string_appends. }
  destruct H1 as [t [E1 E2]]. simpl. rewrite E1, E2, string_app_assoc. eauto.
Qed.

Lemma write_columns_appends table doc sk ident cols : forall (o o' : Output M),
  write_columns table doc sk ident cols o = Ok o' ->
  exists t, insertBuffer o' = insertBuffer o ++ t /\ recordCount o' = recordCount o.
Proof.
  induction cols as [|c cols IH]; simpl; intros o o' Hw.
  - injection Hw as <-. exists "". now rewrite string_app_nil_r.
  - apply bind_Ok in Hw as [o1 [Hc1 Hc2]].
    apply write_column_appends in Hc1 as [t1 [E1 E2]].
    apply IH in Hc2 as [t2 [E3 E4]].
    exists (t1 ++ t2). rewrite E3, E1, E4, E2, string_app_assoc. auto.
Qed.

Lemma write_data_appends table doc sk ident (o : Output M) :
  exists t, insertBuffer (write_data table doc sk ident o) = insertBuffer o ++ t /\
            recordCount (write_data table doc sk ident o) = recordCount o.
Proof. unfold write_data. repeat destruct (65535 <? _); simpl; eauto. Qed.






Lemma flush_if_full_over (h : JSONHandler M) :
  10000000 < strlen (insertBuffer (out h)) ->
  executed (flush_if_full h) =
    (executed h ++ [(insertBuffer (out h) ++ ";" ++ newline)%string])%list /\
  insertBuffer (out (flush_if_full h)) =
    insert_header (tableName (tableSchema h)) /\
  recordCount (out (flush_if_full h)) = 0.
Proof.
  intros Hlen. unfold flush_if_full.
  destruct (Z.gtb_spec (strlen (insertBuffer (out h))) 10000000); [|lia].
  repeat split; reflexivity.
Qed.

Lemma flush_if_full_under (h : JSONHandler M) :
  strlen (insertBuffer (out h)) <= 10000000 -> flush_if_full h = h.
Proof.
  intros Hlen. unfold flush_if_full.
  destruct (Z.gtb_spec (strlen (insertBuffer (out h))) 10000000); [lia|reflexivity].
Qed.

Lemma flush_if_full_frame (h : JSONHandler M) :
  pass (flush_if_full h) = pass h /\ tableSchema (flush_if_full h) = tableSchema h /\
  level (flush_if_full h) = level h /\ active (flush_if_full h) = active h.
Proof. unfold flush_if_full. destruct (_ >? _); repeat split; reflexivity. Qed.

(** What [EndObject] does with a complete record in pass 2. *)
Lemma EndObject_record fuel (h h' : JSONHandler M) :
  pass h = 2 -> level h = 3 -> EndObject fuel h = Ok h' ->
  exists doc st o',
    let h1 := flush_if_full (set_stats st (set_record (record h ++ "}") h)) in
    writeTuple (tableSchema h) doc (out h1) = Ok o' /\
    h' = set_level 2 (set_out o' h1).
Proof.
  intros Hp Hl. unfold EndObject. rewrite Hl. simpl.
  intros He. apply bind_Ok in He as [h2 [He Hr]]. injection Hr as <-.
  apply bind_Ok in He as [[doc st] [_ He]]. simpl in He. rewrite Hp in He.
  simpl in He. apply bind_Ok in He as [o' [Hw Hr]]. injection Hr as <-.
  exists doc, st, o'. split.
  - rewrite <- Hw. f_equal.
    destruct (flush_if_full_frame (set_stats st (set_record (record h ++ "}") h)))
      as [_ [-> _]]. reflexivity.
  - destruct (flush_if_full_frame (set_stats st (set_record (record h ++ "}") h)))
      as [_ [_ [E _]]]. unfold set_level. simpl. rewrite E. simpl. rewrite Hl. reflexivity.
Qed.



End FlushFacts.

(** *** Canonical order *)

Lemma insert_member_perm m ms : Permutation (insert_member m ms) (m :: ms).
Proof.
  induction ms as [|m' ms IH]; simpl; [reflexivity|].
  destruct (NameComparator m m'); [reflexivity|].
  rewrite IH. apply perm_swap.
Qed.

Lemma sort_members_perm ms : Permutation (sort_members ms) ms.
Proof.
  induction ms as [|m ms IH]; simpl; [reflexivity|].
  unfold sort_members in *. simpl. rewrite insert_member_perm. now constructor.
Qed.

Lemma NameComparator_id m m' : is_id m -> NameComparator m m' = true.
Proof. unfold is_id, NameComparator. intros ->. reflexivity. Qed.

Lemma NameComparator_other m m' :
  ~ is_id m -> NameComparator m m' =
               if strcmp (fst m') "id" =? 0 then false
               else strcmp (fst m) (fst m') <? 0.
Proof.
  unfold is_id, NameComparator. intros Hn.
  destruct (Z.eqb_spec (strcmp m.1 "id") 0); [contradiction|reflexivity].
Qed.

Lemma insert_member_sorted m others :
  ~ is_id m -> Forall (fun x => ~ is_id x) others ->
  StronglySorted name_le others ->
  StronglySorted name_le (insert_member m others).
Proof.
  intros Hm Hall Hs. induction Hs as [|m' rest Hs IH Hle]; simpl.
  - repeat constructor.
  - apply Forall_cons in Hall as [Hm' Hall].
    rewrite (NameComparator_other m m' Hm).
    destruct (Z.eqb_spec (strcmp m'.1 "id") 0) as [E|_]; [contradiction|].
    destruct (Z.ltb_spec (strcmp m.1 m'.1) 0) as [Hlt|Hge].
    + constructor; [constructor; assumption|].
      constructor; [unfold name_le; lia|].
      eapply Forall_impl; [exact Hle|]. intros x Hx. unfold name_le in *.
      apply (strcmp_trans _ (fst m')); lia.
    + constructor; [apply IH; assumption|].
      rewrite (insert_member_perm m rest). constructor; [|exact Hle].
      unfold name_le. rewrite strcmp_antisym. lia.
Qed.

Lemma insert_member_ids m ids others :
  ~ is_id m -> Forall is_id ids ->
  insert_member m (ids ++ others) = (ids ++ insert_member m others)%list.
Proof.
  intros Hm Hids. induction Hids as [|m' ids Hm' _ IH]; simpl; [reflexivity|].
  rewrite (NameComparator_other m m' Hm).
  unfold is_id in Hm'. rewrite Hm'. simpl. now rewrite IH.
Qed.

Lemma insert_member_front m ms : is_id m -> insert_member m ms = m :: ms.
Proof.
  intros Hm. destruct ms as [|m' ms]; simpl; [reflexivity|].
  now rewrite NameComparator_id.
Qed.

Lemma is_id_dec m : {is_id m} + {~ is_id m}.
Proof. unfold is_id. apply Z.eq_dec. Qed.

Lemma insert_member_canonical m ms : canonical ms -> canonical (insert_member m ms).
Proof.
  intros [ids [others [-> [Hids [Hothers Hs]]]]].
  destruct (is_id_dec m) as [Hm|Hm].
  - rewrite insert_member_front by assumption.
    exists (m :: ids), others. repeat split; auto.
  - rewrite insert_member_ids by assumption.
    exists ids, (insert_member m others). repeat split; auto.
    + rewrite (insert_member_perm m others). constructor; assumption.
    + apply insert_member_sorted; assumption.
Qed.

Lemma sort_members_sorted (ms : list Member) :
  Permutation (sort_members ms) ms /\ canonical (sort_members ms).
Proof.
  split; [apply sort_members_perm|].
  induction ms as [|m ms IH].
  - exists [], []. repeat split; constructor.
  - apply (insert_member_canonical m _ IH).
Qed.

(** *** The traversal without anonymization *)

Section Plain.

Local Close Scope Z_scope.
Local Close Scope string_scope.

Lemma canon_kObject ms :
  canon (kObject ms) = kObject (sort_members (canon_member <$> ms)).
Proof.
  simpl. do 2 f_equal. apply list_fmap_ext. intros _ [n x] _. reflexivity.
Qed.

Lemma NameComparator_fst m1 m2 m1' m2' :
  fst m1 = fst m1' -> fst m2 = fst m2' ->
  NameComparator m1 m2 = NameComparator m1' m2'.
Proof. unfold NameComparator. now intros -> ->. Qed.

Lemma insert_member_fmap (f : Member -> Member) m ms :
  (forall x, fst (f x) = fst x) ->
  insert_member (f m) (f <$> ms) = f <$> insert_member m ms.
Proof.
  intros Hf. induction ms as [|m' ms IH]; simpl; [reflexivity|].
  rewrite (NameComparator_fst (f m) (f m') m m') by apply Hf.
  destruct (NameComparator m m'); [reflexivity|].
  change (f m' :: insert_member (f m) (f <$> ms) = f m' :: (f <$> insert_member m ms)).
  now rewrite IH.
Qed.

Lemma sort_members_fmap (f : Member -> Member) ms :
  (forall x, fst (f x) = fst x) ->
  sort_members (f <$> ms) = f <$> sort_members ms.
Proof.
  intros Hf. induction ms as [|m ms IH]; [reflexivity|].
  change (insert_member (f m) (sort_members (f <$> ms)) =
          f <$> insert_member m (sort_members ms)).
  rewrite IH. now apply insert_member_fmap.
Qed.

Lemma weight_lookup (l : list Value) x v :
  l !! x = Some v -> weight v <= list_sum (weight <$> l).
Proof.
  revert x. induction l as [|a l IH]; intros [|x]; csimpl; try discriminate.
  - intros [= ->]. lia.
  - intros Hx. specialize (IH x Hx). lia.
Qed.

Lemma weight_member (ms : list Member) m :
  In m ms ->
  weight (snd m) <= list_sum ((fun m => let '(_, x) := m in weight x) <$> ms).
Proof.
  induction ms as [|[n a] ms IH]; csimpl; [tauto|].
  intros [<-|Hin]; csimpl; [lia|]. specialize (IH Hin). lia.
Qed.

Lemma step_list_member (S0 : list Member) x n vx :
  S0 !! x = Some (n, vx) ->
  alter (prod_map Datatypes.id (fun _ => canon vx)) x
    ((canon_member <$> take x S0) ++ drop x S0) =
  (canon_member <$> take (S x) S0) ++ drop (S x) S0.
Proof.
  intros Hx. rewrite <- (step_list canon_member S0 x (n, vx) Hx).
  apply list_alter_ext; [|reflexivity].
  intros y Hy. rewrite step_lookup in Hy.
  rewrite Hx in Hy. injection Hy as <-. reflexivity.
Qed.

Section Traversal.

Context {policy : Anonymize} {util : Util}.


End Traversal.

Lemma foldr_and_Forall {A} (P : A -> Prop) (l : list A) :
  foldr (fun x acc => P x /\ acc) True l <-> Forall P l.
Proof.
  induction l as [|a l IH]; simpl.
  - split; auto.
  - rewrite IH. split; [intros [? ?]; constructor; auto | intros H; inversion H; auto].
Qed.



End Plain.

(** *** The traversal with anonymization *)

Section Anonymized.

Import PointerFacts.

Section MaskFacts.
Context {policy : Anonymize} {util : Util}.

Lemma mask_kArray path l :
  mask path (kArray l) = kArray (imap (mask_element path) l).
Proof.
  simpl. f_equal.
  assert (H : forall k,
    (fix elements (x : nat) (l0 : list Value) {struct l0} : list Value :=
       match l0 with
       | [] => []
       | e :: l' => mask (path ++ "/" ++ to_string (Z.of_nat x)) e :: elements (S x) l'
       end) k l = imap (fun x => mask_element path (k + x)) l).
  { induction l as [|e l IH]; intros k; [reflexivity|].
    simpl. f_equal.
    - unfold mask_element. now rewrite Nat.add_0_r.
    - rewrite IH. apply imap_ext. intros i y _. simpl. f_equal. lia. }
  rewrite (H 0%nat). reflexivity.
Qed.

Lemma mask_kObject path ms :
  mask path (kObject ms) = kObject (mask_member path <$> ms).
Proof.
  simpl. f_equal. apply list_fmap_ext. intros _ [n e] _. reflexivity.
Qed.

End MaskFacts.

Local Close Scope Z_scope.
Local Close Scope string_scope.

Lemma upto_lookup_lt {A} x g (l : list A) i : i < x -> upto x g l !! i = g i <$> l !! i.
Proof. intros Hi. unfold upto. rewrite list_lookup_imap. destruct (l !! i); simpl; [|reflexivity]. destruct (decide (i < x)); [reflexivity|lia]. Qed.

Lemma upto_lookup_ge {A} x g (l : list A) i : x <= i -> upto x g l !! i = l !! i.
Proof. intros Hi. unfold upto. rewrite list_lookup_imap. destruct (l !! i); simpl; [|reflexivity]. destruct (decide (i < x)); [lia|reflexivity]. Qed.

Lemma upto_length {A} x g (l : list A) : length (upto x g l) = length l.
Proof. apply length_imap. Qed.

Lemma upto_0 {A} g (l : list A) : upto 0 g l = l.
Proof. apply list_eq. intros i. apply upto_lookup_ge. lia. Qed.

Lemma upto_all {A} x g (l : list A) : length l <= x -> upto x g l = imap g l.
Proof.
  intros Hx. apply list_eq. intros i. rewrite list_lookup_imap.
  destruct (decide (i < x)); [now apply upto_lookup_lt|].
  rewrite upto_lookup_ge by lia. rewrite (lookup_ge_None_2 l i) by lia. reflexivity.
Qed.

Lemma upto_step {A} x g (l : list A) a :
  l !! x = Some a -> alter (fun _ => g x a) x (upto x g l) = upto (S x) g l.
Proof.
  intros Hx. apply list_eq. intros i.
  destruct (decide (x = i)) as [<-|Hne].
  - rewrite list_lookup_alter_eq, upto_lookup_ge, upto_lookup_lt, Hx by lia. reflexivity.
  - rewrite list_lookup_alter_ne by exact Hne.
    destruct (decide (i < x)).
    + rewrite !upto_lookup_lt by lia. reflexivity.
    + rewrite !upto_lookup_ge by lia. reflexivity.
Qed.

Lemma upto_fst x (g : nat -> Member -> Member) (l : list Member) :
  (forall i m, fst (g i m) = fst m) -> fst <$> upto x g l = fst <$> l.
Proof.
  intros Hg. apply list_eq. intros i. rewrite !list_lookup_fmap.
  destruct (decide (i < x)).
  - rewrite upto_lookup_lt by lia. destruct (l !! i); simpl; [|reflexivity]. now rewrite Hg.
  - rewrite upto_lookup_ge by lia. reflexivity.
Qed.

Lemma pointer_safe_array l :
  pointer_safe (kArray l) <->
  (Z.of_nat (length l) <= kPointerInvalidIndex)%Z /\ Forall pointer_safe l.
Proof. simpl. now rewrite foldr_and_Forall. Qed.

Lemma pointer_safe_object ms :
  pointer_safe (kObject ms) <->
  NoDup (fst <$> ms) /\
  Forall (fun m : Member => plain_name (fst m) = true /\ pointer_safe (snd m)) ms.
Proof.
  simpl.
  rewrite (foldr_and_Forall
    (fun m : Member => let '(n, e) := m in plain_name n = true /\ pointer_safe e)).
  split; intros [Hn Hf]; (split; [exact Hn|]);
    (eapply Forall_impl; [exact Hf|]); intros [n e]; auto.
Qed.

Section Masked.
Context {policy : Anonymize} {util : Util}.

Lemma anonymize_resolved path ts node root v new :
  Parse path = Some ts -> resolves ts node root -> at_loc root node = Some v ->
  anonymize true path new root =
  Ok (modify (fun _ => if possiblePersonalData (c_str path) then new else v)
        node root).
Proof.
  intros Hp Hr Hat. unfold anonymize, PointerSet. simpl.
  destruct (possiblePersonalData (c_str path)).
  - rewrite Hp. f_equal. now apply Create_resolves.
  - f_equal. symmetry. now apply modify_same.
Qed.

Lemma process_masked : forall v fuel node root cs path depth stats ts,
  at_loc root node = Some v -> pointer_safe v ->
  Parse path = Some ts -> c_str path = path -> resolves ts node root ->
  weight v <= fuel ->
  exists stats',
    processJSONRecord fuel node cs true path depth (root, stats) =
    Ok (modify (fun _ => canon (mask path v)) node root, stats').
Proof.
  induction v as [ | b | n | s | l IHl | ms IHms ] using Value_nested_ind;
    intros [|fuel] node root cs path depth stats ts Hat Hsafe Hp Hc Hr Hw;
    try (simpl in Hw; lia); simpl processJSONRecord; rewrite Hat.
  - simpl. rewrite (modify_same _ _ _ Hat). eauto.
  - rewrite (anonymize_resolved _ _ _ _ _ _ Hp Hr Hat). simpl.
    destruct (possiblePersonalData (c_str path)); eauto.
  - rewrite (anonymize_resolved _ _ _ _ _ _ Hp Hr Hat). simpl.
    erewrite at_loc_modify by exact Hat.
    destruct (possiblePersonalData (c_str path)); destruct (cs && _); eauto.
  - rewrite (anonymize_resolved _ _ _ _ _ _ Hp Hr Hat). simpl.
    erewrite at_loc_modify by exact Hat.
    destruct (possiblePersonalData (c_str path)); destruct (cs && _); eauto.
  - (* array *)
    simpl in Hw. apply pointer_safe_array in Hsafe as [Hlen Hsafe].
    set (g := fun (i : nat) (e : Value) => canon (mask_element path i e)).
    edestruct (iterate_for
      (fun (x : nat) (st : Value * Stats) =>
         match at_loc st.1 node with
         | Some (kArray l0) => Ok (x <? length l0)
         | _ => Fault
         end)
      (fun (x : nat) (st : Value * Stats) =>
         processJSONRecord fuel (node ++ [x]) cs true
           (path +:+ "/" +:+ to_string (Z.of_nat x)) (S depth) st)
      (length l)
      (fun x st => st.1 = modify (fun _ => kArray (upto x g l)) node root)
      ) as [[r s'] [Hit Hinv]]; cycle 5.
    + rewrite Hit. exists s'. simpl in Hinv. rewrite Hinv.
      rewrite upto_all by lia. rewrite mask_kArray. simpl.
      rewrite fmap_imap. reflexivity.
    + intros x [r s'] Hx Hinv. simpl in *. subst r.
      erewrite at_loc_modify by exact Hat. now rewrite upto_length.
    + intros x [r s'] Hx Hinv. simpl in Hinv. subst r.
      destruct (lookup_lt_is_Some_2 l x Hx) as [lx Hlx].
      pose proof (proj1 (Forall_lookup _ _) IHl x lx Hlx) as IHx.
      pose proof (proj1 (Forall_lookup _ _) Hsafe x lx Hlx) as Hsx.
      assert (Hidx : (Z.of_nat x < kPointerInvalidIndex)%Z) by lia.
      destruct (Parse_snoc path ts (to_string (Z.of_nat x)) Hp Hc
                  (plain_name_to_string x)) as [Hp' Hc'].
      edestruct (IHx fuel (node ++ [x])
                   (modify (fun _ => kArray (upto x g l)) node root)
                   cs (path +:+ "/" +:+ to_string (Z.of_nat x)) (S depth) s'
                   (ts ++ [to_string (Z.of_nat x)]))
        as [s'' Hs'']; auto.
      * rewrite at_loc_app. erewrite at_loc_modify by exact Hat. simpl.
        rewrite upto_lookup_ge, Hlx by lia. reflexivity.
      * eapply resolves_snoc.
        -- apply resolves_modify. exact Hr.
        -- erewrite at_loc_modify by exact Hat. reflexivity.
        -- simpl. split; [apply to_string_not_dash|].
           split; [now apply token_index_to_string|].
           split; [lia|]. exists lx. rewrite upto_lookup_ge, Hlx by lia. auto.
      * pose proof (weight_lookup l x lx Hlx). lia.
      * eexists. split; [exact Hs''|]. simpl.
        rewrite modify_app, modify_modify. simpl.
        rewrite <- (upto_step x g l lx Hlx). reflexivity.
    + lia.
    + lia.
    + simpl. rewrite upto_0, (modify_same _ _ _ Hat). reflexivity.
  - (* object *)
    simpl in Hw. apply pointer_safe_object in Hsafe as [Hnd Hsafe].
    set (S0 := sort_members ms).
    assert (Hperm : Permutation S0 ms) by apply sort_members_perm.
    assert (Hlen : length S0 = length ms) by (now apply Permutation_length).
    set (g := fun (i : nat) (m : Member) => canon_member (mask_member path m)).
    assert (Hg : forall i m, fst (g i m) = fst m) by reflexivity.
    assert (Hnd0 : NoDup (fst <$> S0)).
    { assert (HP : Permutation (fst <$> S0) (fst <$> ms))
        by (apply fmap_Permutation; exact Hperm).
      rewrite HP. exact Hnd. }
    edestruct (iterate_for
      (fun (x : nat) (st : Value * Stats) =>
         match at_loc st.1 node with
         | Some (kObject ms0) => Ok (x <? length ms0)
         | _ => Fault
         end)
      (fun (x : nat) (st : Value * Stats) =>
         match at_loc st.1 node ≫= (fun v => child_name v x) with
         | Some name =>
             processJSONRecord fuel (node ++ [x]) cs true
               (path +:+ "/" +:+ c_str name) (S depth) st
         | None => Fault
         end)
      (length S0)
      (fun x st => st.1 = modify (fun _ => kObject (upto x g S0)) node root)
      ) as [[r s'] [Hit Hinv]]; cycle 5.
    + rewrite Hit. exists s'. simpl in Hinv. rewrite Hinv.
      rewrite upto_all by lia. rewrite mask_kObject, canon_kObject.
      unfold S0. rewrite !sort_members_fmap by reflexivity.
      rewrite <- list_fmap_compose.
      change (imap g (sort_members ms))
        with (imap (const (fun m => canon_member (mask_member path m)))
                (sort_members ms)).
      rewrite imap_const. reflexivity.
    + intros x [r s'] Hx Hinv. simpl in *. subst r.
      erewrite at_loc_modify by exact Hat. now rewrite upto_length.
    + intros x [r s'] Hx Hinv. simpl in Hinv. subst r.
      destruct (lookup_lt_is_Some_2 S0 x Hx) as [[n vx] Hmx].
      assert (Hin : In (n, vx) ms).
      { apply (Permutation_in _ Hperm). apply list_elem_of_In.
        eapply list_elem_of_lookup_2; eauto. }
      pose proof (proj1 (Forall_forall _ _) IHms (n, vx)
                    ltac:(apply list_elem_of_In; exact Hin)) as IHx.
      pose proof (proj1 (Forall_forall _ _) Hsafe (n, vx)
                    ltac:(apply list_elem_of_In; exact Hin)) as [Hplain Hsx].
      simpl in IHx, Hplain, Hsx.
      simpl. erewrite at_loc_modify by exact Hat. simpl.
      rewrite upto_lookup_ge, Hmx by lia. simpl.
      rewrite (plain_name_c_str n Hplain).
      destruct (Parse_snoc path ts n Hp Hc Hplain) as [Hp' Hc'].
      edestruct (IHx fuel (node ++ [x])
                   (modify (fun _ => kObject (upto x g S0)) node root)
                   cs (path +:+ "/" +:+ n) (S depth) s' (ts ++ [n]))
        as [s'' Hs'']; auto.
      * rewrite at_loc_app. erewrite at_loc_modify by exact Hat. simpl.
        rewrite upto_lookup_ge, Hmx by lia. reflexivity.
      * eapply resolves_snoc.
        -- apply resolves_modify. exact Hr.
        -- erewrite at_loc_modify by exact Hat. reflexivity.
        -- simpl. split.
           ++ apply (find_member_NoDup _ x n vx).
              ** rewrite upto_fst by exact Hg. exact Hnd0.
              ** rewrite upto_lookup_ge, Hmx by lia. reflexivity.
           ++ exists (n, vx). rewrite upto_lookup_ge, Hmx by lia. auto.
      * pose proof (weight_member ms (n, vx) Hin). simpl in *. lia.
      * eexists. split; [exact Hs''|]. simpl.
        rewrite modify_app, modify_modify. simpl.
        assert (E : alter (prod_map Datatypes.id
                             (fun _ => canon (mask (path +:+ "/" +:+ n) vx)))
                      x (upto x g S0) = upto (S x) g S0).
        { rewrite <- (upto_step x g S0 (n, vx) Hmx).
          apply list_alter_ext; [|reflexivity].
          intros y Hy. rewrite upto_lookup_ge, Hmx in Hy by lia.
          injection Hy as <-.
          unfold g, canon_member, mask_member, prod_map. simpl.
          now rewrite (plain_name_c_str n Hplain). }
        rewrite E. reflexivity.
    + lia.
    + lia.
    + simpl. rewrite upto_0. apply (modify_ext _ _ _ _ _ Hat). reflexivity.
Qed.

End Masked.

Section Shape.
Context {policy : Anonymize} {util : Util}.

Lemma mask_same_shape v : forall path, same_shape v (mask path v).
Proof.
  induction v as [ | b | n | s | l IHl | ms IHms ] using Value_nested_ind;
    intros path.
  - constructor.
  - simpl. destruct (possiblePersonalData _); constructor.
  - simpl. destruct (possiblePersonalData _); constructor.
  - simpl. destruct (possiblePersonalData _); constructor.
  - rewrite mask_kArray. constructor.
    apply Forall2_same_length_lookup. split; [now rewrite length_imap|].
    intros i x y Hx Hy. rewrite list_lookup_imap, Hx in Hy. injection Hy as <-.
    exact (proj1 (Forall_lookup _ _) IHl i x Hx _).
  - rewrite mask_kObject. constructor. apply Forall2_fmap_r.
    apply Forall_Forall2_diag. eapply Forall_impl; [exact IHms|].
    intros [n e] He. split; [reflexivity|apply He].
Qed.

(** X18. Anonymization of a record whose member names are plain (no
    slash, tilde or NUL) and different within each object: the traversal
    returns the record in which exactly the booleans, numbers and strings
    at the paths that the policy flags are replaced by [false], [0] and
    the empty string, with every object sorted and nothing else changed. *)
Theorem processJSONRecord_anonymizes (doc : Value) (cs : bool) (stats : Stats)
    (fuel : nat) :
  pointer_safe doc -> weight doc <= fuel ->
  exists stats',
    processJSONRecord fuel [] cs true "" 0 (doc, stats) =
    Ok (canon (mask "" doc), stats').
Proof.
  intros Hs Hw.
  destruct (process_masked doc fuel [] doc cs "" 0 stats [] eq_refl Hs
              eq_refl eq_refl I Hw) as [s' Hs'].
  exists s'. exact Hs'.
Qed.

End Shape.

End Anonymized.

(** C5 fails on [leaking_record] when the table is anonymized and the
    policy flags [/a/b]: the JSON Pointer built from the member name [a/b]
    addresses member [b] of member [a], so the number there becomes the
    empty string and the string of the member named [a/b] stays. *)
Theorem anonymize_slash_name :
  processJSONRecord (policy := flags_a_b) (util := no_uuid) 5 [] false true
    "" 0 (leaking_record, ∅) =
  Ok (kObject [("a", kObject [("b", kString "")]); ("a/b", kString "secret")],
      ∅).
Proof. vm_compute. reflexivity. Qed.

End StageFacts.

(** ** More on the merge engine *)

Module MergeMore.

Import Sql Merge MergeNotions MergeExamples MergeFacts.

Lemma newest_exists (hist : list HistoryRow) (k : Z * string) :
  (exists h, In h hist /\ key_h h = k) ->
  exists h', In h' hist /\ key_h h' = k /\
    forall h2, In h2 hist -> key_h h2 = k -> h_updated h2 <= h_updated h'.
Proof.
  induction hist as [|a hist IH]; [intros [h [[] _]]|].
  intros [h [Hin Hk]].
  destruct (latest_key_dec (map select_latest hist) k) as [[l [Hl Hkl]]|Hno].
  - apply in_map_iff in Hl as [x [<- Hx]]. rewrite key_select_latest in Hkl.
    destruct (IH (ex_intro _ x (conj Hx Hkl))) as [h' [Hin' [Hk' Hmax]]].
    destruct (decide (key_h a = k)) as [Ha|Ha];
      [destruct (Z_lt_le_dec (h_updated h') (h_updated a)) as [Hlt|Hle]|].
    + exists a. split; [now left|]. split; [exact Ha|].
      intros h2 [<-|H2] Hk2; [lia|]. specialize (Hmax h2 H2 Hk2). lia.
    + exists h'. split; [now right|]. split; [exact Hk'|].
      intros h2 [<-|H2] Hk2; [lia|auto].
    + exists h'. split; [now right|]. split; [exact Hk'|].
      intros h2 [<-|H2] Hk2; [contradiction|auto].
  - assert (Hnone : forall x, In x hist -> key_h x <> k).
    { intros x Hx. rewrite <- key_select_latest. apply Hno.
      apply in_map. exact Hx. }
    destruct Hin as [<-|Hin]; [|exfalso; exact (Hnone h Hin Hk)].
    exists a. split; [now left|]. split; [exact Hk|].
    intros h2 [<-|H2] Hk2; [lia|]. exfalso. exact (Hnone h2 H2 Hk2).
Qed.

(** X1. The snapshot loses no record: for every row of the history table
    the snapshot holds a row of the same (tenant_id, id), taken from a
    history row that is at least as recent. *)
Theorem snapshot_covers_history (db : Database) (h : HistoryRow) :
  In h (history db) ->
  exists h', In h' (history db) /\ key_h h' = key_h h /\
    h_updated h <= h_updated h' /\
    In (select_latest h') (latest_history (createLatestHistory db)).
Proof.
  intros Hin.
  destruct (newest_exists (history db) (key_h h) (ex_intro _ h (conj Hin eq_refl)))
    as [h' [Hin' [Hk' Hmax]]].
  exists h'. split; [exact Hin'|]. split; [exact Hk'|].
  split; [apply Hmax; auto|].
  apply in_createLatestHistory. exists h'. split; [exact Hin'|].
  split; [reflexivity|]. intros [h2 [H2 [Hk2 Hlt]]].
  assert (h_updated h2 <= h_updated h') by (apply Hmax; congruence). lia.
Qed.

Lemma snapshot_covers_history_witness :
  exists h', In h' (history tie_db) /\ key_h h' = (1, "x"%string) /\
    10 <= h_updated h' /\
    In (select_latest h') (latest_history (createLatestHistory tie_db)).
Proof.
  apply (snapshot_covers_history tie_db (mkHistoryRow "x" "A" 10 1)).
  simpl. auto.
Defined.

(** X2. After a merge that runs later than every [updated] of the history
    table, the latest version of every staged record with data is the
    staged data: the new snapshot has a row for its (tenant_id, id), and
    every such row carries the staged data. Staged rows of the same
    (tenant_id, id) are assumed to carry the same data. *)
Theorem merge_brings_up_to_date (now : Z) (db : Database)
  (Hclock : forall h, In h (history db) -> h_updated h < now)
  (Hkeys : forall s1 s2 d1 d2, In s1 (loading db) -> In s2 (loading db) ->
     key_s s1 = key_s s2 -> s_data s1 = Some d1 -> s_data s2 = Some d2 ->
     d1 = d2)
  (s : StagedRow) (d : string) :
  In s (loading db) -> s_data s = Some d ->
  let snapshot := latest_history (createLatestHistory (mergeTable now db)) in
  (exists l, In l snapshot /\ key_l l = key_s s) /\
  (forall l, In l snapshot -> key_l l = key_s s -> l_data l = d).
Proof.
  intros Hs Hd snapshot.
  set (db1 := mergeTable now db) in *.
  set (snap1 := latest_history (createLatestHistory db)).
  set (app1 := appended now (createLatestHistory db)).
  assert (Hhist1 : forall h, In h (history db1) <-> In h (history db) \/ In h app1).
  { intros h. unfold db1. rewrite history_mergeTable. apply in_app_iff. }
  assert (Happ1 : forall h, In h app1 -> key_h h = key_s s -> h_data h = d).
  { intros h Hh Hk. apply in_appended in Hh as [s' [d' [Hs' [Hd' [-> _]]]]].
    simpl. symmetry. eapply (Hkeys s s'); eauto. }
  assert (Hnow : forall h, In h app1 -> h_updated h = now).
  { intros h Hh. apply in_appended in Hh as [s' [d' [_ [_ [-> _]]]]].
    reflexivity. }
  assert (Hsnap2 : forall l, In l snapshot <->
            exists h, In h (history db1) /\ l = select_latest h /\
              ~ exists h2, In h2 (history db1) /\ key_h h2 = key_h h /\
                           h_updated h < h_updated h2)
    by (intros l; apply in_createLatestHistory).
  assert (Hsnap1 : forall l, In l snap1 <->
            exists h, In h (history db) /\ l = select_latest h /\
              ~ exists h2, In h2 (history db) /\ key_h h2 = key_h h /\
                           h_updated h < h_updated h2)
    by (intros l; apply in_createLatestHistory).
  set (r1 := mkHistoryRow (s_id s) d now (s_tenant_id s)).
  assert (Hfirst : In r1 app1 ->
     (exists l, In l snapshot /\ key_l l = key_s s) /\
     (forall l, In l snapshot -> key_l l = key_s s -> l_data l = d)).
  { intros Hr1. split.
    - exists (select_latest r1). split; [|reflexivity].
      apply Hsnap2. exists r1. split; [apply Hhist1; now right|].
      split; [reflexivity|]. intros [h2 [Hh2 [_ Hlt]]]. simpl in Hlt.
      apply Hhist1 in Hh2 as [Hh2|Hh2].
      + specialize (Hclock h2 Hh2). lia.
      + specialize (Hnow h2 Hh2). lia.
    - intros l Hl Hk. apply Hsnap2 in Hl as [h [Hh [-> Hlatest]]].
      rewrite key_select_latest in Hk.
      apply Hhist1 in Hh as [Hh|Hh].
      + exfalso. apply Hlatest. exists r1. split; [apply Hhist1; now right|].
        split; [now rewrite Hk|]. simpl. exact (Hclock h Hh).
      + simpl. apply (Happ1 h Hh Hk). }
  destruct (latest_key_dec snap1 (key_s s)) as [[l1 [Hl1 Hk1]]|Hno1];
    [destruct (latest_data_dec snap1 (key_s s) d) as [[l2 [Hl2 [Hk2 Hd2]]]|Hsame]|].
  - apply Hfirst. apply in_appended. exists s, d. repeat split; auto.
    right. exists l2. auto.
  - assert (Hfresh : forall h, In h app1 -> key_h h <> key_s s).
    { intros h Hh Hk. apply in_appended in Hh as [s' [d' [Hs' [Hd' [-> Hc]]]]].
      change (key_s s' = key_s s) in Hk.
      destruct Hc as [Hno|[l [Hl [Hkl Hne]]]].
      - apply (Hno l1 Hl1). congruence.
      - apply Hne. rewrite (Hkeys s' s d' d); auto. apply Hsame; auto. congruence. }
    split.
    + exists l1. split; [|exact Hk1].
      apply Hsnap1 in Hl1 as [h1 [Hh1 [-> Hlatest]]].
      apply Hsnap2. exists h1. split; [apply Hhist1; now left|].
      split; [reflexivity|]. intros [h2 [Hh2 [Hk2 Hlt]]].
      apply Hhist1 in Hh2 as [Hh2|Hh2].
      * apply Hlatest. exists h2. auto.
      * apply (Hfresh h2 Hh2). rewrite Hk2. exact Hk1.
    + intros l Hl2 Hk. apply Hsame; [|exact Hk].
      apply Hsnap2 in Hl2 as [h [Hh [-> Hlatest]]].
      apply Hhist1 in Hh as [Hh|Hh]; [|exfalso; exact (Hfresh h Hh Hk)].
      apply Hsnap1. exists h. split; [exact Hh|]. split; [reflexivity|].
      intros [h2 [Hh2 Hrest]]. apply Hlatest. exists h2.
      split; [apply Hhist1; now left|exact Hrest].
  - apply Hfirst. apply in_appended. exists s, d. repeat split; auto.
Qed.

Lemma merge_brings_up_to_date_witness :
  let snapshot := latest_history (createLatestHistory (mergeTable 11 tie_db)) in
  (exists l, In l snapshot /\ key_l l = (1, "x"%string)) /\
  (forall l, In l snapshot -> key_l l = (1, "x"%string) -> l_data l = "B"%string).
Proof.
  refine (merge_brings_up_to_date 11 tie_db _ _
            (mkStagedRow "x" (Some "B"%string) 1) "B" _ _).
  - intros h [<-|[]]; simpl; lia.
  - intros s1 s2 d1 d2 [<-|[]] [<-|[]] _ E1 E2. simpl in *. congruence.
  - simpl. left. reflexivity.
  - reflexivity.
Defined.

Lemma left_join_nil stage :
  left_join stage [] = map (fun s => (s, None)) stage.
Proof.
  induction stage as [|s stage IH]; [reflexivity|].
  change (left_join (s :: stage) []) with ([(s, None)] ++ left_join stage [])%list.
  rewrite IH. reflexivity.
Qed.

(** X3. The first merge of a table: with an empty history table the merge
    appends one row for every staged row whose data is not NULL, in the
    order of the loading table, and none for the others. *)
Theorem first_merge_copies_staging (now : Z) (db : Database) :
  history db = [] ->
  history (mergeTable now db) =
  flat_map (fun s => match s_data s with
                     | Some d => [mkHistoryRow (s_id s) d now (s_tenant_id s)]
                     | None => []
                     end) (loading db).
Proof.
  intros Hh. rewrite history_mergeTable, Hh. simpl.
  unfold appended, createLatestHistory. simpl. rewrite Hh. simpl.
  rewrite left_join_nil.
  induction (loading db) as [|s stage IH]; [reflexivity|].
  simpl. unfold select_changed.
  destruct (s_data s) as [d|] eqn:Hd; simpl; rewrite ?Hd; simpl.
  - f_equal. exact IH.
  - exact IH.
Qed.

Lemma first_merge_copies_staging_witness :
  history (mergeTable 5 twin_db) =
  [mkHistoryRow "x" "A" 5 1; mkHistoryRow "x" "B" 5 1].
Proof.
  apply (first_merge_copies_staging 5 twin_db). reflexivity.
Defined.

Lemma filter_at_most_one {A B} (g : A -> B) (R : A -> bool) (l : list A) :
  List.NoDup (map g l) ->
  (forall x y, In x l -> In y l -> R x = true -> R y = true -> g x = g y) ->
  (length (List.filter R l) <= 1)%nat.
Proof.
  induction l as [|a l IH]; simpl; [lia|].
  intros Hnd Hsame. inversion Hnd as [|? ? Hnotin Hnd']; subst.
  destruct (R a) eqn:Ha.
  - assert (Hnil : List.filter R l = []).
    { destruct (List.filter R l) as [|y ys] eqn:Hf; [reflexivity|].
      exfalso. assert (Hy : In y (List.filter R l)) by (rewrite Hf; now left).
      apply filter_In in Hy as [Hy HRy].
      apply Hnotin. rewrite (Hsame a y); auto. apply in_map. exact Hy. }
    rewrite Hnil. simpl. lia.
  - apply IH; auto.
Qed.

Lemma NoDup_map_filter {A B} (g : A -> B) (Q : A -> bool) (l : list A) :
  List.NoDup (map g l) -> List.NoDup (map g (List.filter Q l)).
Proof.
  induction l as [|a l IH]; simpl; [auto|].
  intros Hnd. inversion Hnd as [|? ? Hnotin Hnd']; subst.
  destruct (Q a); simpl; [|auto].
  constructor; [|auto]. intros Hin. apply Hnotin.
  apply in_map_iff in Hin as [x [Hx Hin]]. apply filter_In in Hin as [Hin _].
  rewrite <- Hx. apply in_map. exact Hin.
Qed.

Lemma latest_in_spec hist h : latest_in hist h <-> is_latest hist h = true.
Proof.
  rewrite is_latest_spec. unfold latest_in. rewrite List.Forall_forall. split.
  - intros H [h2 [Hin Hh]]. exact (H h2 Hin Hh).
  - intros H h2 Hin Hh. apply H. exists h2. tauto.
Qed.

Lemma filter_latest hist (l : list HistoryRow) :
  List.filter (is_latest hist) l = filter (latest_in hist) l.
Proof.
  induction l as [|h l IH]; [reflexivity|].
  simpl. rewrite filter_cons, IH.
  destruct (decide (latest_in hist h)) as [H|H].
  - apply latest_in_spec in H. now rewrite H.
  - destruct (is_latest hist h) eqn:E; [|reflexivity].
    exfalso. apply H. now apply latest_in_spec.
Qed.

Lemma snapshot_rows (db : Database) :
  Forall2 snapshot_of (latest_history (createLatestHistory db))
    (filter (latest_in (history db)) (history db)).
Proof.
  simpl. rewrite filter_latest.
  induction (filter (latest_in (history db)) (history db)) as [|h l IH];
    simpl; constructor; [repeat split|exact IH].
Qed.

(** With no two versions of a key at the same time, the snapshot has one
    row for a key at most. *)
Lemma snapshot_keys (db : Database) :
  versioned (history db) ->
  List.NoDup (map key_l (latest_history (createLatestHistory db))).
Proof.
  intros Hv. simpl. rewrite map_map.
  change (fun x => key_l (select_latest x)) with key_h.
  set (latest := List.filter (is_latest (history db)) (history db)).
  assert (Hnd : List.NoDup (map (fun h => (key_h h, h_updated h)) latest))
    by (apply NoDup_map_filter; exact Hv).
  assert (Hl : forall x y, In x latest -> In y latest -> key_h x = key_h y ->
            h_updated x = h_updated y).
  { intros x y Hx Hy Hk.
    apply filter_In in Hx as [Hx Lx]. apply filter_In in Hy as [Hy Ly].
    apply is_latest_spec in Lx, Ly.
    destruct (Z.lt_total (h_updated x) (h_updated y)) as [Hlt|[Heq|Hgt]];
      [|exact Heq|].
    - exfalso. apply Lx. exists y. split; [exact Hy|]. split; [congruence|lia].
    - exfalso. apply Ly. exists x. split; [exact Hx|]. split; [congruence|lia]. }
  clearbody latest. induction latest as [|a l IH]; simpl; [constructor|].
  simpl in Hnd. inversion Hnd as [|? ? Hnotin Hnd']; subst.
  constructor.
  - intros Hin. apply in_map_iff in Hin as [y [Hk Hy]]. apply Hnotin.
    apply in_map_iff. exists y. split; [|exact Hy].
    f_equal; [exact Hk|]. apply Hl; [now right|now left|exact Hk].
  - apply IH; [exact Hnd'|]. intros x y Hx Hy. apply Hl; now right.
Qed.

(** The rows that the INSERT statement selects for one staged row. *)
Lemma appended_cons now hist s stage snap :
  appended now (mkDatabase hist (s :: stage) snap) =
  (flat_map (select_changed now)
     (List.filter (fun r => holds (changed r)) (left_join [s] snap))
   ++ appended now (mkDatabase hist stage snap))%list.
Proof.
  unfold appended. simpl. rewrite app_nil_r.
  now rewrite List.filter_app, flat_map_app.
Qed.

Lemma joined_once snap s :
  List.NoDup (map key_l snap) ->
  (List.filter (fun h => holds (join_on s h)) snap = [] /\
   Forall (fun l => key_l l <> key_s s) snap) \/
  (exists l, List.filter (fun h => holds (join_on s h)) snap = [l] /\
     In l snap /\ key_l l = key_s s /\
     forall l', In l' snap -> key_l l' = key_s s -> l' = l).
Proof.
  intros Hnd.
  pose proof (filter_at_most_one key_l (fun h => holds (join_on s h)) snap Hnd)
    as Hone.
  destruct (List.filter (fun h => holds (join_on s h)) snap) as [|l ls] eqn:Hf.
  - left. split; [reflexivity|]. apply List.Forall_forall. intros l Hl Hk.
    assert (Hin : In l (List.filter (fun h => holds (join_on s h)) snap))
      by (apply filter_In; split; [exact Hl|now apply holds_join_on]).
    rewrite Hf in Hin. destruct Hin.
  - right. exists l.
    assert (Hls : ls = []).
    { destruct ls; [reflexivity|]. exfalso.
      assert (length (l :: l0 :: ls) <= 1)%nat; [|simpl in *; lia].
      apply Hone. intros x y _ _ Rx Ry. apply holds_join_on in Rx, Ry.
      congruence. }
    subst ls. split; [reflexivity|].
    assert (Hin : In l (List.filter (fun h => holds (join_on s h)) snap))
      by (rewrite Hf; now left).
    apply filter_In in Hin as [Hl Hk]. apply holds_join_on in Hk.
    split; [exact Hl|]. split; [exact Hk|]. intros l' Hl' Hk'.
    assert (Hin' : In l' (List.filter (fun h => holds (join_on s h)) snap))
      by (apply filter_In; split; [exact Hl'|now apply holds_join_on]).
    rewrite Hf in Hin'. destruct Hin' as [<-|[]]. reflexivity.
Qed.

Lemma selected_one now s oh :
  flat_map (select_changed now)
    (List.filter (fun r => holds (changed r)) [(s, oh)]) =
  match s_data s with
  | Some d =>
      if holds (changed (s, oh))
      then [mkHistoryRow (s_id s) d now (s_tenant_id s)] else []
  | None => []
  end.
Proof.
  cbn [List.filter]. destruct (holds (changed (s, oh))) eqn:Hc.
  - apply holds_changed in Hc as [d [Hd _]].
    cbn [flat_map]. unfold select_changed. simpl. now rewrite Hd.
  - simpl. now destruct (s_data s).
Qed.

Lemma to_append_spec snap s :
  List.NoDup (map key_l snap) ->
  to_append snap s <->
  match List.filter (fun h => holds (join_on s h)) snap with
  | [] => holds (changed (s, None)) = true
  | l :: _ => holds (changed (s, Some l)) = true
  end.
Proof.
  intros Hnd. unfold to_append.
  destruct (joined_once snap s Hnd) as [[-> Hall]|[l [-> [Hl [Hk Huniq]]]]];
    rewrite holds_changed.
  - split.
    + intros [[d Hd] _]. eauto.
    + intros [d [Hd _]]. split; [rewrite Hd; eauto|now left].
  - split.
    + intros [[d Hd] [Hno|Hex]].
      * exfalso. rewrite List.Forall_forall in Hno. exact (Hno l Hl Hk).
      * apply List.Exists_exists in Hex as [l' [Hl' [Hk' Hne]]].
        rewrite (Huniq l' Hl' Hk') in Hne. exists d. split; [exact Hd|].
        congruence.
    + intros [d [Hd Hne]]. split; [rewrite Hd; eauto|]. right.
      apply List.Exists_exists. exists l. split; [exact Hl|].
      split; [exact Hk|]. rewrite Hd. congruence.
Qed.

Lemma appended_rows now hist snap :
  List.NoDup (map key_l snap) ->
  forall stage,
  Forall2 (appended_from now) (appended now (mkDatabase hist stage snap))
    (filter (to_append snap) stage).
Proof.
  intros Hnd. induction stage as [|s stage IH]; [constructor|].
  rewrite appended_cons, filter_cons.
  pose proof (to_append_spec snap s Hnd) as Hspec.
  unfold left_join. cbn [flat_map]. rewrite app_nil_r.
  destruct (joined_once snap s Hnd) as [[E _]|[l [E _]]]; rewrite E in *;
    cbn [map]; rewrite selected_one.
  - destruct (decide (to_append snap s)) as [Ht|Ht].
    + pose proof (proj1 Hspec Ht) as Hc. rewrite Hc.
      apply holds_changed in Hc as [d [Hd _]]. rewrite Hd.
      constructor; [|exact IH]. repeat split. simpl. now rewrite Hd.
    + destruct (holds (changed (s, None))) eqn:Hc;
        [exfalso; apply Ht, Hspec; reflexivity|].
      destruct (s_data s); exact IH.
  - destruct (decide (to_append snap s)) as [Ht|Ht].
    + pose proof (proj1 Hspec Ht) as Hc. rewrite Hc.
      apply holds_changed in Hc as [d [Hd _]]. rewrite Hd.
      constructor; [|exact IH]. repeat split. simpl. now rewrite Hd.
    + destruct (holds (changed (s, Some l))) eqn:Hc;
        [exfalso; apply Ht, Hspec; reflexivity|].
      destruct (s_data s); exact IH.
Qed.

(** C1, amended. When no two rows of the history table have the same
    (tenant_id, id) and the same [updated], [mergeTable] first
    materializes the snapshot that holds, row for row and in the order of
    the history table, the id, data and tenant of the history rows that
    have no row with the same (tenant_id, id) and a strictly greater
    [updated]; it then appends to the history table one row for each
    staged row whose data is not NULL and whose key has no snapshot row or
    has a snapshot row with different data text, and no other row: once
    for each such staged row, in the order of the loading table, with the
    id, data and tenant of the staged row and the current database
    timestamp as [updated]. *)
Theorem mergeTable_two_statements (now : Z) (db : Database) :
  versioned (history db) ->
  let snapshot := latest_history (createLatestHistory db) in
  Forall2 snapshot_of snapshot
    (filter (latest_in (history db)) (history db)) /\
  exists new_rows,
    history (mergeTable now db) = (history db ++ new_rows)%list /\
    Forall2 (appended_from now) new_rows
      (filter (to_append snapshot) (loading db)).
Proof.
  intros Hv snapshot. split; [apply snapshot_rows|].
  exists (appended now (createLatestHistory db)).
  split; [apply history_mergeTable|].
  apply (appended_rows now (history db) snapshot (snapshot_keys db Hv)).
Qed.

(** C1, as stated, fails when two history rows of a key are tied for the
    greatest [updated]: with [tied_db] the snapshot holds both rows, and
    the one staged row is appended twice. *)
Lemma tied_snapshot_appends_twice :
  latest_history (createLatestHistory tied_db) =
    [mkLatestRow "x" "A" 1; mkLatestRow "x" "B" 1] /\
  loading tied_db = [mkStagedRow "x" (Some "C"%string) 1] /\
  history (mergeTable 11 tied_db) =
  (history tied_db
   ++ [mkHistoryRow "x" "C" 11 1; mkHistoryRow "x" "C" 11 1])%list.
Proof. repeat split; vm_compute; reflexivity. Qed.

Lemma mergeTable_two_statements_witness :
  Forall2 snapshot_of (latest_history (createLatestHistory tie_db))
    [mkHistoryRow "x" "A" 10 1] /\
  exists new_rows,
    history (mergeTable 11 tie_db) = (history tie_db ++ new_rows)%list /\
    Forall2 (appended_from 11) new_rows [mkStagedRow "x" (Some "B"%string) 1].
Proof.
  apply (mergeTable_two_statements 11 tie_db).
  repeat constructor. intros [].
Defined.

(** X4. When no two rows of the history table have the same
    (tenant_id, id) and the same [updated], the snapshot holds one row for
    a key at most, and the merge appends one row at most for a staged
    row: the appended rows are, in order, the rows of some of the staged
    rows, each taken once. *)
Theorem one_version_per_staged_row (now : Z) (db : Database) :
  versioned (history db) ->
  List.NoDup (map key_l (latest_history (createLatestHistory db))) /\
  exists (new_rows : list HistoryRow) (staged : list StagedRow),
    history (mergeTable now db) = (history db ++ new_rows)%list /\
    sublist staged (loading db) /\
    Forall2 (appended_from now) new_rows staged.
Proof.
  intros Hv. split; [exact (snapshot_keys db Hv)|].
  exists (appended now (createLatestHistory db)),
    (filter (to_append (latest_history (createLatestHistory db))) (loading db)).
  split; [apply history_mergeTable|]. split; [apply sublist_filter|].
  apply (appended_rows now (history db) _ (snapshot_keys db Hv)).
Qed.

Lemma one_version_per_staged_row_witness :
  List.NoDup (map key_l (latest_history (createLatestHistory tie_db))) /\
  exists (new_rows : list HistoryRow) (staged : list StagedRow),
    history (mergeTable 11 tie_db) = (history tie_db ++ new_rows)%list /\
    sublist staged (loading tie_db) /\
    Forall2 (appended_from 11) new_rows staged.
Proof.
  apply (one_version_per_staged_row 11 tie_db).
  repeat constructor. intros [].
Defined.

End MergeMore.

(** ** The texts: [looksLikeDateTime] and [encodeJSON] *)

Module TextFacts.

Import CStr Json Outcome Stage Driver Notions CStrFacts.
Local Open Scope string_scope.
Local Open Scope Z_scope.

Lemma match_digit p c r :
  match_atoms (Digit :: p) (String c r) =
  if is_digit c then match_atoms p r else None.
Proof. reflexivity. Qed.

Lemma match_char c' p c r :
  match_atoms (Char c' :: p) (String c r) =
  if code c =? code c' then match_atoms p r else None.
Proof. reflexivity. Qed.

Lemma match_end a p : match_atoms (a :: p) "" = None.
Proof. reflexivity. Qed.

Lemma code_eqb c c' : (code c =? code c') = true -> c = c'.
Proof. intros H. apply code_inj. lia. Qed.

Ltac eat_digit H s :=
  destruct s as [|?d s]; [rewrite match_end in H; discriminate H|];
  rewrite match_digit in H;
  match type of H with
  | (if is_digit ?c then _ else _) = _ =>
      destruct (is_digit c) eqn:?; [|discriminate H]
  end.

Ltac eat_char H s :=
  destruct s as [|?k s]; [rewrite match_end in H; discriminate H|];
  rewrite match_char in H;
  match type of H with
  | (if ?b then _ else _) = _ =>
      let E := fresh "E" in
      destruct b eqn:E; [apply code_eqb in E; subst|discriminate H]
  end.

Lemma digits_2 a b : is_digit a = true -> is_digit b = true ->
  digits 2 (String a (String b "")).
Proof. intros Ha Hb. split; [reflexivity|]. simpl. now rewrite Ha, Hb. Qed.

Lemma digits_3 a b c : is_digit a = true -> is_digit b = true ->
  is_digit c = true -> digits 3 (String a (String b (String c ""))).
Proof. intros Ha Hb Hc. split; [reflexivity|]. simpl. now rewrite Ha, Hb, Hc. Qed.

Lemma digits_4 a b c d : is_digit a = true -> is_digit b = true ->
  is_digit c = true -> is_digit d = true ->
  digits 4 (String a (String b (String c (String d "")))).
Proof.
  intros Ha Hb Hc Hd. split; [reflexivity|]. simpl. now rewrite Ha, Hb, Hc, Hd.
Qed.

Lemma match_text c p r :
  match_atoms (Char c :: p) (String c "" ++ r) = match_atoms p r.
Proof.
  change (String c "" ++ r) with (String c r).
  rewrite match_char, Z.eqb_refl. reflexivity.
Qed.

Lemma match_digits n : forall s p r,
  digits n s ->
  match_atoms (replicate n Digit ++ p) (s ++ r) = match_atoms p r.
Proof.
  induction n as [|n IH]; intros [|c s] p r [Hl Hd]; try discriminate Hl.
  - reflexivity.
  - simpl in Hl, Hd. apply andb_prop in Hd as [Hc Hd].
    change (match_atoms (Digit :: (replicate n Digit ++ p)%list) (String c (s ++ r)) =
            match_atoms p r).
    rewrite match_digit, Hc. apply IH. split; [congruence|exact Hd].
Qed.

(** X5. [looksLikeDateTime] accepts exactly the C strings of the form
    [YYYY-MM-DDThh:mm:ss] followed by [Z] or by [.fff+zzzz], where every
    letter stands for a decimal digit; nothing may precede or follow, and
    the numbers are not checked for being a date. *)
Theorem looksLikeDateTime_format (str : string) :
  looksLikeDateTime str = true <->
  exists Y M D h m s zone,
    digits 4 Y /\ digits 2 M /\ digits 2 D /\
    digits 2 h /\ digits 2 m /\ digits 2 s /\
    (zone = "Z" \/
     exists f z, digits 3 f /\ digits 4 z /\ zone = "." ++ f ++ "+" ++ z) /\
    c_str str =
      Y ++ "-" ++ M ++ "-" ++ D ++ "T" ++ h ++ ":" ++ m ++ ":" ++ s ++ zone.
Proof.
  unfold looksLikeDateTime. cbv zeta.
  change (two_digits ++ two_digits ++ [Char "-"] ++ two_digits ++ [Char "-"] ++
          two_digits ++ [Char "T"] ++ two_digits ++ [Char ":"] ++ two_digits ++
          [Char ":"] ++ two_digits)%list
    with [Digit; Digit; Digit; Digit; Char "-"; Digit; Digit; Char "-"; Digit;
          Digit; Char "T"; Digit; Digit; Char ":"; Digit; Digit; Char ":";
          Digit; Digit].
  change ([Char "."; Digit; Digit; Digit; Char "+"] ++ two_digits ++ two_digits)%list
    with [Char "."; Digit; Digit; Digit; Char "+"; Digit; Digit; Digit; Digit].
  set (zp := [Char "."; Digit; Digit; Digit; Char "+"; Digit; Digit; Digit; Digit]).
  generalize (c_str str) as t. intros t. split.
  - destruct (match_atoms _ t) as [rest|] eqn:Hhead; [|discriminate].
    intros H.
    do 4 eat_digit Hhead t. eat_char Hhead t.
    do 2 eat_digit Hhead t. eat_char Hhead t.
    do 2 eat_digit Hhead t. eat_char Hhead t.
    do 2 eat_digit Hhead t. eat_char Hhead t.
    do 2 eat_digit Hhead t. eat_char Hhead t.
    do 2 eat_digit Hhead t.
    simpl in Hhead. injection Hhead as ->.
    eexists (String d (String d0 (String d1 (String d2 "")))),
            (String d3 (String d4 "")), (String d5 (String d6 "")),
            (String d7 (String d8 "")), (String d9 (String d10 "")),
            (String d11 (String d12 "")), rest.
    repeat (split; [first [now apply digits_4 | now apply digits_2]|]).
    split; [|reflexivity].
    destruct (match_atoms [Char "Z"] rest) as [[|]|] eqn:HZ.
    + left. eat_char HZ rest. simpl in HZ. now injection HZ as ->.
    + right. destruct (match_atoms zp rest) as [[|]|] eqn:Hzone; try discriminate H.
      clear HZ. unfold zp in Hzone.
      eat_char Hzone rest. do 3 eat_digit Hzone rest. eat_char Hzone rest.
      do 4 eat_digit Hzone rest. simpl in Hzone. injection Hzone as ->.
      eexists (String d13 (String d14 (String d15 ""))),
              (String d16 (String d17 (String d18 (String d19 "")))).
      split; [now apply digits_3|]. split; [now apply digits_4|]. reflexivity.
    + right. destruct (match_atoms zp rest) as [[|]|] eqn:Hzone; try discriminate H.
      clear HZ. unfold zp in Hzone.
      eat_char Hzone rest. do 3 eat_digit Hzone rest. eat_char Hzone rest.
      do 4 eat_digit Hzone rest. simpl in Hzone. injection Hzone as ->.
      eexists (String d13 (String d14 (String d15 ""))),
              (String d16 (String d17 (String d18 (String d19 "")))).
      split; [now apply digits_3|]. split; [now apply digits_4|]. reflexivity.
  - intros (Y & M & D & h & m & s & zone & HY & HM & HD & Hh & Hm & Hs & Hzone & ->).
    change [Digit; Digit; Digit; Digit; Char "-"; Digit; Digit; Char "-"; Digit;
            Digit; Char "T"; Digit; Digit; Char ":"; Digit; Digit; Char ":";
            Digit; Digit]
      with (replicate 4 Digit ++ Char "-" :: replicate 2 Digit ++ Char "-" ::
            replicate 2 Digit ++ Char "T" :: replicate 2 Digit ++ Char ":" ::
            replicate 2 Digit ++ Char ":" :: replicate 2 Digit ++ [])%list.
    rewrite (match_digits 4 Y), match_text, (match_digits 2 M), match_text,
      (match_digits 2 D), match_text, (match_digits 2 h), match_text,
      (match_digits 2 m), match_text, (match_digits 2 s) by assumption.
    simpl match_atoms at 1.
    destruct Hzone as [->|(f & z & Hf & Hz & ->)].
    + change (match_atoms [Char "Z"] "Z") with (Some "").
      now destruct (match_atoms zp _) as [[|]|].
    + unfold zp.
      change [Char "."; Digit; Digit; Digit; Char "+"; Digit; Digit; Digit; Digit]
        with (Char "." :: replicate 3 Digit ++ Char "+" :: replicate 4 Digit ++ [])%list.
      rewrite <- (string_app_nil_r z).
      rewrite match_text, (match_digits 3 f), match_text, (match_digits 4 z)
        by assumption.
      reflexivity.
Qed.

(** *** [encodeJSON] *)

Lemma code_lt c : 0 <= code c < 256.
Proof.
  unfold code. pose proof (nat_ascii_bounded c). lia.
Qed.

Lemma code_ascii_of_nat n : (n < 256)%nat -> code (ascii_of_nat n) = Z.of_nat n.
Proof. intros H. unfold code. now rewrite nat_ascii_embedding. Qed.

Lemma ascii_of_code c : ascii_of_nat (Z.to_nat (code c)) = c.
Proof. unfold code. rewrite Nat2Z.id. apply ascii_nat_embedding. Qed.

Lemma code_hex_digit n :
  0 <= n < 16 -> code (hex_digit n) = if n <? 10 then 48 + n else 55 + n.
Proof.
  intros H. unfold hex_digit. rewrite code_ascii_of_nat.
  - destruct (n <? 10); lia.
  - destruct (n <? 10) eqn:E; lia.
Qed.

Lemma is_hex_hex_digit n : 0 <= n < 16 -> is_hex (hex_digit n) = true.
Proof.
  intros H. unfold is_hex, is_digit. rewrite (code_hex_digit n H).
  destruct (n <? 10) eqn:E.
  - apply Z.ltb_lt in E.
    replace (48 <=? 48 + n) with true by (symmetry; apply Z.leb_le; lia).
    replace (48 + n <=? 57) with true by (symmetry; apply Z.leb_le; lia).
    reflexivity.
  - apply Z.ltb_ge in E.
    replace (65 <=? 55 + n) with true by (symmetry; apply Z.leb_le; lia).
    replace (55 + n <=? 70) with true by (symmetry; apply Z.leb_le; lia).
    simpl. now rewrite orb_true_r.
Qed.

Lemma isprint_hex_digit n : 0 <= n < 16 -> isprint (hex_digit n) = true.
Proof.
  intros H. unfold isprint. rewrite (code_hex_digit n H).
  apply andb_true_intro. destruct (n <? 10) eqn:E.
  - apply Z.ltb_lt in E. split; apply Z.leb_le; lia.
  - apply Z.ltb_ge in E. split; apply Z.leb_le; lia.
Qed.

Lemma hex_value_hex_digit n : 0 <= n < 16 -> hex_value (hex_digit n) = n.
Proof.
  intros H. unfold hex_value. rewrite (code_hex_digit n H).
  destruct (n <? 10) eqn:E.
  - apply Z.ltb_lt in E.
    replace (48 + n <? 58) with true by (symmetry; apply Z.ltb_lt; lia). lia.
  - apply Z.ltb_ge in E.
    replace (55 + n <? 58) with false by (symmetry; apply Z.ltb_ge; lia). lia.
Qed.

(** The nine cases of [encode_char]. *)
Lemma encode_char_cases c :
  (code c = 34 /\ encode_char c = backslash ++ quote) \/
  (code c = 92 /\ encode_char c = backslash ++ backslash) \/
  (code c = 8 /\ encode_char c = backslash ++ "b") \/
  (code c = 12 /\ encode_char c = backslash ++ "f") \/
  (code c = 10 /\ encode_char c = backslash ++ "n") \/
  (code c = 13 /\ encode_char c = backslash ++ "r") \/
  (code c = 9 /\ encode_char c = backslash ++ "t") \/
  (isprint c = true /\ code c <> 34 /\ code c <> 92 /\
     encode_char c = String c "") \/
  (isprint c = false /\
     code c <> 8 /\ code c <> 12 /\ code c <> 10 /\ code c <> 13 /\ code c <> 9 /\
     encode_char c = backslash ++ "u00" ++
       String (hex_digit (code c / 16)) (String (hex_digit (code c mod 16)) "")).
Proof.
  unfold encode_char.
  repeat match goal with
  | |- context [if ?a =? ?b then _ else _] =>
      destruct (Z.eqb_spec a b); [tauto|]
  end.
  destruct (isprint c) eqn:E; [|tauto].
  do 7 right. left. tauto.
Qed.

Lemma nibbles c : 0 <= code c / 16 < 16 /\ 0 <= code c mod 16 < 16.
Proof.
  pose proof (code_lt c) as Hc. split.
  - split; [apply Z.div_pos|apply Z.div_lt_upper_bound]; lia.
  - apply Z.mod_pos_bound. lia.
Qed.

Lemma json_chars_encode_char c t :
  json_chars (encode_char c ++ t) = json_chars t.
Proof.
  destruct (nibbles c) as [Hhi Hlo].
  destruct (encode_char_cases c) as
    [[_ ->]|[[_ ->]|[[_ ->]|[[_ ->]|[[_ ->]|[[_ ->]|[[_ ->]|[(Hp & H1 & H2 & ->)|(_ & _ & _ & _ & _ & _ & ->)]]]]]]]];
    try reflexivity.
  - change (String c "" ++ t) with (String c t). simpl.
    unfold isprint in Hp. apply andb_prop in Hp as [Hp _].
    destruct (Z.eqb_spec (code c) 92); [contradiction|].
    destruct (Z.eqb_spec (code c) 34); [contradiction|].
    now rewrite Hp.
  - cbv beta iota delta [String.append backslash].
    change (json_chars (String "\" (String "u" (String "0" (String "0"
             (String (hex_digit (code c / 16)) (String (hex_digit (code c mod 16)) t)))))))
      with (is_hex "0" && is_hex "0" && is_hex (hex_digit (code c / 16))
            && is_hex (hex_digit (code c mod 16)) && json_chars t).
    now rewrite !is_hex_hex_digit by assumption.
Qed.

Lemma printable_encode_char c t :
  printable (encode_char c ++ t) = printable t.
Proof.
  destruct (nibbles c) as [Hhi Hlo].
  destruct (encode_char_cases c) as
    [[_ ->]|[[_ ->]|[[_ ->]|[[_ ->]|[[_ ->]|[[_ ->]|[[_ ->]|[(Hp & H1 & H2 & ->)|(_ & _ & _ & _ & _ & _ & ->)]]]]]]]];
    try reflexivity.
  - change (String c "" ++ t) with (String c t). simpl. now rewrite Hp.
  - cbv beta iota delta [String.append backslash].
    change (printable (String "\" (String "u" (String "0" (String "0"
             (String (hex_digit (code c / 16)) (String (hex_digit (code c mod 16)) t)))))))
      with (isprint (hex_digit (code c / 16))
            && (isprint (hex_digit (code c mod 16)) && printable t)).
    now rewrite !isprint_hex_digit by assumption.
Qed.

(** X6. The text that [encodeJSON] writes for any string can stand
    between the quotes of a JSON string: it has no bare quote or control
    character, every backslash in it begins an escape of JSON, and all of
    it is printable ASCII. *)
Theorem encodeJSON_well_formed (str : string) :
  json_chars (encodeJSON str) = true /\ printable (encodeJSON str) = true.
Proof.
  induction str as [|c r [IH1 IH2]]; [split; reflexivity|]. simpl.
  destruct (code c =? 0); [split; reflexivity|].
  now rewrite json_chars_encode_char, printable_encode_char.
Qed.

Lemma read_char_encode_char c t :
  read_char (encode_char c ++ t) = Some (c, t).
Proof.
  destruct (nibbles c) as [Hhi Hlo]. pose proof (code_lt c) as Hc.
  destruct (encode_char_cases c) as
    [[E ->]|[[E ->]|[[E ->]|[[E ->]|[[E ->]|[[E ->]|[[E ->]|[(Hp & H1 & H2 & ->)|(_ & _ & _ & _ & _ & _ & ->)]]]]]]]];
    try (cbv beta iota delta [String.append backslash quote]; simpl;
         rewrite <- (ascii_of_code c), E; reflexivity).
  - change (String c "" ++ t) with (String c t). simpl.
    destruct (Z.eqb_spec (code c) 92); [contradiction|]. reflexivity.
  - cbv beta iota delta [String.append backslash].
    change (read_char (String "\" (String "u" (String "0" (String "0"
             (String (hex_digit (code c / 16)) (String (hex_digit (code c mod 16)) t)))))))
      with (Some (ascii_of_nat (Z.to_nat (16 * hex_value (hex_digit (code c / 16))
                                          + hex_value (hex_digit (code c mod 16)))), t)).
    rewrite !hex_value_hex_digit by assumption.
    rewrite <- (Z.div_mod (code c) 16) by lia. now rewrite ascii_of_code.
Qed.

(** X7. [encodeJSON] loses nothing: two strings with the same encoding are
    the same C string. *)
Theorem encodeJSON_injective (s1 s2 : string) :
  encodeJSON s1 = encodeJSON s2 -> c_str s1 = c_str s2.
Proof.
  revert s2. induction s1 as [|c1 r1 IH]; intros [|c2 r2]; simpl.
  - reflexivity.
  - destruct (code c2 =? 0); [reflexivity|]. intros H.
    apply (f_equal read_char) in H. rewrite read_char_encode_char in H.
    discriminate H.
  - destruct (code c1 =? 0); [reflexivity|]. intros H.
    apply (f_equal read_char) in H. rewrite read_char_encode_char in H.
    discriminate H.
  - destruct (code c1 =? 0) eqn:E1, (code c2 =? 0) eqn:E2; intros H.
    + reflexivity.
    + apply (f_equal read_char) in H. rewrite read_char_encode_char in H.
      discriminate H.
    + apply (f_equal read_char) in H. rewrite read_char_encode_char in H.
      discriminate H.
    + apply (f_equal read_char) in H. rewrite !read_char_encode_char in H.
      injection H as -> H. f_equal. apply IH. exact H.
Qed.

Lemma encodeJSON_injective_witness :
  c_str ("a" ++ String (ascii_of_nat 0) "b") = c_str "a".
Proof.
  apply encodeJSON_injective. reflexivity.
Defined.

(** X8. A C string of printable characters without quote and backslash is
    written as it is. *)
Theorem encodeJSON_plain_text (str : string) :
  plain_text (c_str str) = true -> encodeJSON str = c_str str.
Proof.
  induction str as [|c r IH]; [reflexivity|]. simpl.
  destruct (code c =? 0) eqn:E0; [reflexivity|]. simpl.
  intros H. apply andb_prop in H as [H Hr]. apply andb_prop in H as [H H92].
  apply andb_prop in H as [Hp H34].
  rewrite (IH Hr). unfold encode_char.
  apply negb_true_iff in H34, H92. rewrite H34, H92.
  unfold isprint in Hp. apply andb_prop in Hp as [Hlo Hhi].
  apply Z.leb_le in Hlo.
  repeat match goal with
  | |- context [if ?a =? ?b then _ else _] =>
      destruct (Z.eqb_spec a b); [lia|]
  end.
  unfold isprint. apply Z.leb_le in Hlo. rewrite Hlo, Hhi. reflexivity.
Qed.

Lemma encodeJSON_plain_text_witness :
  encodeJSON "2020-01-02T03:04:05Z" = "2020-01-02T03:04:05Z".
Proof.
  apply (encodeJSON_plain_text "2020-01-02T03:04:05Z"). reflexivity.
Defined.

End TextFacts.

(** ** More on the traversal: order of members and statistics *)

Module TraversalFacts.

Import CStr Json Outcome Stage Driver Notions StageExamples MoreExamples.
Import CStrFacts JsonFacts StageFacts.
Local Close Scope Z_scope.
Local Open Scope string_scope.

(** *** Records that differ in the order of their members *)

Lemma sorted_perm_eq {A} (R : A -> A -> Prop) (l1 : list A) : forall l2,
  StronglySorted R l1 -> StronglySorted R l2 -> Permutation l1 l2 ->
  (forall x y, In x l1 -> In y l1 -> R x y -> R y x -> x = y) ->
  l1 = l2.
Proof.
  induction l1 as [|a l1 IH]; intros l2 S1 S2 Hp Hanti.
  - apply Permutation_nil in Hp. now subst.
  - destruct l2 as [|b l2].
    { symmetry in Hp. apply Permutation_nil in Hp. discriminate. }
    inversion S1 as [|? ? S1' F1]; subst. inversion S2 as [|? ? S2' F2]; subst.
    assert (Hab : a = b).
    { assert (Ha : In a (b :: l2)) by (apply (Permutation_in _ Hp); now left).
      assert (Hb : In b (a :: l1))
        by (apply (Permutation_in _ (Permutation_sym Hp)); now left).
      destruct Ha as [->|Ha]; [reflexivity|]. destruct Hb as [->|Hb]; [reflexivity|].
      apply Hanti; [now left|now right| |].
      - rewrite List.Forall_forall in F1. apply F1. exact Hb.
      - rewrite List.Forall_forall in F2. apply F2. exact Ha. }
    subst b. f_equal. apply IH; auto.
    + eapply Permutation_cons_inv. exact Hp.
    + intros x y Hx Hy. apply Hanti; now right.
Qed.

Lemma canonical_before ms : canonical ms -> StronglySorted before ms.
Proof.
  intros (ids & others & -> & Hids & Hothers & Hsorted).
  induction Hids as [|a ids Ha Hids IH].
  - simpl. induction Hsorted as [|a others Hs IHs Hall]; [constructor|].
    inversion Hothers as [|? ? Hna Hothers']; subst.
    constructor; [auto|].
    rewrite List.Forall_forall in *. intros x Hx. right. split; auto.
  - simpl. constructor; [exact IH|].
    rewrite List.Forall_forall. intros x _. now left.
Qed.

Lemma before_antisym m1 m2 : before m1 m2 -> before m2 m1 -> c_name m1 = c_name m2.
Proof.
  unfold before, is_id, name_le, c_name.
  intros [H1|[Hn2 H12]] [H2|[Hn1 H21]]; try contradiction.
  - apply strcmp_eq in H1, H2. congruence.
  - apply strcmp_eq. rewrite strcmp_antisym in H21. lia.
Qed.

Lemma NoDup_fmap_eq {A B} (f : A -> B) (l : list A) x y :
  NoDup (f <$> l) -> In x l -> In y l -> f x = f y -> x = y.
Proof.
  induction l as [|a l IH]; [intros _ []|].
  rewrite fmap_cons. intros Hnd Hx Hy Hf. apply NoDup_cons in Hnd as [Hnotin Hnd].
  destruct Hx as [->|Hx], Hy as [->|Hy]; auto.
  - exfalso. apply Hnotin. rewrite Hf. apply list_elem_of_fmap_2.
    now apply list_elem_of_In.
  - exfalso. apply Hnotin. rewrite <- Hf. apply list_elem_of_fmap_2.
    now apply list_elem_of_In.
Qed.

(** Members with different names have one canonical order. *)
Lemma sort_members_order ms ms' :
  Permutation ms ms' -> NoDup (c_name <$> ms) ->
  sort_members ms = sort_members ms'.
Proof.
  intros Hp Hnd.
  destruct (sort_members_sorted ms) as [P1 C1].
  destruct (sort_members_sorted ms') as [P2 C2].
  apply (sorted_perm_eq before).
  - now apply canonical_before.
  - now apply canonical_before.
  - rewrite P1, Hp. symmetry. exact P2.
  - intros x y Hx Hy Hxy Hyx.
    apply (NoDup_fmap_eq c_name ms); auto.
    + apply (Permutation_in _ P1). exact Hx.
    + apply (Permutation_in _ P1). exact Hy.
    + now apply before_antisym.
Qed.

Lemma distinct_names_object ms :
  distinct_names (kObject ms) <->
  NoDup (c_name <$> ms) /\ Forall (fun m : Member => distinct_names (snd m)) ms.
Proof.
  simpl.
  rewrite (foldr_and_Forall (fun m : Member => let '(_, e) := m in distinct_names e)).
  split; intros [H1 H2]; (split; [exact H1|]);
    (eapply Forall_impl; [exact H2|]); now intros [n e].
Qed.

Lemma distinct_names_array l :
  distinct_names (kArray l) <-> Forall distinct_names l.
Proof. simpl. apply foldr_and_Forall. Qed.

Lemma canon_reordered_eq (doc doc' : Value) :
  reordered doc doc' -> distinct_names doc -> canon doc = canon doc'.
Proof.
  revert doc'.
  induction doc as [ | b | n | s | l IHl | ms IHms ] using Value_nested_ind;
    intros doc' Hr Hd;
    inversion Hr as [ | | | | ? l' Hl | ? ms' ms'' Hp Hms ]; subst;
    try reflexivity.
  - simpl. f_equal. apply distinct_names_array in Hd.
    clear Hr. revert l' Hl. induction l as [|a l IH]; intros l' Hl;
      inversion Hl; subst; [reflexivity|].
    inversion IHl; subst. inversion Hd; subst.
    rewrite !fmap_cons. f_equal; auto.
  - rewrite !canon_kObject. f_equal.
    apply distinct_names_object in Hd as [Hnd Hd].
    assert (Hsame : canon_member <$> ms' = canon_member <$> ms'').
    { assert (IH' : Forall (fun m : Member =>
                forall v', reordered (snd m) v' -> canon (snd m) = canon v') ms').
      { rewrite <- Hp. rewrite Forall_forall in IHms, Hd. apply Forall_forall.
        intros m Hm v' Hv. apply IHms; auto. }
      clear - Hms IH'.
      induction Hms as [|m m' ms' ms'' [Hn Hv] Hms IH]; [reflexivity|].
      inversion IH'; subst. rewrite !fmap_cons. f_equal; auto.
      unfold canon_member. f_equal; auto. }
    rewrite <- Hsame. apply sort_members_order.
    + now apply fmap_Permutation.
    + rewrite <- list_fmap_compose. exact Hnd.
Qed.






Lemma insert_member_Forall2 (R : Member -> Member -> Prop) m m' l l' :
  (forall x x', R x x' -> fst x = fst x') ->
  R m m' -> Forall2 R l l' ->
  Forall2 R (insert_member m l) (insert_member m' l').
Proof.
  intros Hfst Hm Hl. induction Hl as [|a a' l l' Ha Hl IH]; simpl.
  - constructor; [exact Hm|constructor].
  - rewrite (NameComparator_fst m a m' a') by (apply Hfst; assumption).
    destruct (NameComparator m' a').
    + constructor; [exact Hm|]. constructor; [exact Ha|exact Hl].
    + constructor; [exact Ha|exact IH].
Qed.

Lemma sort_members_Forall2 (R : Member -> Member -> Prop) l l' :
  (forall x x', R x x' -> fst x = fst x') ->
  Forall2 R l l' -> Forall2 R (sort_members l) (sort_members l').
Proof.
  intros Hfst. induction 1 as [|a a' l l' Ha Hl IH]; [constructor|].
  now apply insert_member_Forall2.
Qed.

(** *** The statistics of a traversal *)

Local Close Scope string_scope.

Section TallyFacts.
Context {policy : Anonymize} {util : Util}.

Lemma process_tally : forall v fuel node root cs path depth stats,
  at_loc root node = Some v -> weight v <= fuel ->
  processJSONRecord fuel node cs false path depth (root, stats) =
  Ok (modify (fun _ => canon v) node root, tally cs depth path v stats).
Proof.
  induction v as [ | b | n | s | l IHl | ms IHms ] using Value_nested_ind;
    intros [|fuel] node root cs path depth stats Hat Hw;
    try (simpl in Hw; lia); simpl processJSONRecord; rewrite Hat.
  - simpl. rewrite (modify_same _ _ _ Hat). unfold tally.
    destruct cs, depth as [|[|d]]; reflexivity.
  - simpl. rewrite (modify_same _ _ _ Hat). unfold tally.
    destruct cs, depth as [|[|d]]; reflexivity.
  - simpl. rewrite (modify_same _ _ _ Hat), ?Hat. unfold tally.
    destruct cs, depth as [|[|d]]; simpl; rewrite ?Hat; reflexivity.
  - simpl. rewrite (modify_same _ _ _ Hat), ?Hat. unfold tally.
    destruct cs, depth as [|[|d]]; simpl; rewrite ?Hat; reflexivity.
  - (* array *)
    simpl in Hw.
    set (part := fun x : nat =>
           if cs then match depth with
                      | O => foldl (count_element path) stats (take x (imap pair l))
                      | _ => stats
                      end
           else stats).
    edestruct (iterate_for
      (fun (x : nat) (st : Value * Stats) =>
         match at_loc st.1 node with
         | Some (kArray l0) => Ok (x <? length l0)
         | _ => Fault
         end)
      (fun (x : nat) (st : Value * Stats) =>
         processJSONRecord fuel (node ++ [x]) cs false
           (path +:+ "/" +:+ to_string (Z.of_nat x)) (S depth) st)
      (length l)
      (fun x st =>
         st.1 = modify (fun _ => kArray ((canon <$> take x l) ++ drop x l)) node root
         /\ st.2 = part x)
      ) as [[r s'] [Hit [Hinv1 Hinv2]]]; cycle 5.
    + rewrite Hit. simpl in Hinv1, Hinv2. rewrite Hinv1, Hinv2.
      rewrite firstn_all, drop_all, app_nil_r. f_equal. f_equal.
      unfold part, tally. destruct cs; [|reflexivity].
      destruct depth as [|[|d]]; try reflexivity.
      simpl. rewrite <- (length_imap pair l), firstn_all. reflexivity.
    + intros x [r s'] Hx [Hinv _]. simpl in *. subst r.
      erewrite at_loc_modify by exact Hat. now rewrite step_length.
    + intros x [r s'] Hx [Hinv Hst]. simpl in Hinv, Hst. subst r s'.
      destruct (lookup_lt_is_Some_2 l x Hx) as [lx Hlx].
      pose proof (proj1 (Forall_lookup _ _) IHl x lx Hlx) as IHx.
      rewrite (IHx fuel (node ++ [x])
                 (modify (fun _ => kArray ((canon <$> take x l) ++ drop x l)) node root)
                 cs (path +:+ "/" +:+ to_string (Z.of_nat x)) (S depth) (part x)).
      * eexists. split; [reflexivity|]. simpl. split.
        -- rewrite modify_app, modify_modify. simpl.
           erewrite <- step_list by exact Hlx. reflexivity.
        -- unfold part, tally. destruct cs; [|reflexivity].
           destruct depth as [|d]; [|reflexivity].
           rewrite (take_S_r (imap pair l) x (x, lx)), foldl_app.
           ++ reflexivity.
           ++ rewrite list_lookup_imap, Hlx. reflexivity.
      * rewrite at_loc_app. erewrite at_loc_modify by exact Hat. simpl.
        rewrite step_lookup, Hlx. reflexivity.
      * pose proof (weight_lookup l x lx Hlx). lia.
    + lia.
    + lia.
    + simpl. rewrite drop_0, (modify_same _ _ _ Hat). split; [reflexivity|].
      unfold part. destruct cs, depth; reflexivity.
  - (* object *)
    simpl in Hw.
    set (S0 := sort_members ms).
    assert (Hperm : Permutation S0 ms) by apply sort_members_perm.
    assert (Hlen : length S0 = length ms) by (now apply Permutation_length).
    set (part := fun x : nat =>
           if cs then match depth with
                      | O => foldl (count_member path) stats (take x S0)
                      | _ => stats
                      end
           else stats).
    edestruct (iterate_for
      (fun (x : nat) (st : Value * Stats) =>
         match at_loc st.1 node with
         | Some (kObject ms0) => Ok (x <? length ms0)
         | _ => Fault
         end)
      (fun (x : nat) (st : Value * Stats) =>
         match at_loc st.1 node ≫= (fun v => child_name v x) with
         | Some name =>
             processJSONRecord fuel (node ++ [x]) cs false
               (path +:+ "/" +:+ c_str name) (S depth) st
         | None => Fault
         end)
      (length S0)
      (fun x st =>
         st.1 = modify (fun _ => kObject ((canon_member <$> take x S0) ++ drop x S0))
                  node root
         /\ st.2 = part x)
      ) as [[r s'] [Hit [Hinv1 Hinv2]]]; cycle 5.
    + rewrite Hit. simpl in Hinv1, Hinv2. rewrite Hinv1, Hinv2.
      rewrite firstn_all, drop_all, app_nil_r, canon_kObject.
      rewrite sort_members_fmap by reflexivity. f_equal. f_equal.
      unfold part, tally. destruct cs; [|reflexivity].
      destruct depth as [|[|d]]; try reflexivity.
      simpl. rewrite firstn_all. reflexivity.
    + intros x [r s'] Hx [Hinv _]. simpl in *. subst r.
      erewrite at_loc_modify by exact Hat. now rewrite step_length.
    + intros x [r s'] Hx [Hinv Hst]. simpl in Hinv, Hst. subst r s'.
      destruct (lookup_lt_is_Some_2 S0 x Hx) as [[n vx] Hmx].
      assert (Hin : In (n, vx) ms).
      { apply (Permutation_in _ Hperm). apply list_elem_of_In.
        eapply list_elem_of_lookup_2; eauto. }
      pose proof (proj1 (Forall_forall _ _) IHms (n, vx)
                    ltac:(apply list_elem_of_In; exact Hin)) as IHx.
      simpl in IHx.
      simpl. erewrite at_loc_modify by exact Hat. simpl.
      rewrite step_lookup. rewrite Hmx. simpl.
      rewrite (IHx fuel (node ++ [x])
                 (modify (fun _ => kObject ((canon_member <$> take x S0) ++ drop x S0))
                    node root)
                 cs (path +:+ "/" +:+ c_str n) (S depth) (part x)).
      * eexists. split; [reflexivity|]. simpl. split.
        -- rewrite modify_app, modify_modify. simpl.
           rewrite (step_list_member S0 x n vx Hmx). reflexivity.
        -- unfold part, tally. destruct cs; [|reflexivity].
           destruct depth as [|d]; [|reflexivity].
           rewrite (take_S_r S0 x (n, vx) Hmx), foldl_app. reflexivity.
      * rewrite at_loc_app. erewrite at_loc_modify by exact Hat. simpl.
        rewrite step_lookup, Hmx. reflexivity.
      * pose proof (weight_member ms (n, vx) Hin). simpl in *. lia.
    + lia.
    + lia.
    + simpl. rewrite drop_0. split.
      * apply (modify_ext _ _ _ _ _ Hat). reflexivity.
      * unfold part. destruct cs, depth; reflexivity.
Qed.

Local Open Scope string_scope.

Lemma count_value_reordered path v v' (stats : Stats) :
  reordered v v' -> count_value path v stats = count_value path v' stats.
Proof. intros H. inversion H; reflexivity. Qed.

Lemma count_members_alike path l l' : Forall2 alike l l' ->
  forall stats : Stats,
  foldl (count_member path) stats l = foldl (count_member path) stats l'.
Proof.
  induction 1 as [|a a' l l' [Hn Hv] Hl IH]; intros stats; [reflexivity|].
  simpl. rewrite IH. f_equal. unfold count_member. rewrite Hn.
  now apply count_value_reordered.
Qed.

Lemma count_elements_reordered path l l' : Forall2 reordered l l' ->
  forall (stats : Stats) (g : nat -> nat),
  foldl (count_element path) stats (imap (fun x => pair (g x)) l) =
  foldl (count_element path) stats (imap (fun x => pair (g x)) l').
Proof.
  induction 1 as [|a a' l l' Hv Hl IH]; intros stats g; [reflexivity|].
  simpl. rewrite (IH _ (fun x => g (S x))). f_equal. unfold count_element. simpl.
  now apply count_value_reordered.
Qed.

Lemma count_children_reordered doc doc' (stats : Stats) :
  reordered doc doc' -> distinct_names doc ->
  count_children "" doc stats = count_children "" doc' stats.
Proof.
  intros Hr Hd. inversion Hr as [ | | | | l l' Hl | ms ms' ms'' Hp Hms ]; subst;
    try reflexivity.
  - simpl. exact (count_elements_reordered "" l l' Hl stats (fun x => x)).
  - simpl. apply distinct_names_object in Hd as [Hnd _].
    rewrite (sort_members_order ms ms' Hp Hnd).
    apply count_members_alike. apply sort_members_Forall2; [|exact Hms].
    now intros x x' [Hx _].
Qed.

(** X9. The order in which a record lists its members does not matter:
    when the table is not anonymized, two records that differ only in the
    order of the members of their objects, and whose objects have members
    of different names, leave [processJSONRecord] as the same document and
    with the same statistics. *)
Theorem member_order_is_irrelevant (doc doc' : Value) (collectStats : bool)
    (stats : Stats) (fuel : nat) :
  reordered doc doc' -> distinct_names doc ->
  (weight doc <= fuel)%nat -> (weight doc' <= fuel)%nat ->
  exists result,
    processJSONRecord fuel [] collectStats false "" 0 (doc, stats) = Ok result /\
    processJSONRecord fuel [] collectStats false "" 0 (doc', stats) = Ok result.
Proof.
  intros Hr Hd Hw Hw'.
  exists (canon doc, tally collectStats 0 "" doc stats). split.
  - exact (process_tally doc fuel [] doc collectStats "" 0%nat stats eq_refl Hw).
  - rewrite (canon_reordered_eq doc doc' Hr Hd).
    replace (tally collectStats 0 "" doc stats)
      with (tally collectStats 0 "" doc' stats).
    + exact (process_tally doc' fuel [] doc' collectStats "" 0%nat stats eq_refl Hw').
    + unfold tally. destruct collectStats; [|reflexivity].
      symmetry. now apply count_children_reordered.
Qed.



Lemma iterate_keeps {St : Type} (P : St -> Prop)
    (continue : nat -> St -> Result bool) (visit : nat -> St -> Result St) :
  (forall x st st', P st -> visit x st = Ok st' -> P st') ->
  forall fuel x st st', P st -> iterate continue visit fuel x st = Ok st' -> P st'.
Proof.
  intros Hv. induction fuel as [|fuel IH]; intros x st st' HP; simpl;
    [discriminate|].
  destruct (continue x st) as [[|]| |]; simpl; try discriminate.
  - destruct (visit x st) as [st1| |] eqn:E; simpl; try discriminate.
    apply IH. eapply Hv; eauto.
  - intros [= <-]. exact HP.
Qed.

Lemma process_keeps_stats : forall fuel node a path depth root stats r,
  processJSONRecord fuel node false a path depth (root, stats) = Ok r ->
  r.2 = stats.
Proof.
  induction fuel as [|fuel IH]; intros node a path depth root stats r;
    simpl processJSONRecord; [discriminate|].
  destruct (at_loc root node) as [[ | b | n | s | l | ms ]|]; try discriminate.
  - intros [= <-]. reflexivity.
  - destruct (anonymize _ _ _ _); simpl; try discriminate. intros [= <-]. reflexivity.
  - destruct (anonymize _ _ _ _); simpl; try discriminate. intros [= <-]. reflexivity.
  - destruct (anonymize _ _ _ _); simpl; try discriminate. intros [= <-]. reflexivity.
  - apply (iterate_keeps (fun st : Value * Stats => st.2 = stats)); [|reflexivity].
    intros x [r0 s0] st' Hs Hv. simpl in Hs. subst s0.
    exact (IH _ _ _ _ _ _ _ Hv).
  - apply (iterate_keeps (fun st : Value * Stats => st.2 = stats)); [|reflexivity].
    intros x [r0 s0] st' Hs Hv. simpl in Hs. subst s0. simpl in Hv.
    destruct (at_loc r0 node ≫= _); [|discriminate].
    exact (IH _ _ _ _ _ _ _ Hv).
Qed.

Lemma stats_key_member (n : string) :
  stats_key (String "/" (c_str n)) = c_str n.
Proof.
  unfold stats_key. simpl. now rewrite c_str_idemp.
Qed.

Lemma dom_bump f path (stats : Stats) :
  dom (bump f path stats) = {[ stats_key path ]} ∪ dom stats.
Proof. unfold bump. now rewrite dom_insert_L. Qed.

Lemma dom_count_value path v (stats : Stats) :
  dom (count_value path v stats) =
  (if is_scalar v then {[ stats_key path ]} else ∅) ∪ dom stats.
Proof.
  destruct v as [ | b | n | s | l | ms ]; simpl.
  - apply dom_bump.
  - apply dom_bump.
  - unfold number_stats. destruct (IsInteger n);
      now rewrite !dom_bump, union_assoc_L, union_idemp_L.
  - unfold string_stats.
    destruct (isUUID _), (looksLikeDateTime _);
      now rewrite !dom_bump, ?union_assoc_L, ?union_idemp_L.
  - now rewrite union_empty_l_L.
  - now rewrite union_empty_l_L.
Qed.

Lemma dom_count_members (l : list Member) : forall stats : Stats,
  dom (foldl (count_member "") stats l) =
  dom stats ∪ list_to_set (c_name <$> filter scalar_field l).
Proof.
  induction l as [|[n v] l IH]; intros stats; cbn [foldl].
  - rewrite filter_nil. simpl. now rewrite union_empty_r_L.
  - rewrite IH. unfold count_member. simpl fst. simpl snd.
    change ("" +:+ "/" +:+ c_str n) with (String "/" (c_str n)).
    rewrite dom_count_value, stats_key_member.
    rewrite filter_cons.
    destruct (decide (scalar_field (n, v))) as [Hs|Hs]; unfold scalar_field in Hs;
      simpl in Hs.
    + rewrite Hs, fmap_cons, list_to_set_cons.
      unfold c_name at 2. simpl fst.
      now rewrite (union_comm_L {[c_str n]} (dom stats)), union_assoc_L.
    + apply not_true_is_false in Hs. now rewrite Hs, union_empty_l_L.
Qed.

(** X11. The fields that get statistics, and from them a column, are the
    members of the record that hold a scalar: after the traversal, with
    [collectStats] set, of a record whose objects have members of
    different names, the statistics have an entry for the name (read as a
    C string) of every member whose value is null, a boolean, a number or
    a string, besides the entries they had, and for nothing else. *)
Theorem statistics_fields (ms : list Member) (stats : Stats) (fuel : nat) :
  distinct_names (kObject ms) -> (weight (kObject ms) <= fuel)%nat ->
  exists doc' stats',
    processJSONRecord fuel [] true false "" 0 (kObject ms, stats) =
      Ok (doc', stats') /\
    dom stats' = dom stats ∪ list_to_set (c_name <$> filter scalar_field ms).
Proof.
  intros _ Hw. eexists _, _.
  split; [exact (process_tally _ fuel [] _ true "" 0%nat stats eq_refl Hw)|].
  simpl. rewrite dom_count_members. f_equal.
  apply list_to_set_perm_L. apply fmap_Permutation.
  rewrite (sort_members_perm ms). reflexivity.
Qed.

Lemma bump_bump f g path (stats : Stats) :
  bump g path (bump f path stats) = bump (fun c => g (f c)) path stats.
Proof.
  unfold bump. now rewrite lookup_insert_eq, insert_insert_eq.
Qed.

Lemma bump_keeps (P : Counts.t -> Prop) f path (stats : Stats) :
  P Counts.zero -> (forall c, P c -> P (f c)) ->
  map_Forall (fun _ c => P c) stats ->
  map_Forall (fun _ c => P c) (bump f path stats).
Proof.
  intros H0 Hf Hall. unfold bump. apply map_Forall_insert_2; [|exact Hall].
  apply Hf. destruct (stats !! stats_key path) as [c|] eqn:E; simpl; [|exact H0].
  exact (Hall _ _ E).
Qed.

Lemma count_value_adds_up path v (stats : Stats) :
  map_Forall (fun _ c => numbers_add_up c) stats ->
  map_Forall (fun _ c => numbers_add_up c) (count_value path v stats).
Proof.
  assert (H0 : numbers_add_up Counts.zero) by reflexivity.
  intros Hall. destruct v as [ | b | n | s | l | ms ]; simpl; try exact Hall.
  - apply bump_keeps; auto.
  - apply bump_keeps; auto.
  - unfold number_stats. destruct (IsInteger n); rewrite bump_bump;
      apply bump_keeps; auto; intros c Hc; unfold numbers_add_up in *; simpl; lia.
  - unfold string_stats.
    destruct (isUUID _), (looksLikeDateTime _);
      repeat (apply bump_keeps; auto).
Qed.

Lemma foldl_keeps {A B} (P : A -> Prop) (f : A -> B -> A) (l : list B) :
  (forall a b, P a -> P (f a b)) -> forall a, P a -> P (foldl f a l).
Proof.
  intros Hf. induction l as [|b l IH]; simpl; auto.
Qed.

(** X12. The counters stay consistent: if for every field the count of
    numbers is the count of integers plus the count of floating-point
    numbers, the same holds after the traversal, with [collectStats] set,
    of a record whose objects have members of different names. *)
Theorem statistics_numbers_add_up (doc : Value) (stats : Stats) (fuel : nat) :
  distinct_names doc -> (weight doc <= fuel)%nat ->
  map_Forall (fun _ c => numbers_add_up c) stats ->
  exists doc' stats',
    processJSONRecord fuel [] true false "" 0 (doc, stats) = Ok (doc', stats') /\
    map_Forall (fun _ c => numbers_add_up c) stats'.
Proof.
  intros _ Hw Hall. eexists _, _.
  split; [exact (process_tally _ fuel [] _ true "" 0%nat stats eq_refl Hw)|].
  unfold tally. destruct doc as [ | b | n | s | l | ms ]; simpl; try exact Hall.
  - apply foldl_keeps; [|exact Hall]. intros a b Ha. now apply count_value_adds_up.
  - apply foldl_keeps; [|exact Hall]. intros a b Ha. now apply count_value_adds_up.
Qed.

(** X13. Without [collectStats] a traversal that returns leaves the
    statistics as they were, whether or not it anonymizes, from any node
    and at any depth. *)
Theorem statistics_only_when_collecting (fuel : nat) (node : Loc)
    (anonymizeTable : bool) (path : string) (depth : nat) (root : Value)
    (stats : Stats) (r : Value * Stats) :
  processJSONRecord fuel node false anonymizeTable path depth (root, stats) = Ok r ->
  r.2 = stats.
Proof. apply process_keeps_stats. Qed.

End TallyFacts.

Lemma reordered_b_then_a : reordered b_then_a a_then_b.
Proof.
  apply (reordered_object _ [("a", kString "x"); ("b", kNumber (Integer 1))]).
  - apply perm_swap.
  - repeat constructor.
Qed.

Lemma member_order_is_irrelevant_witness :
  exists result,
    processJSONRecord (policy := nothing_personal) (util := no_uuid)
      9 [] true false "" 0 (b_then_a, ∅) = Ok result /\
    processJSONRecord (policy := nothing_personal) (util := no_uuid)
      9 [] true false "" 0 (a_then_b, ∅) = Ok result.
Proof.
  apply (member_order_is_irrelevant (policy := nothing_personal) (util := no_uuid)
           b_then_a a_then_b true ∅ 9 reordered_b_then_a).
  - simpl. split; [|tauto].
    apply NoDup_cons. split; [|apply NoDup_singleton].
    intros H. apply list_elem_of_singleton in H. discriminate H.
  - simpl. lia.
  - simpl. lia.
Defined.

Lemma distinct_names_nested_note : distinct_names nested_note.
Proof.
  simpl. repeat split;
    repeat (apply NoDup_cons; split;
      [rewrite ?elem_of_cons, elem_of_nil; intuition discriminate|]);
    apply NoDup_nil_2.
Qed.



Lemma statistics_fields_witness :
  exists doc' stats',
    processJSONRecord (policy := nothing_personal) (util := no_uuid)
      20 [] true false "" 0 (nested_note, ∅) = Ok (doc', stats') /\
    dom stats' = dom (∅ : Stats) ∪ {[ "title"; "id" ]}.
Proof.
  destruct (statistics_fields (policy := nothing_personal) (util := no_uuid)
              [("title", kString "T");
               ("meta", kObject [("pages", kNumber (Integer 3))]);
               ("id", kString "n1")] ∅ 20) as (doc' & stats' & H & Hdom).
  - exact distinct_names_nested_note.
  - simpl. lia.
  - exists doc', stats'. split; [exact H|]. rewrite Hdom. reflexivity.
Defined.

Lemma statistics_numbers_add_up_witness :
  exists doc' stats',
    processJSONRecord (policy := nothing_personal) (util := no_uuid)
      20 [] true false "" 0 (nested_note, ∅) = Ok (doc', stats') /\
    map_Forall (fun _ c => numbers_add_up c) stats'.
Proof.
  apply (statistics_numbers_add_up (policy := nothing_personal) (util := no_uuid)
           nested_note ∅ 20).
  - exact distinct_names_nested_note.
  - simpl. lia.
  - apply map_Forall_empty.
Defined.

Lemma statistics_only_when_collecting_witness :
  (kObject [("id", kString "n1");
            ("meta", kObject [("pages", kNumber (Integer 3))]);
            ("title", kString "")], (∅ : Stats)).2 = ∅.
Proof.
  apply (statistics_only_when_collecting (policy := flags_title) (util := no_uuid)
           20 [] true "" 0 nested_note ∅).
  vm_compute. reflexivity.
Defined.

End TraversalFacts.

(** ** More on the handler *)

Module HandlerFacts.

Import CStr Json Outcome Stage Driver Notions StageExamples MoreExamples.
Import CStrFacts JsonFacts StageFacts TraversalFacts.
Local Open Scope string_scope.
Local Open Scope Z_scope.

Section Callbacks.
Context {M : Type} {policy : Anonymize} {util : Util} {dbt : DBType}
  {ids : IDMap M} {names : Names} {json : RapidJSON}.

(** No callback changes the pass or the table; the level moves by the
    nesting of the event. *)
Lemma handle_frame fuel e (h h' : JSONHandler M) :
  handle fuel e h = Ok h' ->
  pass h' = pass h /\ tableSchema h' = tableSchema h /\
  level h' = level h + nesting e.
Proof.
  destruct e; simpl; try (intros [= <-]; unfold scalar, Key;
    repeat match goal with |- context [if ?b then _ else _] => destruct b end;
    simpl; repeat split; lia).
  - intros [= <-]. unfold StartObject.
    destruct (level h =? 2); [|destruct (level h >? 2)]; simpl; repeat split; lia.
  - unfold EndObject. intros H. apply bind_Ok in H as [h1 [H1 [= <-]]].
    simpl. destruct (level h =? 3) eqn:E3.
    + apply bind_Ok in H1 as [r [Hr H1]].
      cbn [pass set_stats set_record] in H1.
      destruct (pass h =? 2) eqn:E2.
      * apply bind_Ok in H1 as [o [Ho [= <-]]]. simpl.
        destruct (flush_if_full_frame (set_stats r.2 (set_record (record h ++ "}") h)))
          as (Hp & Ht & Hl & _).
        rewrite Hp, Ht, Hl. simpl. repeat split; lia.
      * injection H1 as <-. simpl. repeat split; lia.
    + destruct (level h >? 3); injection H1 as <-; simpl; repeat split; lia.
  - intros [= <-]. unfold StartArray.
    destruct (level h =? 1); [destruct (pass _ =? 2)|destruct (level h >? 1)];
      simpl; repeat split; lia.
  - intros [= <-]. unfold EndArray.
    destruct (level h =? 2);
      [destruct (recordCount _ >? 0); [destruct (pass _ =? 2)|]
      |destruct (level h >? 2)];
      simpl; repeat split; lia.
Qed.

Lemma handle_analyze fuel e (h h' : JSONHandler M) :
  pass h = 1 -> handle fuel e h = Ok h' ->
  out h' = out h /\ executed h' = executed h.
Proof.
  intros Hp.
  destruct e; simpl; try (intros [= <-]; unfold scalar, Key;
    repeat match goal with |- context [if ?b then _ else _] => destruct b end;
    simpl; split; reflexivity).
  - intros [= <-]. unfold StartObject.
    destruct (level h =? 2); [|destruct (level h >? 2)]; simpl; split; reflexivity.
  - unfold EndObject. intros H. apply bind_Ok in H as [h1 [H1 [= <-]]].
    simpl. destruct (level h =? 3) eqn:E3.
    + apply bind_Ok in H1 as [r [Hr H1]].
      cbn [pass set_stats set_record] in H1. rewrite Hp in H1. simpl in H1.
      injection H1 as <-. simpl. split; reflexivity.
    + destruct (level h >? 3); injection H1 as <-; simpl; split; reflexivity.
  - intros [= <-]. unfold StartArray.
    destruct (level h =? 1);
      [cbn [pass set_active]; rewrite Hp|destruct (level h >? 1)];
      simpl; split; reflexivity.
  - intros [= <-]. unfold EndArray.
    destruct (level h =? 2);
      [destruct (recordCount _ >? 0); [cbn [pass set_active]; rewrite Hp|]
      |destruct (level h >? 2)];
      simpl; split; reflexivity.
Qed.

Lemma run_analyze fuel events : forall (h h' : JSONHandler M),
  pass h = 1 -> run fuel events h = Ok h' ->
  out h' = out h /\ executed h' = executed h.
Proof.
  induction events as [|e events IH]; intros h h' Hp; simpl.
  - intros [= <-]. split; reflexivity.
  - intros H. apply bind_Ok in H as [h1 [H1 H]].
    pose proof (handle_frame _ _ _ _ H1) as (Hp1 & _ & _).
    apply (handle_analyze _ _ _ _ Hp) in H1 as (Ho & He).
    apply IH in H as (Ho' & He'); [|congruence].
    split; congruence.
Qed.

(** X14. The analyze pass writes nothing: over any page, a handler of
    pass 1 leaves the insert buffer, the record count, the log and the
    identifier map as they were, and hands no statement to the database. *)
Theorem analyze_pass_writes_nothing (fuel : nat) (events : list Event)
    (h h' : JSONHandler M) :
  pass h = 1 -> run fuel events h = Ok h' ->
  out h' = out h /\ executed h' = executed h.
Proof. apply run_analyze. Qed.

Lemma flush_if_full_stats (h : JSONHandler M) : stats (flush_if_full h) = stats h.
Proof. unfold flush_if_full. destruct (_ >? _); reflexivity. Qed.

Lemma handle_load fuel e (h h' : JSONHandler M) :
  pass h <> 1 -> handle fuel e h = Ok h' -> stats h' = stats h.
Proof.
  intros Hp.
  destruct e; simpl; try (intros [= <-]; unfold scalar, Key;
    repeat match goal with |- context [if ?b then _ else _] => destruct b end;
    simpl; reflexivity).
  - intros [= <-]. unfold StartObject.
    destruct (level h =? 2); [|destruct (level h >? 2)]; reflexivity.
  - unfold EndObject. intros H. apply bind_Ok in H as [h1 [H1 [= <-]]].
    simpl. destruct (level h =? 3) eqn:E3.
    + apply bind_Ok in H1 as [r [Hr H1]].
      cbn [pass set_stats set_record stats] in Hr.
      unfold collectStats_of in Hr.
      destruct (Z.eqb_spec (pass h) 1) as [|_]; [contradiction|].
      apply process_keeps_stats in Hr.
      cbn [pass set_stats set_record] in H1.
      destruct (pass h =? 2).
      * apply bind_Ok in H1 as [o [Ho [= <-]]]. simpl.
        rewrite flush_if_full_stats. exact Hr.
      * injection H1 as <-. exact Hr.
    + destruct (level h >? 3); injection H1 as <-; reflexivity.
  - intros [= <-]. unfold StartArray.
    destruct (level h =? 1); [destruct (pass _ =? 2)|destruct (level h >? 1)];
      reflexivity.
  - intros [= <-]. unfold EndArray.
    destruct (level h =? 2);
      [destruct (recordCount _ >? 0); [destruct (pass _ =? 2)|]
      |destruct (level h >? 2)]; reflexivity.
Qed.

Lemma run_load fuel events : forall (h h' : JSONHandler M),
  pass h <> 1 -> run fuel events h = Ok h' -> stats h' = stats h.
Proof.
  induction events as [|e events IH]; intros h h' Hp; simpl.
  - now intros [= <-].
  - intros H. apply bind_Ok in H as [h1 [H1 H]].
    pose proof (handle_frame _ _ _ _ H1) as (Hp1 & _ & _).
    apply (handle_load _ _ _ _ Hp) in H1.
    apply IH in H; congruence.
Qed.

(** X15. The load pass leaves the statistics alone: over any page, a
    handler of a pass other than 1 ends with the statistics it began
    with. *)
Theorem load_pass_keeps_statistics (fuel : nat) (events : list Event)
    (h h' : JSONHandler M) :
  pass h <> 1 -> run fuel events h = Ok h' -> stats h' = stats h.
Proof. apply run_load. Qed.

(** X16. The level of the handler follows the nesting of the page: after
    any events it is the level before plus the number of objects and
    arrays opened minus the number closed; the pass and the table never
    change. *)
Theorem level_follows_nesting (fuel : nat) (events : list Event)
    (h h' : JSONHandler M) :
  run fuel events h = Ok h' ->
  level h' = level h + depth_change events /\
  pass h' = pass h /\ tableSchema h' = tableSchema h.
Proof.
  revert h. induction events as [|e events IH]; intros h; simpl.
  - intros [= <-]. repeat split; lia.
  - intros H. apply bind_Ok in H as [h1 [H1 H]].
    apply handle_frame in H1 as (Hp & Ht & Hl).
    apply IH in H as (Hl' & Hp' & Ht').
    repeat split; try congruence. unfold depth_change in *. simpl. lia.
Qed.

End Callbacks.

Lemma run_whole_page pass :
  pass = 1 \/ pass = 2 ->
  run (policy := nothing_personal) (util := no_uuid) (dbt := quoting)
    (ids := counter) (names := loading_prefix) (json := reads_note)
    5 whole_page (pass_start pass) = Ok (pass_end pass).
Proof. intros [->| ->]; vm_compute; reflexivity. Qed.

Lemma analyze_pass_writes_nothing_witness :
  out (pass_end 1) = out (pass_start 1) /\
  executed (pass_end 1) = executed (pass_start 1).
Proof.
  apply (analyze_pass_writes_nothing (policy := nothing_personal)
           (util := no_uuid) (dbt := quoting) (ids := counter)
           (names := loading_prefix) (json := reads_note)
           5 whole_page (pass_start 1) (pass_end 1)).
  - reflexivity.
  - apply run_whole_page. now left.
Defined.

Lemma load_pass_keeps_statistics_witness :
  stats (pass_end 2) = stats (pass_start 2).
Proof.
  apply (load_pass_keeps_statistics (policy := nothing_personal)
           (util := no_uuid) (dbt := quoting) (ids := counter)
           (names := loading_prefix) (json := reads_note)
           5 whole_page (pass_start 2) (pass_end 2)).
  - discriminate.
  - apply run_whole_page. now right.
Defined.

Lemma level_follows_nesting_witness :
  level (pass_end 2) = level (pass_start 2) + depth_change whole_page /\
  pass (pass_end 2) = pass (pass_start 2) /\
  tableSchema (pass_end 2) = tableSchema (pass_start 2).
Proof.
  apply (level_follows_nesting (policy := nothing_personal)
           (util := no_uuid) (dbt := quoting) (ids := counter)
           (names := loading_prefix) (json := reads_note)
           5 whole_page (pass_start 2) (pass_end 2)).
  apply run_whole_page. now right.
Defined.

End HandlerFacts.

(** ** More on the row encoder *)

Module EncoderFacts.

Import CStr Json Outcome Stage Driver Notions CStrFacts JsonFacts StageFacts.
Local Open Scope string_scope.
Local Open Scope Z_scope.

Section Returns.
Context {M : Type} {dbt : DBType} {ids : IDMap M} {names : Names}
  {json : RapidJSON}.

Lemma write_column_returns table doc sk ident column (o : Output M) :
  (exists o', write_column table doc sk ident column o = Ok o') <->
  column_fits doc column = true.
Proof.
  unfold write_column, column_fits, HasMember, member.
  destruct (String.eqb (columnName column) "id"); simpl; [split; eauto|].
  destruct (FindMember _ doc) as [[v|]| |]; simpl;
    try (split; [intros [o' H]; discriminate H | discriminate]);
    [|split; eauto].
  destruct v as [ | b | n | s | l | ms ]; simpl; [split; eauto|..];
    destruct (columnType column); simpl;
    try (split; [intros [o' H]; discriminate H | discriminate]);
    try (split; eauto; fail).
  - destruct n as [z|m e]; simpl;
      [|split; [intros [o' H]; discriminate H | discriminate]].
    destruct ((- 2 ^ 31 <=? z) && (z <? 2 ^ 31)); simpl;
      [split; eauto | split; [intros [o' H]; discriminate H | discriminate]].
  - destruct (lookup_sk "" (c_str s) o) as [s' o1]. split; eauto.
Qed.

Lemma write_columns_returns table doc sk ident cols : forall o : Output M,
  (exists o', write_columns table doc sk ident cols o = Ok o') <->
  forallb (column_fits doc) cols = true.
Proof.
  induction cols as [|column cols IH]; intros o; simpl; [split; eauto|].
  rewrite andb_true_iff, <- (write_column_returns table doc sk ident column o).
  split.
  - intros [o' H]. apply bind_Ok in H as [o1 [H1 H]].
    split; [eauto|]. apply (IH o1). eauto.
  - intros [[o1 H1] H]. rewrite H1. simpl. apply IH. exact H.
Qed.

Lemma writeTuple_fits (table : TableSchema) (doc : Value) (o : Output M) :
  (exists o', writeTuple table doc o = Ok o') <->
  (exists ident, member "id" doc = Ok (kString ident)) /\
  forallb (column_fits doc) (columns table) = true.
Proof.
  unfold writeTuple, write_fields. split.
  - intros [o' H]. apply bind_Ok in H as [[[sk ident] o1] [H _]].
    apply bind_Ok in H as [idv [Hid H]].
    apply bind_Ok in H as [s [Hs H]].
    destruct idv; try discriminate Hs. injection Hs as <-.
    split; [eauto|].
    destruct (lookup_sk _ _ _) as [sk' o2].
    apply bind_Ok in H as [o3 [H _]].
    eapply write_columns_returns. eauto.
  - intros [[ident Hid] Hcols]. rewrite Hid. simpl.
    destruct (lookup_sk _ _ _) as [sk' o2].
    eapply write_columns_returns in Hcols as [o3 H3]. rewrite H3. simpl. eauto.
Qed.

(** X17. When [writeTuple] returns. It writes the tuple of a record
    exactly when the record is an object whose first member named [id]
    is a string and, for every column other than [id], the member of the
    record for the column is absent, null, or of the kind that the
    accessor for the type of the column reads; in every other case the
    call stops in a failed assertion of the JSON library, whatever the
    output written so far. *)
Theorem writeTuple_returns_iff (table : TableSchema) (doc : Value)
    (o : Output M) :
  (exists o', writeTuple table doc o = Ok o') <->
  (exists ident, member "id" doc = Ok (kString ident)) /\
  forallb (column_fits doc) (columns table) = true.
Proof. apply writeTuple_fits. Qed.

End Returns.

End EncoderFacts.

(** ** More on anonymization *)

Module AnonymizeFacts.

Import CStr Json Outcome Stage Driver Notions StageExamples MoreExamples.
Import CStrFacts JsonFacts StageFacts TraversalFacts.
Local Close Scope Z_scope.
Local Open Scope string_scope.

Lemma canon_same_shape v : forall v', same_shape v v' -> same_shape (canon v) (canon v').
Proof.
  induction v as [ | b | n | s | l IHl | ms IHms ] using Value_nested_ind;
    intros v' H; inversion H as [ | | | | ? l' Hl | ? ms' Hms ]; subst;
    try (constructor; fail).
  - simpl. constructor. clear H. revert l' Hl. induction l as [|a l IH]; intros l' Hl;
      inversion Hl; subst; [constructor|].
    inversion IHl; subst. rewrite !fmap_cons. constructor; auto.
  - rewrite !canon_kObject. constructor.
    apply (sort_members_Forall2
             (fun m m' : Member => fst m = fst m' /\ same_shape (snd m) (snd m'))).
    + now intros x x' [Hx _].
    + clear H. revert ms' Hms. induction ms as [|a ms IH]; intros ms' Hms;
        inversion Hms as [|? a' ? ms'' [Hn Hv] Hrest]; subst; [constructor|].
      inversion IHms; subst. rewrite !fmap_cons. constructor; auto.
      split; [exact Hn|]. simpl. auto.
Qed.

(** X19. Anonymization keeps the shape of a record. For a record whose
    member names are plain (no slash, tilde or NUL) and different within
    each object, the anonymizing traversal returns a document that
    differs from the one the plain traversal returns in the contents of
    scalars only: the same members under the same names in the same
    order, the same array lengths, and a scalar of the same kind in the
    place of every scalar. *)
Theorem anonymization_keeps_shape {policy : Anonymize} {util : Util}
    (doc : Value) (cs : bool) (stats : Stats) (fuel : nat) :
  pointer_safe doc -> (weight doc <= fuel)%nat ->
  exists doc' stats',
    processJSONRecord fuel [] cs true "" 0 (doc, stats) = Ok (doc', stats') /\
    same_shape (canon doc) doc'.
Proof.
  intros Hs Hw.
  destruct (process_masked doc fuel [] doc cs "" 0%nat stats [] eq_refl Hs
              eq_refl eq_refl I Hw) as [s' Hs'].
  exists (canon (mask "" doc)), s'. split; [exact Hs'|].
  apply canon_same_shape. apply mask_same_shape.
Qed.

Lemma pointer_safe_nested_note : pointer_safe nested_note.
Proof.
  simpl. repeat split;
    repeat (apply NoDup_cons; split;
      [rewrite ?elem_of_cons, elem_of_nil; intuition discriminate|]);
    apply NoDup_nil_2.
Qed.

Lemma processJSONRecord_anonymizes_witness :
  exists stats',
    processJSONRecord (policy := flags_title) (util := no_uuid)
      20 [] false true "" 0 (nested_note, ∅) =
    Ok (canon (mask (policy := flags_title) "" nested_note), stats').
Proof.
  apply (processJSONRecord_anonymizes (policy := flags_title) (util := no_uuid)
           nested_note false ∅ 20 pointer_safe_nested_note).
  simpl. lia.
Defined.

Lemma anonymization_keeps_shape_witness :
  exists doc' stats',
    processJSONRecord (policy := flags_title) (util := no_uuid)
      20 [] false true "" 0 (nested_note, ∅) = Ok (doc', stats') /\
    same_shape (canon nested_note) doc'.
Proof.
  apply (anonymization_keeps_shape (policy := flags_title) (util := no_uuid)
           nested_note false ∅ 20 pointer_safe_nested_note).
  simpl. lia.
Defined.

End AnonymizeFacts.

(** ** The INSERT statements of a page *)

Module StatementFacts.

Import CStr Json Outcome Stage Driver Notions StageExamples MoreExamples.
Import CStrFacts JsonFacts StageFacts TraversalFacts HandlerFacts.
Local Open Scope string_scope.
Local Open Scope Z_scope.

Lemma tuples_snoc bodies b :
  tuples (bodies ++ [b]) =
  tuples bodies ++ match bodies with [] => "" | _ => "," end
  ++ "(" ++ b ++ ",1)".
Proof.
  induction bodies as [|a bodies IH]; [reflexivity|].
  destruct bodies as [|a' bodies].
  - simpl. now rewrite !string_app_assoc.
  - change (tuples ((a :: a' :: bodies) ++ [b]))
      with ("(" ++ a ++ ",1)," ++ tuples ((a' :: bodies) ++ [b])).
    rewrite IH.
    change (tuples (a :: a' :: bodies))
      with ("(" ++ a ++ ",1)," ++ tuples (a' :: bodies)).
    now rewrite !string_app_assoc.
Qed.

Lemma length_le_tuples bodies : Z.of_nat (length bodies) <= strlen (tuples bodies).
Proof.
  induction bodies as [|a bodies IH]; [reflexivity|].
  destruct bodies as [|a' bodies].
  - simpl tuples. rewrite !strlen_app. pose proof (strlen_nonneg a).
    change (strlen "(") with 1. change (strlen ",1)") with 3. simpl length. lia.
  - change (tuples (a :: a' :: bodies))
      with ("(" ++ a ++ ",1)," ++ tuples (a' :: bodies)).
    rewrite !strlen_app. pose proof (strlen_nonneg a).
    change (strlen "(") with 1. change (strlen ",1),") with 4.
    simpl length in *. lia.
Qed.

Section Statements.
Context {M : Type} {policy : Anonymize} {util : Util} {dbt : DBType}
  {ids : IDMap M} {names : Names} {json : RapidJSON}.

Lemma writeTuple_shape table doc (o o' : Output M) :
  writeTuple table doc o = Ok o' ->
  exists b,
    insertBuffer o' =
      insertBuffer o ++ (if recordCount o >? 0 then "," else "")
      ++ "(" ++ b ++ ",1)" /\
    recordCount o' = (recordCount o + 1) mod 2 ^ 64 /\
    body_of table b.
Proof.
  intros Hw0. pose proof Hw0 as Hw. unfold writeTuple, write_fields in Hw.
  apply bind_Ok in Hw as [[[sk ident'] o1] [Hf Hw]].
  apply bind_Ok in Hf as [idv [_ Hf]].
  apply bind_Ok in Hf as [ident [_ Hf]].
  destruct (lookup_sk (tableName table) (c_str ident) _) as [sk0 o2] eqn:E.
  apply bind_Ok in Hf as [o3 [Hc Hf]]. injection Hf as Hsk Hid Ho.
  subst sk0 o3 ident'. injection Hw as Ho'.
  apply write_columns_appends in Hc as [t1 [E1 E2]].
  destruct (write_data_appends table doc sk (c_str ident) o1) as [t2 [E3 E4]].
  unfold lookup_sk in E. destruct (makeSK _ _ _) as [sk1 m] in E.
  injection E as -> <-. simpl in E1, E2.
  assert (Hbuf : insertBuffer o' =
      insertBuffer o ++ (if recordCount o >? 0 then "," else "")
      ++ "(" ++ (sk ++ "," ++ encodeStringConst (c_str ident) ++ "," ++ t1 ++ t2)
      ++ ",1)").
  { rewrite <- Ho'. simpl. rewrite E3, E1.
    destruct (recordCount o >? 0); simpl; now rewrite !string_app_assoc. }
  eexists. split; [exact Hbuf|]. split.
  - rewrite <- Ho'. simpl. rewrite E4, E2.
    destruct (recordCount o >? 0); reflexivity.
  - exists doc, o, o'. split; [exact Hw0|exact Hbuf].
Qed.

Lemma flush_shape (h : JSONHandler M) bodies :
  strlen (insert_header (tableName (tableSchema h))) <= 10000000 ->
  well_formed h ->
  insertBuffer (out h) = insert_header (tableName (tableSchema h)) ++ tuples bodies ->
  recordCount (out h) = Z.of_nat (length bodies) ->
  Forall (body_of (tableSchema h)) bodies ->
  well_formed (flush_if_full h) /\
  exists bodies',
    insertBuffer (out (flush_if_full h)) =
      insert_header (tableName (tableSchema h)) ++ tuples bodies' /\
    recordCount (out (flush_if_full h)) = Z.of_nat (length bodies') /\
    Forall (body_of (tableSchema h)) bodies' /\
    strlen (insertBuffer (out (flush_if_full h))) <= 10000000.
Proof.
  intros Hhead Hwf Hbuf Hcount Hall.
  destruct (Z_le_gt_dec (strlen (insertBuffer (out h))) 10000000) as [Hle|Hgt].
  - rewrite (flush_if_full_under h Hle). split; [exact Hwf|].
    exists bodies. auto.
  - destruct (flush_if_full_over h ltac:(lia)) as (He & Hb & Hc).
    destruct (flush_if_full_frame h) as (_ & Ht & _ & _).
    split.
    + unfold well_formed. rewrite He, Ht. apply Forall_app. split; [exact Hwf|].
      constructor; [|constructor]. exists bodies. split; [|split; [exact Hall|]].
      * intros ->. simpl in Hbuf. rewrite string_app_nil_r in Hbuf.
        rewrite Hbuf in Hgt. lia.
      * rewrite Hbuf. now rewrite !string_app_assoc.
    + exists []. rewrite Hb, Hc. simpl. rewrite string_app_nil_r.
      repeat split; auto.
Qed.

Lemma shape_step fuel e (h h' : JSONHandler M) :
  strlen (insert_header (tableName (tableSchema h))) <= 10000000 ->
  pass h = 2 -> well_formed h -> collecting h ->
  record_event_ok e h = true -> handle fuel e h = Ok h' ->
  well_formed h' /\ collecting h'.
Proof.
  intros Hhead Hp Hwf Hcol Hok.
  destruct e; simpl; try (intros [= <-]; unfold scalar, Key;
    repeat match goal with |- context [if ?b then _ else _] => destruct b end;
    split; assumption).
  - intros [= <-]. unfold StartObject.
    destruct (level h =? 2); [|destruct (level h >? 2)]; split; assumption.
  - intros H.
    destruct (level h =? 3) eqn:E3.
    + simpl in Hok. rewrite E3 in Hok. simpl in Hok.
      destruct (EndObject_record fuel h h' Hp ltac:(lia) H)
        as (doc & st & o' & Hw & ->).
      set (h0 := set_stats st (set_record (record h ++ "}") h)) in *.
      destruct (Hcol Hok) as (bodies & Hbuf & Hcount & Hall).
      destruct (flush_shape h0 bodies Hhead Hwf Hbuf Hcount Hall)
        as (Hwf1 & bodies' & Hbuf1 & Hcount1 & Hall1 & Hlen1).
      destruct (flush_if_full_frame h0) as (_ & Ht & _ & Ha).
      apply writeTuple_shape in Hw as (b & Hb & Hc & Hbody).
      split; [exact Hwf1|].
      intros _. exists (bodies' ++ [b])%list. simpl. rewrite Ht. simpl.
      split; [|split].
      * rewrite Hb, Hbuf1, Hcount1, tuples_snoc.
        destruct bodies'; simpl; now rewrite !string_app_assoc.
      * rewrite Hc, Hcount1, length_app. simpl.
        assert (Z.of_nat (length bodies') <= 10000000).
        { pose proof (length_le_tuples bodies'). rewrite Hbuf1 in Hlen1.
          rewrite strlen_app in Hlen1.
          pose proof (strlen_nonneg (insert_header (tableName (tableSchema h)))).
          simpl in *. lia. }
        rewrite Z.mod_small; lia.
      * apply Forall_app. split; [exact Hall1|]. constructor; [|constructor].
        exact Hbody.
    + unfold EndObject in H. rewrite E3 in H.
      destruct (level h >? 3); injection H as <-; split; assumption.
  - intros [= <-]. unfold StartArray.
    destruct (level h =? 1) eqn:E1.
    + simpl in Hok. rewrite E1 in Hok. simpl in Hok.
      cbn [pass set_active]. rewrite Hp. simpl.
      split; [exact Hwf|]. intros _. exists []. simpl.
      rewrite string_app_nil_r. repeat split; [lia|constructor].
    + destruct (level h >? 1); split; assumption.
  - intros [= <-]. unfold EndArray.
    destruct (level h =? 2) eqn:E2.
    + simpl in Hok. rewrite E2 in Hok. simpl in Hok.
      destruct (Hcol Hok) as (bodies & Hbuf & Hcount & Hall).
      cbn [out set_active recordCount pass]. rewrite Hp. simpl.
      destruct (recordCount (out h) >? 0) eqn:Ec.
      * split; [|intros [=]].
        unfold well_formed. simpl. apply Forall_app. split; [exact Hwf|].
        constructor; [|constructor]. exists bodies. split; [|split; [exact Hall|]].
        -- intros ->. simpl in Hcount. rewrite Hcount in Ec. discriminate.
        -- rewrite Hbuf. now rewrite !string_app_assoc.
      * split; [exact Hwf|intros [=]].
    + destruct (level h >? 2); split; assumption.
Qed.

Lemma shape_run fuel events : forall (h h' : JSONHandler M),
  strlen (insert_header (tableName (tableSchema h))) <= 10000000 ->
  pass h = 2 -> well_formed h -> collecting h ->
  records_in_array fuel events h = true -> run fuel events h = Ok h' ->
  well_formed h' /\ tableSchema h' = tableSchema h.
Proof.
  induction events as [|e events IH]; intros h h' Hhead Hp Hwf Hcol Hok; simpl.
  - intros [= <-]. auto.
  - intros H. apply bind_Ok in H as [h1 [H1 H]].
    simpl in Hok. apply andb_prop in Hok as [Hok1 Hok]. rewrite H1 in Hok.
    destruct (shape_step fuel e h h1 Hhead Hp Hwf Hcol Hok1 H1) as [Hwf1 Hcol1].
    destruct (handle_frame _ _ _ _ H1) as (Hp1 & Ht1 & _).
    destruct (IH h1 h') as [Hwf' Ht']; auto; try congruence.
    split; congruence.
Qed.

(** X20. The INSERT statements of the load pass are well formed. Over a
    page whose records lie in its record array, and for a table whose
    INSERT header is no longer than the flush threshold, every statement
    that the handler hands to the database is the header
    [INSERT INTO <loading table> VALUES], then at least one tuple, the
    tuples separated by commas and each of them a parenthesis that
    [writeTuple] filled and closed with the tenant id 1, then a semicolon
    and a newline. *)
Theorem inserts_are_well_formed (fuel : nat) (table : TableSchema)
    (statistics : Stats) (lg : list (Level * string)) (m : M)
    (events : list Event) (h : JSONHandler M) :
  strlen (insert_header (tableName table)) <= 10000000 ->
  records_in_array fuel events (new_handler 2 table statistics lg m) = true ->
  run fuel events (new_handler 2 table statistics lg m) = Ok h ->
  Forall (insert_statement table) (executed h).
Proof.
  intros Hhead Hok Hrun.
  destruct (shape_run fuel events (new_handler 2 table statistics lg m) h)
    as [Hwf Ht]; auto.
  - constructor.
  - intros [=].
  - unfold well_formed in Hwf. rewrite Ht in Hwf. exact Hwf.
Qed.

End Statements.

Lemma inserts_are_well_formed_witness :
  Forall (insert_statement (M := nat) (dbt := quoting) (ids := counter)
            (names := loading_prefix) (json := reads_note) notes_table)
    (executed (pass_end 2)).
Proof.
  apply (inserts_are_well_formed (policy := nothing_personal)
           (util := no_uuid) (dbt := quoting) (ids := counter)
           (names := loading_prefix) (json := reads_note)
           5 notes_table ∅ [] O whole_page (pass_end 2)).
  - vm_compute. discriminate.
  - vm_compute. reflexivity.
  - apply run_whole_page. now right.
Defined.

End StatementFacts.

(** ** The passes of [stageTable] *)

Module LoadFacts.

Import CStr Json Outcome Stage Driver Notions Load StageExamples MoreExamples.
Import CStrFacts JsonFacts StageFacts TraversalFacts HandlerFacts.
Local Open Scope string_scope.
Local Open Scope Z_scope.

Section Passes.
Context {M : Type} {policy : Anonymize} {util : Util} {dbt : DBType}
  {ids : IDMap M} {names : Names} {json : RapidJSON}
  {dialect : Dialect} {schema : Schema}.

Lemma kept_refl pass (s : Staging M) : kept pass s s.
Proof.
  repeat split; auto. exists []. now rewrite app_nil_r.
Qed.

Lemma kept_trans pass (s1 s2 s3 : Staging M) :
  kept pass s1 s2 -> kept pass s2 s3 -> kept pass s1 s3.
Proof.
  intros (T1 & [m1 E1] & A1 & L1) (T2 & [m2 E2] & A2 & L2).
  split; [congruence|]. split; [|split].
  - exists (m1 ++ m2)%list. rewrite E2, E1. now rewrite <- app_assoc.
  - intros Hp. destruct (A1 Hp), (A2 Hp). split; congruence.
  - intros Hp. rewrite (L2 Hp). exact (L1 Hp).
Qed.

Lemma kept_log_line pass l msg (s : Staging M) :
  kept pass s (log_line l msg s).
Proof.
  repeat split; auto. exists []. simpl. now rewrite app_nil_r.
Qed.

Lemma stagePage_kept fuel pass events (s s' : Staging M) :
  stagePage fuel pass events s = Ok s' -> kept pass s s'.
Proof.
  unfold stagePage. intros H. apply bind_Ok in H as [h [Hrun [= <-]]].
  split; [reflexivity|]. split; [simpl; eauto|]. split.
  - intros ->.
    destruct (run_analyze fuel events
                (new_handler 1 (st_table s) (st_stats s) (st_log s) (st_idmap s))
                h eq_refl Hrun) as [Ho He].
    simpl. rewrite Ho, He. simpl. now rewrite app_nil_r.
  - intros Hp. simpl.
    exact (run_load fuel events
             (new_handler pass (st_table s) (st_stats s) (st_log s) (st_idmap s))
             h Hp Hrun).
Qed.

Lemma stagePages_kept fuel pass contents remaining :
  forall page (s s' : Staging M),
  stagePages fuel pass contents remaining page s = Ok s' -> kept pass s s'.
Proof.
  induction remaining as [|remaining IH]; intros page s s'; simpl.
  - intros [= <-]. apply kept_refl.
  - intros H. apply bind_Ok in H as [s1 [H1 H]].
    apply stagePage_kept in H1. apply IH in H.
    eapply kept_trans; [apply kept_log_line|]. eapply kept_trans; eauto.
Qed.

Lemma log_counts_frame l : forall s : Staging M,
  st_table (foldl log_counts s l) = st_table s /\
  st_stats (foldl log_counts s l) = st_stats s /\
  st_executed (foldl log_counts s l) = st_executed s /\
  st_idmap (foldl log_counts s l) = st_idmap s.
Proof.
  induction l as [|[field counts] l IH]; intros s; cbn [foldl]; [auto|].
  destruct (IH (log_counts s (field, counts))) as (-> & -> & -> & ->).
  simpl. auto.
Qed.

Lemma add_column_frame l : forall s : Staging M,
  tableName (st_table (foldl add_column s l)) = tableName (st_table s) /\
  moduleName (st_table (foldl add_column s l)) = moduleName (st_table s) /\
  sourcePath (st_table (foldl add_column s l)) = sourcePath (st_table s) /\
  columns (st_table (foldl add_column s l)) =
    (columns (st_table s) ++ (column_of <$> l))%list /\
  st_stats (foldl add_column s l) = st_stats s /\
  st_executed (foldl add_column s l) = st_executed s /\
  st_idmap (foldl add_column s l) = st_idmap s.
Proof.
  induction l as [|fc l IH]; intros s; cbn [foldl].
  - simpl. rewrite app_nil_r. repeat split; reflexivity.
  - destruct (IH (add_column s fc)) as (-> & -> & -> & -> & -> & -> & ->).
    simpl. rewrite <- app_assoc. repeat split; reflexivity.
Qed.

Lemma createLoadingTable_frame opt (s : Staging M) :
  st_table (createLoadingTable opt s) = st_table s /\
  st_stats (createLoadingTable opt s) = st_stats s /\
  st_idmap (createLoadingTable opt s) = st_idmap s /\
  st_executed (createLoadingTable opt s) =
    (st_executed s ++ loading_table_statements opt (st_table s))%list.
Proof.
  unfold createLoadingTable, loading_table_statements.
  destruct (String.eqb (moduleName (st_table s)) "mod-agreements"); simpl;
    rewrite <- ?app_assoc; repeat split; reflexivity.
Qed.

(** The end of pass 1. *)
Lemma finish_analysis_spec opt (s : Staging M) :
  let s' := finish_analysis opt s in
  tableName (st_table s') = tableName (st_table s) /\
  moduleName (st_table s') = moduleName (st_table s) /\
  sourcePath (st_table s') = sourcePath (st_table s) /\
  columns (st_table s') =
    (columns (st_table s) ++ (column_of <$> fields (st_stats s)))%list /\
  st_stats s' = st_stats s /\ st_idmap s' = st_idmap s /\
  st_executed s' =
    (st_executed s ++ loading_table_statements opt (st_table s'))%list.
Proof.
  unfold finish_analysis. cbv zeta.
  set (s1 := foldl log_counts s (fields (st_stats s))).
  destruct (log_counts_frame (fields (st_stats s)) s) as (T1 & S1 & E1 & I1).
  fold s1 in T1, S1, E1, I1.
  set (s2 := foldl add_column s1 (fields (st_stats s1))).
  destruct (add_column_frame (fields (st_stats s1)) s1)
    as (N2 & Mo2 & P2 & C2 & S2 & E2 & I2).
  fold s2 in N2, Mo2, P2, C2, S2, E2, I2.
  destruct (createLoadingTable_frame opt s2) as (T3 & S3 & I3 & E3).
  rewrite T3, S3, I3, E3. rewrite N2, Mo2, P2, C2, S2, E2, I2, T1, S1, E1, I1.
  repeat split; reflexivity.
Qed.

Lemma stagePass_kept fuel opt contents pageCount test pass (s s' : Staging M) :
  pass <> 1 ->
  stagePass fuel opt contents pageCount test pass s = Ok s' -> kept pass s s'.
Proof.
  intros Hp. unfold stagePass. intros H.
  apply bind_Ok in H as [s1 [H1 H]]. apply bind_Ok in H as [s2 [H2 H]].
  destruct (Z.eqb_spec pass 1) as [|_]; [contradiction|]. injection H as <-.
  apply stagePages_kept in H1.
  eapply kept_trans; [apply kept_log_line|]. eapply kept_trans; [exact H1|].
  destruct (String.eqb (loadFromDir opt) ""); [injection H2 as <-; apply kept_refl|].
  destruct test as [events|]; [|injection H2 as <-; apply kept_refl].
  apply stagePage_kept in H2. eapply kept_trans; [apply kept_log_line|exact H2].
Qed.

Lemma stagePass_analyze fuel opt contents pageCount test (s s' : Staging M) :
  stagePass fuel opt contents pageCount test 1 s = Ok s' ->
  exists s1, kept 1 s s1 /\ s' = finish_analysis opt s1.
Proof.
  unfold stagePass. intros H.
  apply bind_Ok in H as [s1 [H1 H]]. apply bind_Ok in H as [s2 [H2 H]].
  simpl in H. injection H as <-. exists s2. split; [|reflexivity].
  apply stagePages_kept in H1.
  eapply kept_trans; [apply kept_log_line|]. eapply kept_trans; [exact H1|].
  destruct (String.eqb (loadFromDir opt) ""); [injection H2 as <-; apply kept_refl|].
  destruct test as [events|]; [|injection H2 as <-; apply kept_refl].
  apply stagePage_kept in H2. eapply kept_trans; [apply kept_log_line|exact H2].
Qed.

(** X21. [stageTable] creates the loading table before it loads. When
    the call returns, the table schema has kept its names and has gained,
    after the columns it had, one column for every field of the
    statistics, in the order of the field names; the statistics are those
    of pass 1. The statements handed to the database are those of
    [createLoadingTable] for that schema, which follow the statements
    executed before the call, and after them the statements of pass 2:
    pass 1 executes none. *)
Theorem stageTable_creates_then_loads (fuel : nat) (opt : Options)
    (filename : string) (file : CountFile) (contents : nat -> list Event)
    (test : option (list Event)) (table : TableSchema)
    (lg : list (Level * string)) (done : list string) (keys : M)
    (s' : Staging M) :
  stageTable fuel opt filename file contents test table lg done keys
    = inr (Ok s') ->
  tableName (st_table s') = tableName table /\
  moduleName (st_table s') = moduleName table /\
  sourcePath (st_table s') = sourcePath table /\
  columns (st_table s') =
    (columns table ++ (column_of <$> fields (st_stats s')))%list /\
  exists inserts,
    st_executed s' =
      (done ++ loading_table_statements opt (st_table s') ++ inserts)%list.
Proof.
  unfold stageTable. intros H.
  destruct (readPageCount _ _ _) as [what|[pageCount s0]] eqn:Hcount;
    [discriminate H|].
  injection H as H. apply bind_Ok in H as [s1 [H1 H2]].
  assert (Hs0 : st_table s0 = table /\ st_executed s0 = done).
  { destruct file; simpl in Hcount; try discriminate Hcount;
      injection Hcount as _ <-; auto. }
  destruct Hs0 as [T0 E0].
  apply stagePass_analyze in H1 as (sa & (Ta & _ & Aa & _) & ->).
  destruct (Aa eq_refl) as [Ea _]. simpl in Ta, Ea.
  destruct (finish_analysis_spec opt sa) as (N & Mo & P & C & S & _ & E).
  apply stagePass_kept in H2 as (T2 & [more E2] & _ & S2); [|discriminate].
  specialize (S2 ltac:(discriminate)).
  rewrite T2. rewrite N, Mo, P, C, Ta, T0. rewrite S2, S.
  repeat split; try reflexivity.
  exists more. rewrite E2, E, Ea, E0. now rewrite <- app_assoc.
Qed.





End Passes.


Lemma stageTable_staged_notes :
  stageTable (policy := nothing_personal) (util := no_uuid)
    (dbt := quoting) (ids := counter) (names := loading_prefix)
    (json := reads_note) (dialect := plain_dialect) (schema := text_schema)
    9 no_test_dir "notes_count.txt" (Pages 1) (fun _ => whole_page)
    None bare_notes [] [] O = inr (Ok staged_notes).
Proof. vm_compute. reflexivity. Qed.

Lemma stageTable_creates_then_loads_witness :
  tableName (st_table staged_notes) = "notes" /\
  moduleName (st_table staged_notes) = "mod-notes" /\
  sourcePath (st_table staged_notes) = "/notes" /\
  columns (st_table staged_notes) =
    ([] ++ (column_of (schema := text_schema)
              <$> fields (st_stats staged_notes)))%list /\
  exists inserts,
    st_executed staged_notes =
      ([] ++ loading_table_statements (names := loading_prefix)
               (dialect := plain_dialect) (schema := text_schema)
               no_test_dir (st_table staged_notes) ++ inserts)%list.
Proof.
  exact (stageTable_creates_then_loads (policy := nothing_personal)
           (util := no_uuid) (dbt := quoting) (ids := counter)
           (names := loading_prefix) (json := reads_note)
           (dialect := plain_dialect) (schema := text_schema)
           9 no_test_dir "notes_count.txt" (Pages 1) (fun _ => whole_page)
           None bare_notes [] [] O staged_notes stageTable_staged_notes).
Defined.


End LoadFacts.

(** ** The comparator of the member sort *)

Module OrderFacts.

Import CStr Json Outcome Stage Driver Notions.
Import CStrFacts JsonFacts StageFacts TraversalFacts.
Local Open Scope string_scope.
Local Open Scope Z_scope.

Lemma strcmp_lt_trans s1 s2 s3 :
  strcmp s1 s2 < 0 -> strcmp s2 s3 < 0 -> strcmp s1 s3 < 0.
Proof.
  intros H12 H23.
  assert (H13 : strcmp s1 s3 <= 0) by (apply (strcmp_trans s1 s2 s3); lia).
  destruct (Z.eq_dec (strcmp s1 s3) 0) as [E|E]; [|lia].
  assert (H31 : strcmp s3 s1 <= 0) by (rewrite strcmp_antisym; lia).
  assert (H21 : strcmp s2 s1 <= 0) by (apply (strcmp_trans s2 s3 s1); lia).
  rewrite strcmp_antisym in H21. lia.
Qed.

(** X23. The order in which the members of an object are sorted.
    [NameComparator] puts a member named [id] before every member, itself
    and another [id] included; on the members with another name it is a
    strict weak order by the bytes of the name up to the first NUL: no
    member is before itself, two members are never each before the other,
    the order is transitive, and two members of which neither is before
    the other have the same name up to the first NUL. *)
Theorem NameComparator_order :
  (forall m m', is_id m -> NameComparator m m' = true) /\
  (forall m m', ~ is_id m -> is_id m' -> NameComparator m m' = false) /\
  (forall m, ~ is_id m -> NameComparator m m = false) /\
  (forall m1 m2, ~ is_id m1 -> ~ is_id m2 ->
     NameComparator m1 m2 = true -> NameComparator m2 m1 = false) /\
  (forall m1 m2 m3, ~ is_id m1 -> ~ is_id m2 -> ~ is_id m3 ->
     NameComparator m1 m2 = true -> NameComparator m2 m3 = true ->
     NameComparator m1 m3 = true) /\
  (forall m1 m2, ~ is_id m1 -> ~ is_id m2 ->
     NameComparator m1 m2 = false -> NameComparator m2 m1 = false ->
     c_name m1 = c_name m2).
Proof.
  assert (Hother : forall m m', ~ is_id m -> ~ is_id m' ->
            NameComparator m m' = (strcmp (fst m) (fst m') <? 0)).
  { intros m m' Hm Hm'. rewrite (NameComparator_other m m' Hm).
    unfold is_id in Hm'. destruct (Z.eqb_spec (strcmp m'.1 "id") 0); [contradiction|].
    reflexivity. }
  repeat split.
  - intros m m' Hm. now apply NameComparator_id.
  - intros m m' Hm Hm'. rewrite (NameComparator_other m m' Hm).
    unfold is_id in Hm'. now rewrite Hm'.
  - intros m Hm. rewrite (Hother m m Hm Hm).
    assert (strcmp m.1 m.1 = 0) by now apply strcmp_eq. apply Z.ltb_ge. lia.
  - intros m1 m2 H1 H2. rewrite (Hother m1 m2 H1 H2), (Hother m2 m1 H2 H1).
    rewrite (strcmp_antisym m1.1 m2.1). intros H. apply Z.ltb_lt in H.
    apply Z.ltb_ge. lia.
  - intros m1 m2 m3 H1 H2 H3.
    rewrite (Hother m1 m2 H1 H2), (Hother m2 m3 H2 H3), (Hother m1 m3 H1 H3).
    intros A B. apply Z.ltb_lt in A, B. apply Z.ltb_lt.
    exact (strcmp_lt_trans _ _ _ A B).
  - intros m1 m2 H1 H2. rewrite (Hother m1 m2 H1 H2), (Hother m2 m1 H2 H1).
    rewrite (strcmp_antisym m1.1 m2.1). intros A B.
    apply Z.ltb_ge in A, B. apply strcmp_eq. lia.
Qed.

End OrderFacts.

(** ** The tuple of a record and the columns of the loading table *)

Module TupleFacts.

Import CStr Json Outcome Stage Driver Notions Load Tuples.
Import StageExamples MoreExamples.
Import CStrFacts JsonFacts StageFacts.
Local Open Scope string_scope.
Local Open Scope Z_scope.

Lemma concat_texts_app2 ts ts' :
  concat_texts (ts ++ ts') = concat_texts ts ++ concat_texts ts'.
Proof.
  induction ts as [|t ts IH]; [reflexivity|].
  simpl. now rewrite IH, string_app_assoc.
Qed.

Lemma separated_cons v vs :
  vs <> [] -> separated (v :: vs) = v ++ "," ++ separated vs.
Proof. destruct vs; [congruence|reflexivity]. Qed.

Lemma separated_snoc vs a b :
  separated (vs ++ [a; b]) = concat_texts (with_comma <$> vs) ++ a ++ "," ++ b.
Proof.
  induction vs as [|v vs IH]; [reflexivity|].
  rewrite <- app_comm_cons, separated_cons, IH by (now destruct vs).
  simpl. unfold with_comma. now rewrite !string_app_assoc.
Qed.

Ltac texts :=
  simpl; unfold with_comma;
  rewrite ?string_app_assoc, ?string_app_nil_r; auto.

Section Aligned.
Context {M : Type} {dbt : DBType} {ids : IDMap M} {names : Names}
  {json : RapidJSON} {dialect : Dialect} {schema : Schema}.

Lemma write_string_value table column sk ident v (o : Output M) :
  insertBuffer (write_string table column sk ident v o) =
    insertBuffer o ++ string_value v /\
  idmap (write_string table column sk ident v o) = idmap o.
Proof.
  unfold write_string, string_value. destruct (65535 <=? _); simpl; auto.
Qed.

Lemma write_column_values table doc sk ident column (o o' : Output M) :
  write_column table doc sk ident column o = Ok o' ->
  insertBuffer o' =
    insertBuffer o
    ++ concat_texts (with_comma <$> (column_values doc column (idmap o)).1) /\
  idmap o' = (column_values doc column (idmap o)).2 /\
  length (column_values doc column (idmap o)).1 = length (declared_lines column).
Proof.
  unfold write_column, column_values, declared_lines, HasMember, member.
  destruct (String.eqb (columnName column) "id").
  { intros [= <-]. simpl. now rewrite string_app_nil_r. }
  destruct (FindMember _ doc) as [[v|]| |]; simpl; try discriminate.
  2:{ intros [= <-]. destruct (columnType column); texts. }
  destruct v as [ | b | n | s | l | ms ]; simpl.
  - intros [= <-]. destruct (columnType column); texts.
  - destruct (columnType column); simpl; try discriminate.
    intros [= <-]. texts.
  - destruct (columnType column); simpl; try discriminate.
    + destruct n as [z|m e]; simpl; [|discriminate].
      destruct ((- 2 ^ 31 <=? z) && (z <? 2 ^ 31)); simpl; [|discriminate].
      intros [= <-]. texts.
    + intros [= <-]. destruct n; texts.
  - destruct (columnType column); simpl; try discriminate.
    + unfold lookup_sk. destruct (makeSK "" (c_str s) (idmap o)) as [k m'].
      intros [= <-]. simpl.
      destruct (write_string_value table column sk ident s
                  (append "," (append k
                     (mkOutput (insertBuffer o) (recordCount o) (log o) m'))))
        as [E1 E2].
      rewrite E1, E2. texts.
    + intros [= <-]. simpl.
      destruct (write_string_value table column sk ident s o) as [E1 E2].
      rewrite E1, E2. texts.
    + intros [= <-]. simpl.
      destruct (write_string_value table column sk ident s o) as [E1 E2].
      rewrite E1, E2. texts.
  - destruct (columnType column); simpl; discriminate.
  - destruct (columnType column); simpl; discriminate.
Qed.

Lemma write_columns_values table doc sk ident cols : forall (o o' : Output M),
  write_columns table doc sk ident cols o = Ok o' ->
  insertBuffer o' =
    insertBuffer o
    ++ concat_texts (with_comma <$> columns_values doc cols (idmap o)) /\
  length (columns_values doc cols (idmap o)) =
    length (flat_map declared_lines cols).
Proof.
  induction cols as [|column cols IH]; intros o o'; simpl.
  - intros [= <-]. now rewrite string_app_nil_r.
  - intros H. apply bind_Ok in H as [o1 [H1 H]].
    apply write_column_values in H1 as (E1 & E2 & E3).
    apply IH in H as (E4 & E5).
    destruct (column_values doc column (idmap o)) as [vs m']. simpl in *.
    subst m'. rewrite E4, E1, fmap_app, concat_texts_app2, !length_app.
    rewrite string_app_assoc. split; [reflexivity|lia].
Qed.

Lemma write_data_value table doc sk ident (o : Output M) :
  insertBuffer (write_data table doc sk ident o) = insertBuffer o ++ data_value doc.
Proof.
  unfold write_data, data_value. repeat destruct (65535 <? _); reflexivity.
Qed.

Lemma declare_columns_lines cols : forall sql,
  foldl declare_column sql cols =
  sql ++ concat_texts (flat_map declared_lines cols).
Proof.
  induction cols as [|column cols IH]; intros sql; simpl.
  - now rewrite string_app_nil_r.
  - rewrite IH, concat_texts_app2. unfold declare_column, declared_lines.
    destruct (String.eqb (columnName column) "id"); simpl;
      [now rewrite ?string_app_assoc|].
    destruct (columnType column); simpl; now rewrite ?string_app_assoc, ?string_app_nil_r.
Qed.

(** X24. A tuple has one value for each column of the loading table.
    When [writeTuple] returns, the text that it appends is, after a comma
    if a record was already in the buffer, the values of the record
    between parentheses and separated by commas; these values are as many
    as the lines with which [createLoadingTable] declares the columns of
    the table: the surrogate key and the id, one value for each column of
    the schema other than [id] and two for one of type id, the data and
    the tenant id. *)
Theorem tuple_matches_loading_table (table : TableSchema) (doc : Value)
    (o o' : Output M) :
  writeTuple table doc o = Ok o' ->
  insertBuffer o' =
    insertBuffer o ++ (if recordCount o >? 0 then "," else "")
    ++ "(" ++ separated (tuple_values table doc (idmap o)) ++ ")" /\
  length (tuple_values table doc (idmap o)) = length (column_lines table) /\
  create_table_sql table =
    "CREATE TABLE " ++ loadingTableName (tableName table) ++ " (" ++ newline
    ++ concat_texts (column_lines table)
    ++ "    PRIMARY KEY (sk)," ++ newline
    ++ "    UNIQUE (id)" ++ newline
    ++ ")" ++ redshiftKeys "sk" "sk" ++ ";".
Proof.
  intros Hw. unfold writeTuple, write_fields in Hw.
  apply bind_Ok in Hw as [[[sk ident'] o1] [Hf Hw]].
  apply bind_Ok in Hf as [idv [Hid Hf]].
  apply bind_Ok in Hf as [ident [Hs Hf]].
  destruct idv; try discriminate Hs. injection Hs as ->.
  destruct (lookup_sk (tableName table) (c_str ident) _) as [k o2] eqn:E.
  apply bind_Ok in Hf as [o3 [Hc Hf]]. injection Hf as <- <- <-.
  injection Hw as <-.
  unfold lookup_sk in E.
  destruct (makeSK _ _ _) as [k' m'] eqn:Ek in E. injection E as -> <-.
  assert (Ek' : makeSK (tableName table) (c_str ident) (idmap o) = (k, m')).
  { rewrite <- Ek. now destruct (recordCount o >? 0). }
  apply write_columns_values in Hc as [E1 E2]. simpl in E1, E2.
  unfold tuple_values. rewrite Hid, Ek'.
  split; [|split].
  - simpl insertBuffer. rewrite write_data_value, E1.
    change ([k; encodeStringConst (c_str ident)]
            ++ columns_values doc (columns table) m'
            ++ [data_value doc; "1"])%list
      with ((k :: encodeStringConst (c_str ident)
               :: columns_values doc (columns table) m')
            ++ [data_value doc; "1"])%list.
    rewrite separated_snoc. simpl. unfold with_comma.
    destruct (recordCount o >? 0); simpl; now rewrite !string_app_assoc.
  - unfold column_lines. simpl. rewrite !length_app, E2. simpl. lia.
  - unfold create_table_sql, column_lines. cbv zeta.
    rewrite declare_columns_lines. simpl. rewrite !concat_texts_app2. simpl.
    now rewrite !string_app_assoc, ?string_app_nil_r.
Qed.

End Aligned.

Lemma tuple_matches_loading_table_witness :
  insertBuffer (tuple_of (dbt := quoting) (ids := counter)
                  (json := fixed_text "{}" "{}")
                  notes_table note (empty_output O)) =
    "(" ++ separated (tuple_values (dbt := quoting) (ids := counter)
                        (json := fixed_text "{}" "{}") notes_table note O)
    ++ ")" /\
  length (tuple_values (dbt := quoting) (ids := counter)
            (json := fixed_text "{}" "{}") notes_table note O) =
  length (column_lines (dialect := plain_dialect) (schema := text_schema)
            notes_table).
Proof.
  destruct (tuple_matches_loading_table (dbt := quoting) (ids := counter)
              (names := loading_prefix) (json := fixed_text "{}" "{}")
              (dialect := plain_dialect) (schema := text_schema)
              notes_table note (empty_output O)
              (tuple_of (dbt := quoting) (ids := counter)
                 (json := fixed_text "{}" "{}")
                 notes_table note (empty_output O))
              ltac:(vm_compute; reflexivity)) as (E1 & E2 & _).
  split; [exact E1|exact E2].
Defined.

End TupleFacts.

(** ** The end of a record and the end of the record array *)

Module RecordFacts.

Import CStr Json Outcome Stage Driver Notions StageExamples MoreExamples.
Import CStrFacts JsonFacts StageFacts TraversalFacts HandlerFacts EncoderFacts.
Local Open Scope string_scope.
Local Open Scope Z_scope.

Section Records.
Context {M : Type} {policy : Anonymize} {util : Util} {dbt : DBType}
  {ids : IDMap M} {names : Names} {json : RapidJSON}.

(** The two flags in the passes that [stageTable] runs. *)
Lemma anonymizeTable_of_passes (pass : Z) (table : TableSchema) :
  In pass passes ->
  anonymizeTable_of pass table =
    bool_decide (pass = 2 /\ c_str (tableName table) = "user_users") /\
  collectStats_of pass = bool_decide (pass = 1).
Proof.
  intros Hp. unfold anonymizeTable_of, collectStats_of.
  assert (H12 : pass = 1 \/ pass = 2) by (destruct Hp as [<-|[<-|[]]]; auto).
  split.
  - destruct H12 as [-> | ->]; cbn [Z.eqb Pos.eqb].
    + symmetry. apply bool_decide_eq_false_2. intros [? _]. lia.
    + destruct (Z.eqb_spec (strcmp (c_str (tableName table)) "user_users") 0)
        as [E|E]; symmetry.
      * apply bool_decide_eq_true_2. split; [reflexivity|].
        apply strcmp_eq in E. now rewrite c_str_idemp in E.
      * apply bool_decide_eq_false_2. intros [_ E']. apply E.
        apply strcmp_eq. now rewrite c_str_idemp.
  - destruct H12 as [-> | ->]; cbn [Z.eqb Pos.eqb]; symmetry.
    + now apply bool_decide_eq_true_2.
    + apply bool_decide_eq_false_2. lia.
Qed.

(** [EndObject] at the end of a record. *)
Lemma EndObject_at_record fuel (h : JSONHandler M) :
  level h = 3 ->
  EndObject fuel h =
  (r ← processJSONRecord fuel [] (collectStats_of (pass h))
         (anonymizeTable_of (pass h) (tableSchema h)) "" 0
         (ParseInsitu (c_str (record h ++ "}")), stats h);
   let h1 := set_stats r.2 (set_record (record h ++ "}") h) in
   if pass h =? 2
   then o ← writeTuple (tableSchema h) r.1 (out (flush_if_full h1));
        Ok (set_level 2 (set_out o (flush_if_full h1)))
   else Ok (set_level 2 h1)).
Proof.
  intros Hl. unfold EndObject. rewrite Hl. simpl.
  destruct (processJSONRecord _ _ _ _ _ _ _) as [[doc st]| |]; simpl;
    try reflexivity.
  destruct (pass h =? 2); simpl; [|rewrite Hl; reflexivity].
  destruct (flush_if_full_frame (set_stats st (set_record (record h ++ "}") h)))
    as (_ & Et & El & _).
  rewrite Et. simpl.
  destruct (writeTuple _ _ _); simpl; try reflexivity.
  unfold set_level. simpl. rewrite El. simpl. rewrite Hl. reflexivity.
Qed.

Lemma stats_flush_if_full (h : JSONHandler M) :
  stats (flush_if_full h) = stats h.
Proof. unfold flush_if_full. destruct (_ >? _); reflexivity. Qed.



(** C10. At the end of every record, in the two passes of [stageTable]:
    [EndObject] processes the record it has parsed with statistics
    collected in pass 1 only, and with the anonymization flag true
    exactly when the pass is 2 and the table is named [user_users] (the
    name read as a C string); in pass 2 the tuple is written from the
    document so processed. In pass 1 the statistics are therefore those
    of the values of the record as parsed, whatever the policy flags, and
    nothing is written. In pass 2 the tuple is that of the sorted record
    with its flagged values replaced for the table [user_users], and that
    of the sorted record unchanged for every other table. *)
Theorem anonymizeTable_flag (fuel : nat) (h : JSONHandler M) :
  In (pass h) passes -> level h = 3 ->
  let doc := ParseInsitu (c_str (record h ++ "}")) in
  let users := c_str (tableName (tableSchema h)) = "user_users" in
  (forall h', EndObject fuel h = Ok h' ->
     exists doc',
       processJSONRecord fuel [] (bool_decide (pass h = 1))
         (bool_decide (pass h = 2 /\ users)) "" 0 (doc, stats h) =
         Ok (doc', stats h') /\
       (pass h = 2 ->
          exists o, writeTuple (tableSchema h) doc' o = Ok (out h'))) /\
  (pass h = 1 -> distinct_names doc -> (weight doc <= fuel)%nat ->
     exists h',
       EndObject fuel h = Ok h' /\
       stats h' = count_children "" doc (stats h) /\
       out h' = out h /\ executed h' = executed h) /\
  (pass h = 2 -> (weight doc <= fuel)%nat ->
   forall h', EndObject fuel h = Ok h' ->
     (users -> pointer_safe doc ->
        exists o,
          writeTuple (tableSchema h) (canon (mask "" doc)) o = Ok (out h')) /\
     (~ users -> distinct_names doc ->
        exists o, writeTuple (tableSchema h) (canon doc) o = Ok (out h'))).
Proof.
  intros Hp Hl doc users.
  destruct (anonymizeTable_of_passes (pass h) (tableSchema h) Hp) as [Ea Ec].
  pose proof (EndObject_at_record fuel h Hl) as HE.
  rewrite Ea, Ec in HE. fold doc users in HE.
  assert (Htie : forall h', EndObject fuel h = Ok h' ->
     exists doc',
       processJSONRecord fuel [] (bool_decide (pass h = 1))
         (bool_decide (pass h = 2 /\ users)) "" 0 (doc, stats h) =
         Ok (doc', stats h') /\
       (pass h = 2 ->
          exists o, writeTuple (tableSchema h) doc' o = Ok (out h'))).
  { intros h' H. rewrite HE in H.
    apply bind_Ok in H as [[doc' st'] [Hr H]]. simpl in H.
    exists doc'.
    destruct (Z.eqb_spec (pass h) 2) as [E2|E2].
    - apply bind_Ok in H as [o [Hw [= <-]]]. simpl.
      rewrite stats_flush_if_full. simpl. split; [exact Hr|].
      intros _. eexists. exact Hw.
    - injection H as <-. simpl. split; [exact Hr|]. intros E. contradiction. }
  split; [exact Htie|]. split.
  - intros H1 Hd Hw. rewrite HE.
    rewrite (bool_decide_eq_true_2 _ H1).
    rewrite bool_decide_eq_false_2 by (intros [E _]; lia).
    rewrite (process_tally doc fuel [] doc true "" 0%nat (stats h) eq_refl Hw).
    simpl. rewrite H1. simpl. eexists. split; [reflexivity|].
    repeat split.
  - intros H2 Hw h' H. destruct (Htie h' H) as [doc' [Hr Hwr]].
    specialize (Hwr H2).
    rewrite bool_decide_eq_false_2 in Hr by lia.
    split.
    + intros Hu Hs. rewrite (bool_decide_eq_true_2 _ (conj H2 Hu)) in Hr.
      destruct (process_masked doc fuel [] doc false "" 0%nat (stats h) []
                  eq_refl Hs eq_refl eq_refl I Hw) as [s' Hs'].
      rewrite Hs' in Hr. injection Hr as <- _. exact Hwr.
    + intros Hu Hd. rewrite bool_decide_eq_false_2 in Hr by tauto.
      rewrite (process_tally doc fuel [] doc false "" 0%nat (stats h) eq_refl Hw)
        in Hr.
      injection Hr as <- _. exact Hwr.
Qed.



End Records.




Lemma distinct_names_note : distinct_names note.
Proof.
  simpl. repeat split;
    repeat (apply NoDup_cons; split;
      [rewrite ?elem_of_cons, elem_of_nil; intuition discriminate|]);
    apply NoDup_nil_2.
Qed.

Lemma anonymizeTable_flag_witness :
  exists h',
    EndObject (policy := flags_title) (util := no_uuid) (dbt := quoting)
      (ids := counter) (names := loading_prefix) (json := reads_note)
      9 (record_open 1) = Ok h' /\
    stats h' = count_children (util := no_uuid) "" note ∅ /\
    out h' = out (record_open 1) /\ executed h' = executed (record_open 1).
Proof.
  destruct (anonymizeTable_flag (policy := flags_title) (util := no_uuid)
              (dbt := quoting) (ids := counter) (names := loading_prefix)
              (json := reads_note) 9 (record_open 1))
    as (_ & Hanalyze & _).
  - vm_compute. left. reflexivity.
  - vm_compute. reflexivity.
  - apply Hanalyze.
    + vm_compute. reflexivity.
    + exact distinct_names_note.
    + simpl. lia.
Defined.

End RecordFacts.
